(** * sqlflow: the DDL parser, the layout engine and the edge router

    A shallow embedding of

    - [sqlflow-app/src/utils/sqlParser.ts]   (class [SQLParser]),
    - the [LayoutEngine] class               ([hierarchicalLayout],
      [resolveOverlaps]),
    - [sqlflow-app/src/utils/edgeRouting.ts] ([calculateOptimalConnection],
      [calculateAllOptimalConnections]),
    - the hook [useSchemaFilters]            ([categorizedTables],
      [filteredTables], [filteredRelationships], [filterStats]),

    together with the properties of the specification that concern them
    and further properties of the same code.

    Conventions of the embedding.

    - A JavaScript string is a [string]: a sequence of code units, here
      restricted to the range 0..255.  The regular expressions of the
      parser are ASCII patterns, so the classes [\s], [\w] and the [/i]
      flag are the ECMAScript ones restricted to that range.
    - A JavaScript regular expression is a term of [Regex.regex]; it is run
      by a backtracking matcher that follows the ECMAScript priorities
      (greedy and lazy quantifiers, ordered alternation, capture groups).
    - Mutable arrays of the parser are lists threaded through the loops; the
      tables array is updated in place at the index [Array.prototype.find]
      returns.
    - A JavaScript number is an instance of the class [Number]: binary64
      floats ([float]) are what the program runs on, the rationals [Q] are
      the exact-arithmetic reading of the same expressions.
    - [Map<string, _>] is a [gmap string _], [Set<string>] a [gset string]. *)

From Stdlib Require Import ZArith QArith Qabs Floats Uint63 Ascii String.
From Stdlib Require Import DecimalString DecimalNat Lqa.
From stdpp Require Import gmap strings.

(** ** Code units and the string methods the parser uses *)

Module Js.

Definition code (c : ascii) : nat := nat_of_ascii c.

Definition in_range (lo hi : nat) (c : ascii) : bool :=
  (lo <=? code c)%nat && (code c <=? hi)%nat.

(** [\s] (and the characters [trim] strips): TAB, LF, VT, FF, CR, SP and
    NBSP are the white space and line terminators below 256. *)
Definition is_space (c : ascii) : bool :=
  in_range 9 13 c || (code c =? 32)%nat || (code c =? 160)%nat.

(** [\w] is [[A-Za-z0-9_]]. *)
Definition is_word (c : ascii) : bool :=
  in_range 65 90 c || in_range 97 122 c || in_range 48 57 c || (code c =? 95)%nat.

(** [.] excludes the line terminators LF and CR. *)
Definition is_line_terminator (c : ascii) : bool :=
  (code c =? 10)%nat || (code c =? 13)%nat.

(** ASCII case folding: the canonicalisation of the [/i] flag never maps a
    code unit above 127 to one below, so for ASCII patterns this is it. *)
Definition fold_case (c : ascii) : ascii :=
  if in_range 97 122 c then ascii_of_nat (code c - 32) else c.

(** [String.prototype.toLowerCase] on code units below 256: A-Z and the
    Latin-1 capitals (all of 192..222 but the multiplication sign). *)
Definition lower_char (c : ascii) : ascii :=
  if in_range 65 90 c || (in_range 192 222 c && negb (code c =? 215)%nat)
  then ascii_of_nat (code c + 32) else c.

Fixpoint toLowerCase (s : string) : string :=
  match s with
  | EmptyString => EmptyString
  | String c s' => String (lower_char c) (toLowerCase s')
  end.

Fixpoint startsWith (p s : string) : bool :=
  match p, s with
  | EmptyString, _ => true
  | String a p', String b s' => Ascii.eqb a b && startsWith p' s'
  | String _ _, EmptyString => false
  end.

(** [s.includes(sub)] *)
Fixpoint includes (s sub : string) : bool :=
  startsWith sub s ||
  match s with
  | EmptyString => false
  | String _ s' => includes s' sub
  end.

Fixpoint trimStart (s : string) : string :=
  match s with
  | String c s' => if is_space c then trimStart s' else s
  | EmptyString => EmptyString
  end.

Fixpoint trimEnd (s : string) : string :=
  match s with
  | EmptyString => EmptyString
  | String c s' =>
      match trimEnd s' with
      | EmptyString => if is_space c then EmptyString else String c EmptyString
      | t => String c t
      end
  end.

Definition trim (s : string) : string := trimEnd (trimStart s).

(** [s.split(sep)] for a one-character separator: the pieces between the
    separators, the empty ones included. *)
Fixpoint split_on (sep : ascii) (s : string) (cur : string) : list string :=
  match s with
  | EmptyString => [cur]
  | String c s' =>
      if Ascii.eqb c sep then cur :: split_on sep s' EmptyString
      else split_on sep s' (cur +:+ String c EmptyString)
  end.

Definition split (sep : ascii) (s : string) : list string :=
  split_on sep s EmptyString.

Fixpoint take (n : nat) (s : string) : string :=
  match n, s with
  | S n', String c s' => String c (take n' s')
  | _, _ => EmptyString
  end.

(** The decimal rendering of an array length inside a template literal. *)
Definition string_of_nat (n : nat) : string :=
  NilEmpty.string_of_uint (Nat.to_uint n).

End Js.

(** ** Regular expressions with the ECMAScript backtracking semantics *)

Module Regex.

Inductive regex : Type :=
| Eps                                   (* the empty pattern *)
| Chr (p : ascii -> bool)               (* one code unit of a class *)
| Seq (r1 r2 : regex)                   (* r1 r2 *)
| Alt (r1 r2 : regex)                   (* r1 | r2, r1 tried first *)
| Star (greedy : bool) (r : regex)      (* r* and r*? *)
| Group (i : nat) (r : regex)           (* the i-th capturing group *)
| Bol                                   (* ^ without the m flag *)
| Eol                                   (* $ without the m flag *)
| WordBoundary.                         (* \b *)

(** A position in the subject: the code unit just before it, if any, and
    what is left of the subject. *)
Record cursor : Type := Cursor { before : option ascii; rest : string }.

(** Bindings of the capture groups, the latest first. *)
Definition captures : Type := list (nat * string).

Definition remaining (c : cursor) : nat := String.length (rest c).

(** The text between two positions of the same subject. *)
Definition consumed (c c' : cursor) : string :=
  Js.take (remaining c - remaining c') (rest c).

Definition word_before (c : cursor) : bool :=
  match before c with Some a => Js.is_word a | None => false end.

Definition word_after (c : cursor) : bool :=
  match rest c with String a _ => Js.is_word a | EmptyString => false end.

Definition outcome : Type := option (cursor * captures).

(** The rounds of a star whose body is run by [step]: an iteration that
    consumes nothing is rejected, as in ECMAScript's RepeatMatcher.  An
    iteration therefore consumes at least one code unit, and the
    [remaining c + 1] rounds a star is given are never exhausted. *)
Definition star_loop (greedy : bool)
    (step : (cursor -> captures -> outcome) -> cursor -> captures -> outcome)
    (k : cursor -> captures -> outcome) : nat -> cursor -> captures -> outcome :=
  fix loop (n : nat) (c : cursor) (cs : captures) {struct n} : outcome :=
    match n with
    | O => k c cs
    | S n' =>
        let again c' cs' :=
          if (remaining c' <? remaining c)%nat then loop n' c' cs' else None in
        if greedy then
          match step again c cs with
          | Some res => Some res
          | None => k c cs
          end
        else
          match k c cs with
          | Some res => Some res
          | None => step again c cs
          end
    end.

(** [rmatch r k c cs] runs [r] at [c] and hands every way it can match, in
    priority order, to the continuation [k] until one succeeds. *)
Fixpoint rmatch (r : regex) (k : cursor -> captures -> outcome)
    (c : cursor) (cs : captures) {struct r} : outcome :=
  match r with
  | Eps => k c cs
  | Chr p =>
      match rest c with
      | String a s' => if p a then k (Cursor (Some a) s') cs else None
      | EmptyString => None
      end
  | Seq r1 r2 => rmatch r1 (rmatch r2 k) c cs
  | Alt r1 r2 =>
      match rmatch r1 k c cs with
      | Some res => Some res
      | None => rmatch r2 k c cs
      end
  | Star greedy r1 => star_loop greedy (rmatch r1) k (S (remaining c)) c cs
  | Group i r1 => rmatch r1 (fun c' cs' => k c' ((i, consumed c c') :: cs')) c cs
  | Bol => match before c with None => k c cs | Some _ => None end
  | Eol => match rest c with EmptyString => k c cs | String _ _ => None end
  | WordBoundary => if xorb (word_before c) (word_after c) then k c cs else None
  end.

Arguments star_loop : simpl never.

Definition accept : cursor -> captures -> outcome := fun c cs => Some (c, cs).

(** The match at one position. *)
Definition match_here (r : regex) (c : cursor) : outcome := rmatch r accept c [].

(** What [exec] and [match] return: the index of the match, the matched
    text and the groups. *)
Record result : Type := Result { index : nat; matched : string; groups : captures }.

Definition result_at (idx : nat) (c : cursor) (res : cursor * captures) : result :=
  Result idx (consumed c (fst res)) (snd res).

Fixpoint lookup_group (i : nat) (cs : captures) : option string :=
  match cs with
  | [] => None
  | (j, s) :: cs' => if (i =? j)%nat then Some s else lookup_group i cs'
  end.

(** [m[i]], [undefined] being [None]. *)
Definition group (m : result) (i : nat) : option string := lookup_group i (groups m).

(** [m[i]] for a group that takes part in every match of its pattern. *)
Definition captured (m : result) (i : nat) : string := default EmptyString (group m i).

(** The leftmost match: [s.match(r)], [r.exec(s)] and [r.test(s)] for a
    pattern without the g flag. *)
Fixpoint search_from (r : regex) (prev : option ascii) (s : string) (idx : nat)
    : option result :=
  match match_here r (Cursor prev s) with
  | Some res => Some (result_at idx (Cursor prev s) res)
  | None =>
      match s with
      | EmptyString => None
      | String a s' => search_from r (Some a) s' (S idx)
      end
  end.

Definition search (r : regex) (s : string) : option result := search_from r None s 0.

Definition test (r : regex) (s : string) : bool :=
  match search r s with Some _ => true | None => false end.

(** The successive matches of a pattern with the g flag, as the loop
    [while ((m = r.exec(s)) !== null)] sees them: each search resumes where
    the previous match ended.  [skip] counts the code units of the previous
    match still to step over.  (None of the parser's patterns matches the
    empty string; for such a match the scan moves on by one code unit, as
    [replace] does.) *)
Fixpoint scan (r : regex) (prev : option ascii) (s : string) (idx skip : nat)
    : list result :=
  match skip with
  | S skip' =>
      match s with
      | EmptyString => []
      | String a s' => scan r (Some a) s' (S idx) skip'
      end
  | O =>
      match match_here r (Cursor prev s) with
      | Some res =>
          result_at idx (Cursor prev s) res ::
          match s with
          | EmptyString => []
          | String a s' =>
              scan r (Some a) s' (S idx)
                (remaining (Cursor prev s) - remaining (fst res) - 1)
          end
      | None =>
          match s with
          | EmptyString => []
          | String a s' => scan r (Some a) s' (S idx) 0
          end
      end
  end.

Definition exec_all (r : regex) (s : string) : list result := scan r None s 0 0.

(** [s.replace(r, repl)] for a pattern with the g flag and a replacement
    without [$] patterns. *)
Fixpoint replace_from (r : regex) (repl : string) (prev : option ascii)
    (s : string) (skip : nat) : string :=
  match skip with
  | S skip' =>
      match s with
      | EmptyString => EmptyString
      | String a s' => replace_from r repl (Some a) s' skip'
      end
  | O =>
      match match_here r (Cursor prev s) with
      | Some res =>
          let len := remaining (Cursor prev s) - remaining (fst res) in
          repl +:+
          match s with
          | EmptyString => EmptyString
          | String a s' =>
              match len with
              | O => String a (replace_from r repl (Some a) s' 0)
              | S len' => replace_from r repl (Some a) s' len'
              end
          end
      | None =>
          match s with
          | EmptyString => EmptyString
          | String a s' => String a (replace_from r repl (Some a) s' 0)
          end
      end
  end.

Definition replace (r : regex) (repl : string) (s : string) : string :=
  replace_from r repl None s 0.

(** The positions of a subject, each with its cursor: the places where a
    scan can look for a match. *)
Fixpoint cursors (prev : option ascii) (s : string) (idx : nat) : list (nat * cursor) :=
  (idx, Cursor prev s) ::
  match s with
  | EmptyString => []
  | String a s' => cursors (Some a) s' (S idx)
  end.

(** The cursor at the position [p] of a subject. *)
Fixpoint seek (prev : option ascii) (s : string) (p : nat) : cursor :=
  match p, s with
  | S p', String a s' => seek (Some a) s' p'
  | _, _ => Cursor prev s
  end.

Definition cursor_at (s : string) (p : nat) : cursor := seek None s p.

(** The least number of code units a match of a pattern consumes. *)
Fixpoint min_length (r : regex) : nat :=
  match r with
  | Chr _ => 1
  | Seq r1 r2 => min_length r1 + min_length r2
  | Alt r1 r2 => Nat.min (min_length r1) (min_length r2)
  | Group _ r1 => min_length r1
  | Eps | Star _ _ | Bol | Eol | WordBoundary => 0
  end.

(** *** Pattern syntax *)

Definition plus (r : regex) : regex := Seq r (Star true r).
Definition star (r : regex) : regex := Star true r.
Definition lazy_star (r : regex) : regex := Star false r.
Definition opt (r : regex) : regex := Alt r Eps.

(** A literal character under the i flag, and without it. *)
Definition chri (a : ascii) : regex :=
  Chr (fun c => Ascii.eqb (Js.fold_case c) (Js.fold_case a)).
Definition chr (a : ascii) : regex := Chr (Ascii.eqb a).

Fixpoint liti (s : string) : regex :=
  match s with
  | EmptyString => Eps
  | String a EmptyString => chri a
  | String a s' => Seq (chri a) (liti s')
  end.

Fixpoint lit (s : string) : regex :=
  match s with
  | EmptyString => Eps
  | String a EmptyString => chr a
  | String a s' => Seq (chr a) (lit s')
  end.

Fixpoint mem (c : ascii) (s : string) : bool :=
  match s with
  | EmptyString => false
  | String a s' => Ascii.eqb c a || mem c s'
  end.

Definition space : regex := Chr Js.is_space.                          (* \s *)
Definition word : regex := Chr Js.is_word.                            (* \w *)
Definition any : regex := Chr (fun _ => true).                        (* [\s\S] *)
Definition dot : regex := Chr (fun c => negb (Js.is_line_terminator c)). (* . *)
Definition one_of (s : string) : regex := Chr (fun c => mem c s).     (* [...] *)
Definition none_of (s : string) : regex := Chr (fun c => negb (mem c s)). (* [^...] *)
(** [[^,\s]] *)
Definition not_comma_space : regex :=
  Chr (fun c => negb (Ascii.eqb c ","%char || Js.is_space c)).

Fixpoint seq (rs : list regex) : regex :=
  match rs with
  | [] => Eps
  | [r] => r
  | r :: rs' => Seq r (seq rs')
  end.

Fixpoint alt (rs : list regex) : regex :=
  match rs with
  | [] => Eps
  | [r] => r
  | r :: rs' => Alt r (alt rs')
  end.

End Regex.

(** ** The data model ([types/index.ts]) *)

Module Column.
Record t : Type := Build
  { name : string; type : string; nullable : bool; isPrimary : bool; isForeign : bool }.
End Column.

Module ForeignKey.
Record t : Type := Build
  { column : string; referencedTable : string; referencedColumn : string }.
End ForeignKey.

Module Index.
Record t : Type := Build
  { name : string; columns : list string; isUnique : bool; type : string }.
End Index.

Module Table.
Record t : Type := Build
  { name : string;
    columns : list Column.t;
    primaryKeys : list string;
    foreignKeys : list ForeignKey.t;
    indexes : list Index.t }.
End Table.

Module Relationship.
Record t : Type := Build
  { id : string; from : string; to : string; fromColumn : string; toColumn : string }.
End Relationship.

Module Schema.
Record t : Type := Build
  { tables : list Table.t; relationships : list Relationship.t }.
End Schema.

(** ** Exceptions: what a [try] block evaluates to *)

Inductive completion (A : Type) : Type :=
| Return (a : A)
| Throw (error : string).
Arguments Return {A} a.
Arguments Throw {A} error.

Definition try_catch {A : Type} (body : completion A) (handler : string -> completion A)
    : completion A :=
  match body with
  | Return a => Return a
  | Throw error => handler error
  end.

(** ** The parser ([utils/sqlParser.ts]) *)

Module SQLParser.
Import Regex.

Definition newline : string := String (ascii_of_nat 10) EmptyString.

(** The double quote, the backquote and the quote: the class of the pattern
    that strips quoting from a name. *)
Definition quoteChars : string := String (ascii_of_nat 34) "`'".

(** [col.trim().replace(quotes, '')], where [quotes] is that class with
    the g flag. *)
Definition cleanName (col : string) : string :=
  replace (one_of quoteChars) "" (Js.trim col).

(** [str.split(',').map(col => col.trim().replace(quotes, ''))] *)
Definition splitNames (str : string) : list string :=
  map cleanName (Js.split "," str).

(** [(?:IF\s+NOT\s+EXISTS\s+)?] *)
Definition ifNotExists : regex :=
  opt (seq [liti "IF"; plus space; liti "NOT"; plus space; liti "EXISTS"; plus space]).

(** [(?:\w+\.)?] *)
Definition schemaPrefix : regex := opt (seq [plus word; chr "."]).

(** [(?:public\.)?] *)
Definition publicPrefix : regex := opt (seq [liti "public"; chr "."]).

(** [/CREATE\s+TABLE\s+(?:IF\s+NOT\s+EXISTS\s+)?(?:public\.)?(\w+)\s*\(([\s\S]*?)\);/gi] *)
Definition createTableRegex : regex :=
  seq [liti "CREATE"; plus space; liti "TABLE"; plus space; ifNotExists; publicPrefix;
       Group 1 (plus word); star space; chr "(";
       Group 2 (lazy_star any); chr ")"; chr ";"].

(** [/CREATE\s+(?:(UNIQUE)\s+)?INDEX\s+(?:IF\s+NOT\s+EXISTS\s+)?(\w+)\s+ON\s+(?:public\.)?(\w+)\s*\(\s*([^)]+)\s*\)/gi] *)
Definition indexRegex : regex :=
  seq [liti "CREATE"; plus space; opt (seq [Group 1 (liti "UNIQUE"); plus space]);
       liti "INDEX"; plus space; ifNotExists;
       Group 2 (plus word); plus space; liti "ON"; plus space; publicPrefix;
       Group 3 (plus word); star space; chr "("; star space;
       Group 4 (plus (none_of ")")); star space; chr ")"].

(** [/^\s*PRIMARY\s+KEY\s*\(/i] *)
Definition primaryKeyClauseRegex : regex :=
  seq [Bol; star space; liti "PRIMARY"; plus space; liti "KEY"; star space; chr "("].

(** [/PRIMARY\s+KEY\s*\(\s*([^)]+)\s*\)/i] *)
Definition primaryKeyListRegex : regex :=
  seq [liti "PRIMARY"; plus space; liti "KEY"; star space; chr "("; star space;
       Group 1 (plus (none_of ")")); star space; chr ")"].

(** [/(\w+)\s+[^,]*REFERENCES\s+(?:\w+\.)?(\w+)\s*\(\s*(\w+)\s*\)/i] *)
Definition inlineForeignKeyRegex : regex :=
  seq [Group 1 (plus word); plus space; star (none_of ","); liti "REFERENCES";
       plus space; schemaPrefix; Group 2 (plus word); star space; chr "("; star space;
       Group 3 (plus word); star space; chr ")"].

(** [/(?:CONSTRAINT\s+\w+\s+)?FOREIGN\s+KEY\s*\(\s*(\w+)\s*\)\s+REFERENCES\s+(?:\w+\.)?(\w+)\s*\(\s*(\w+)\s*\)/i] *)
Definition tableForeignKeyRegex : regex :=
  seq [opt (seq [liti "CONSTRAINT"; plus space; plus word; plus space]);
       liti "FOREIGN"; plus space; liti "KEY"; star space; chr "("; star space;
       Group 1 (plus word); star space; chr ")"; plus space; liti "REFERENCES";
       plus space; schemaPrefix; Group 2 (plus word); star space; chr "("; star space;
       Group 3 (plus word); star space; chr ")"].

(** [/^(\w+)\s+(.+)$/i] *)
Definition columnRegex : regex :=
  seq [Bol; Group 1 (plus word); plus space; Group 2 (plus dot); Eol].

(** [/PRIMARY\s+KEY/i] and [/NOT\s+NULL/i] *)
Definition primaryKeyRegex : regex := seq [liti "PRIMARY"; plus space; liti "KEY"].
Definition notNullRegex : regex := seq [liti "NOT"; plus space; liti "NULL"].

(** [/\s*(A).*/gi] where the group [A] is the alternation
    [PRIMARY\s+KEY|NOT\s+NULL|NULL|UNIQUE|DEFAULT\s+[^,\s]*|REFERENCES\s+\w+\s*\([^)]+\)[^,]*] *)
Definition constraintTailRegex : regex :=
  seq [star space;
       Group 1 (alt [primaryKeyRegex;
                     notNullRegex;
                     liti "NULL";
                     liti "UNIQUE";
                     seq [liti "DEFAULT"; plus space; star not_comma_space];
                     seq [liti "REFERENCES"; plus space; plus word; star space; chr "(";
                          plus (none_of ")"); chr ")"; star (none_of ",")]]);
       star dot].

(** [/\s+/g] *)
Definition spacesRegex : regex := plus space.

(** [/REFERENCES\s+(?:\w+\.)?(\w+)\s*\(\s*(\w+)\s*\)/i] *)
Definition referencesRegex : regex :=
  seq [liti "REFERENCES"; plus space; schemaPrefix; Group 1 (plus word); star space;
       chr "("; star space; Group 2 (plus word); star space; chr ")"].

(** The tail shared by the two ALTER TABLE patterns:
    [FOREIGN\s+KEY\s*\(\s*([^\)]+)\s*\)\s+REFERENCES\s+(?:\w+\.)?(\w+)\s*\(\s*([^\)]+)\s*\)] *)
Definition alterForeignKeyTail : list regex :=
  [liti "FOREIGN"; plus space; liti "KEY"; star space; chr "("; star space;
   Group 2 (plus (none_of ")")); star space; chr ")"; plus space; liti "REFERENCES";
   plus space; schemaPrefix; Group 3 (plus word); star space; chr "("; star space;
   Group 4 (plus (none_of ")")); star space; chr ")"].

(** [ALTER\s+TABLE\s+(?:IF\s+NOT\s+EXISTS\s+)?(?:\w+\.)?(\w+)\s+ADD\s+] *)
Definition alterTableHead : list regex :=
  [liti "ALTER"; plus space; liti "TABLE"; plus space; ifNotExists; schemaPrefix;
   Group 1 (plus word); plus space; liti "ADD"; plus space].

(** [CONSTRAINT\s+\w+\s+] *)
Definition constraintName : regex :=
  seq [liti "CONSTRAINT"; plus space; plus word; plus space].

(** Pattern 1, [alterFkRegex]: head, [(?:CONSTRAINT\s+\w+\s+)?], tail; flags gi. *)
Definition alterFkRegex : regex :=
  seq (alterTableHead ++ [opt constraintName] ++ alterForeignKeyTail).

(** Pattern 2, [alterFkRegex2]: head, tail; flags gi. *)
Definition alterFkRegex2 : regex := seq (alterTableHead ++ alterForeignKeyTail).

(** *** [extractCreateTableStatements] and [preprocessPostgreSQL] *)

Fixpoint endsWith (s suffix : string) : bool :=
  String.eqb s suffix ||
  match s with
  | EmptyString => false
  | String _ s' => endsWith s' suffix
  end.

Definition extractCreateTableStatements (sql : string) : list string :=
  fold_left
    (fun statements m =>
       let fullStatement := matched m in
       if endsWith (Js.trim fullStatement) ");" then statements ++ [fullStatement]
       else statements)
    (exec_all createTableRegex sql) [].

Fixpoint join (sep : string) (l : list string) : string :=
  match l with
  | [] => EmptyString
  | [s] => s
  | s :: l' => s +:+ sep +:+ join sep l'
  end.

(** [\bword\b] under the i flag *)
Definition wholeWord (w : string) : regex := seq [WordBoundary; liti w; WordBoundary].

Definition preprocessPostgreSQL (sql : string) : string :=
  let createTableStatements := extractCreateTableStatements sql in
  let processed := join (newline +:+ newline) createTableStatements in
  let processed := if String.eqb (Js.trim processed) "" then sql else processed in
  let processed := replace (liti "IF NOT EXISTS") "" processed in
  let processed := replace (seq [liti "public"; chr "."]) "" processed in
  let processed := replace (wholeWord "bigserial") "BIGINT AUTO_INCREMENT" processed in
  let processed := replace (wholeWord "serial") "INT AUTO_INCREMENT" processed in
  let processed := replace (wholeWord "TEXT") "VARCHAR(65535)" processed in
  let processed := replace (wholeWord "JSONB") "JSON" processed in
  let processed := replace (wholeWord "TIMESTAMP WITH TIME ZONE") "TIMESTAMP" processed in
  let processed := replace (wholeWord "TIMESTAMP WITHOUT TIME ZONE") "TIMESTAMP" processed in
  let processed := replace (seq [lit "--"; star dot]) "" processed in
  let processed := replace (seq [lit "/*"; lazy_star any; lit "*/"]) "" processed in
  Js.trim (replace spacesRegex " " processed).

(** *** [extractIndexes] and [associateIndexesWithTables] *)

Record indexEntry : Type := IndexEntry { tableName : string; index : Index.t }.

(** [!!match[1]]: the group (UNIQUE) took part in the match. *)
Definition uniquePresent (m : result) : bool :=
  match group m 1 with Some (String _ _) => true | _ => false end.

Definition indexOfMatch (m : result) : indexEntry :=
  let isUnique := uniquePresent m in
  let indexName := captured m 2 in
  let tableName := captured m 3 in
  let columnsStr := captured m 4 in
  let columns := splitNames columnsStr in
  IndexEntry tableName (Index.Build indexName columns isUnique "BTREE").

Definition extractIndexes (sql : string) : list indexEntry :=
  map indexOfMatch (exec_all indexRegex sql).

(** [t => t.name.toLowerCase() === tableName.toLowerCase()] *)
Definition sameTable (tableName : string) (t : Table.t) : bool :=
  String.eqb (Js.toLowerCase (Table.name t)) (Js.toLowerCase tableName).

(** The position of the object [l.find(p)] returns; a mutation of that
    object is an [alter] of the array at that position. *)
Fixpoint findIndex {A : Type} (p : A -> bool) (l : list A) : option nat :=
  match l with
  | [] => None
  | x :: l' => if p x then Some 0 else option_map S (findIndex p l')
  end.

Definition pushIndex (idx : Index.t) (t : Table.t) : Table.t :=
  Table.Build (Table.name t) (Table.columns t) (Table.primaryKeys t)
    (Table.foreignKeys t) (Table.indexes t ++ [idx]).

Definition associateIndexesWithTables (tables : list Table.t) (indexes : list indexEntry)
    : list Table.t :=
  fold_left
    (fun tables e =>
       match findIndex (sameTable (tableName e)) tables with
       | Some i => alter (pushIndex (index e)) i tables
       | None => tables
       end)
    indexes tables.

(** *** [splitByCommaRespectingParentheses] *)

Definition pushChar (current : string) (char : ascii) : string :=
  current +:+ String char EmptyString.

Fixpoint splitLoop (text : string) (result : list string) (current : string)
    (parenthesesCount : Z) : list string :=
  match text with
  | EmptyString =>
      if String.eqb (Js.trim current) "" then result else result ++ [Js.trim current]
  | String char text' =>
      if Ascii.eqb char "(" then
        splitLoop text' result (pushChar current char) (parenthesesCount + 1)
      else if Ascii.eqb char ")" then
        splitLoop text' result (pushChar current char) (parenthesesCount - 1)
      else if Ascii.eqb char "," && (parenthesesCount =? 0)%Z then
        splitLoop text' (result ++ [Js.trim current]) EmptyString parenthesesCount
      else
        splitLoop text' result (pushChar current char) parenthesesCount
  end.

Definition splitByCommaRespectingParentheses (text : string) : list string :=
  splitLoop text [] EmptyString 0.

(** *** [parseTableDefinitionRegex] *)

(** The three arrays the loop over the clauses fills. *)
Record clauses : Type := Clauses
  { columns : list Column.t;
    primaryKeys : list string;
    foreignKeys : list ForeignKey.t }.

(** [names.includes(x)] *)
Definition includesName (names : list string) (x : string) : bool :=
  existsb (String.eqb x) names.

(** [foreignKeys.some(fk => fk.column === x)] *)
Definition someForeignKey (fks : list ForeignKey.t) (x : string) : bool :=
  existsb (fun fk => String.eqb (ForeignKey.column fk) x) fks.

(** The test of the first branch of the loop. *)
Definition isPrimaryKeyClause (line : string) : bool :=
  (Js.includes line "CONSTRAINT" && Js.includes line "PRIMARY KEY")
  || test primaryKeyClauseRegex line.

Definition foreignKeyOfMatch (m : result) : ForeignKey.t :=
  ForeignKey.Build (captured m 1) (captured m 2) (captured m 3).

(** The third branch: a regular column definition. *)
Definition parseColumn (st : clauses) (columnMatch : result) : clauses :=
  let columnName := captured columnMatch 1 in
  let rest := Js.trim (captured columnMatch 2) in
  let hasPrimaryKey := test primaryKeyRegex rest in
  let hasNotNull := test notNullRegex rest in
  let columnType := Js.trim (replace constraintTailRegex "" rest) in
  let columnType :=
    if String.eqb columnType rest then replace spacesRegex " " rest else columnType in
  let '(columnType, primaryKeys) :=
    if Js.includes (Js.toLowerCase columnType) "bigserial"
    then ("BIGINT", primaryKeys st ++ [columnName])
    else if Js.includes (Js.toLowerCase columnType) "serial"
    then ("INT", primaryKeys st ++ [columnName])
    else (columnType, primaryKeys st) in
  let isPrimary := hasPrimaryKey || includesName primaryKeys columnName in
  let primaryKeys :=
    if isPrimary && negb (includesName primaryKeys columnName)
    then primaryKeys ++ [columnName] else primaryKeys in
  let foreignKeys :=
    match search referencesRegex rest with
    | Some referencesMatch =>
        foreignKeys st ++
        [ForeignKey.Build columnName (captured referencesMatch 1)
           (captured referencesMatch 2)]
    | None => foreignKeys st
    end in
  let isForeign := someForeignKey foreignKeys columnName in
  Clauses
    (columns st ++ [Column.Build columnName columnType (negb hasNotNull) isPrimary isForeign])
    primaryKeys foreignKeys.

(** The body of [for (const line of lines)]. *)
Definition parseClause (st : clauses) (line : string) : clauses :=
  if isPrimaryKeyClause line then
    match search primaryKeyListRegex line with
    | Some pkMatch =>
        Clauses (columns st) (primaryKeys st ++ splitNames (captured pkMatch 1))
          (foreignKeys st)
    | None => st
    end
  else if Js.includes line "REFERENCES" then
    match search inlineForeignKeyRegex line with
    | Some fkMatch =>
        Clauses (columns st) (primaryKeys st) (foreignKeys st ++ [foreignKeyOfMatch fkMatch])
    | None =>
        match search tableForeignKeyRegex line with
        | Some tableLevelFkMatch =>
            Clauses (columns st) (primaryKeys st)
              (foreignKeys st ++ [foreignKeyOfMatch tableLevelFkMatch])
        | None => st
        end
    end
  else if negb (Js.includes line "CONSTRAINT") then
    match search columnRegex line with
    | Some columnMatch => parseColumn st columnMatch
    | None => st
    end
  else st.

(** The final [columns.forEach]: mark primary and foreign key columns. *)
Definition markColumn (primaryKeys : list string) (foreignKeys : list ForeignKey.t)
    (column : Column.t) : Column.t :=
  Column.Build (Column.name column) (Column.type column) (Column.nullable column)
    (if includesName primaryKeys (Column.name column) then true
     else Column.isPrimary column)
    (if someForeignKey foreignKeys (Column.name column) then true
     else Column.isForeign column).

(** Nothing in the [try] block can throw, so the [null] of the [catch]
    is never returned. *)
Definition parseTableDefinitionRegex (tableName definition : string) : option Table.t :=
  let lines := splitByCommaRespectingParentheses definition in
  let st := fold_left parseClause lines (Clauses [] [] []) in
  Some (Table.Build tableName
          (map (markColumn (primaryKeys st) (foreignKeys st)) (columns st))
          (primaryKeys st) (foreignKeys st) []).

(** *** [extractRelationshipsRegex] *)

(** [`${from}-${to}-${relationships.length}`] *)
Definition relationshipId (from to : string) (relationships : list Relationship.t)
    : string :=
  from +:+ "-" +:+ to +:+ "-" +:+ Js.string_of_nat (length relationships).

Definition extractRelationshipsRegex (table : Table.t)
    (relationships : list Relationship.t) (definition : string) : list Relationship.t :=
  fold_left
    (fun relationships fk =>
       relationships ++
       [Relationship.Build
          (relationshipId (Table.name table) (ForeignKey.referencedTable fk) relationships)
          (Table.name table) (ForeignKey.referencedTable fk)
          (ForeignKey.column fk) (ForeignKey.referencedColumn fk)])
    (Table.foreignKeys table) relationships.

(** *** [parseAlterTableForeignKeys] *)

(** [c => c.name.toLowerCase() === fromColumn.toLowerCase()] *)
Definition sameColumn (fromColumn : string) (c : Column.t) : bool :=
  String.eqb (Js.toLowerCase (Column.name c)) (Js.toLowerCase fromColumn).

Definition setForeign (c : Column.t) : Column.t :=
  Column.Build (Column.name c) (Column.type c) (Column.nullable c) (Column.isPrimary c) true.

(** [table.foreignKeys.push(fk)] followed by the marking of the column. *)
Definition pushForeignKey (fk : ForeignKey.t) (table : Table.t) : Table.t :=
  Table.Build (Table.name table)
    (match findIndex (sameColumn (ForeignKey.column fk)) (Table.columns table) with
     | Some j => alter setForeign j (Table.columns table)
     | None => Table.columns table
     end)
    (Table.primaryKeys table) (Table.foreignKeys table ++ [fk]) (Table.indexes table).

(** One round of the loop [for (let i = 0; i < count; i++)], for the table
    found at position [pos], whose name is [name]. *)
Definition addAlterForeignKey (pos : nat) (name refTable : string)
    (st : list Table.t * list Relationship.t) (pair : string * string)
    : list Table.t * list Relationship.t :=
  let '(tables, relationships) := st in
  let '(fromColumn, toColumn) := pair in
  (alter (pushForeignKey (ForeignKey.Build fromColumn refTable toColumn)) pos tables,
   relationships ++
   [Relationship.Build (relationshipId name refTable relationships)
      name refTable fromColumn toColumn]).

(** The body of [while ((match = regex.exec(sql)) !== null)]; the two loops
    of the method have the same body.  [combine] pairs the columns up to
    [Math.min(fromCols.length, toCols.length)]. *)
Definition applyAlterMatch (st : list Table.t * list Relationship.t) (m : result)
    : list Table.t * list Relationship.t :=
  let tableName := captured m 1 in
  let fromCols := splitNames (captured m 2) in
  let refTable := captured m 3 in
  let toCols := splitNames (captured m 4) in
  match findIndex (sameTable tableName) (fst st) with
  | None => st
  | Some pos =>
      match fst st !! pos with
      | Some table =>
          fold_left (addAlterForeignKey pos (Table.name table) refTable)
            (combine fromCols toCols) st
      | None => st
      end
  end.

Definition alterPass (regex : regex) (sql : string)
    (st : list Table.t * list Relationship.t) : list Table.t * list Relationship.t :=
  fold_left applyAlterMatch (exec_all regex sql) st.

Definition parseAlterTableForeignKeys (sql : string) (tables : list Table.t)
    (relationships : list Relationship.t) : list Table.t * list Relationship.t :=
  alterPass alterFkRegex2 sql (alterPass alterFkRegex sql (tables, relationships)).

(** *** [fallbackRegexParsing] and [parseSQL] *)

(** The body of the loop over the CREATE TABLE statements. *)
Definition addTable (st : list Table.t * list Relationship.t) (m : result)
    : list Table.t * list Relationship.t :=
  let tableName := captured m 1 in
  let tableDefinition := captured m 2 in
  match parseTableDefinitionRegex tableName tableDefinition with
  | Some table =>
      (fst st ++ [table], extractRelationshipsRegex table (snd st) tableDefinition)
  | None => st
  end.

Definition fallbackRegexParsing (sql : string) : Schema.t :=
  let indexes := extractIndexes sql in
  let '(tables, relationships) :=
    fold_left addTable (exec_all createTableRegex sql) ([], []) in
  let '(tables, relationships) := parseAlterTableForeignKeys sql tables relationships in
  let tables := associateIndexesWithTables tables indexes in
  Schema.Build tables relationships.

(** The [try] block computes the indexes and the preprocessed text, drops
    both and throws; the [catch] block returns what the regex parsing
    gives. *)
Definition parseSQL (sql : string) : completion Schema.t :=
  try_catch
    (let indexes := extractIndexes sql in
     let preprocessedSQL := preprocessPostgreSQL sql in
     Throw "Forcing regex parsing for PostgreSQL schema")
    (fun error => Return (fallbackRegexParsing sql)).

End SQLParser.

(** ** JavaScript numbers *)

(** The operations the layout code applies to numbers.  [ofNat] reads an
    array index or length as a number, [literal] a decimal literal of the
    source, [nlt x y] is [x < y]. *)
Class Number (N : Type) : Type :=
  { ofNat : nat -> N;
    literal : Q -> N;
    nadd : N -> N -> N;
    nsub : N -> N -> N;
    nmul : N -> N -> N;
    ndiv : N -> N -> N;
    nabs : N -> N;
    nlt : N -> N -> bool }.

(** [Math.sqrt] *)
Class Sqrt (N : Type) : Type := sqrt : N -> N.

Declare Scope number_scope.
Delimit Scope number_scope with number.
Infix "+" := nadd : number_scope.
Infix "-" := nsub : number_scope.
Infix "*" := nmul : number_scope.
Infix "/" := ndiv : number_scope.

Definition floatOfZ (z : Z) : float :=
  match z with
  | Z0 => PrimFloat.of_uint63 (Uint63.of_Z 0)
  | Zpos p => PrimFloat.of_uint63 (Uint63.of_Z (Zpos p))
  | Zneg p => PrimFloat.opp (PrimFloat.of_uint63 (Uint63.of_Z (Zpos p)))
  end.

(** The numbers of the running program: IEEE 754 binary64.  A literal
    [n/d] with [n] and [d] below 2^53 is the correctly rounded quotient,
    which is the double the literal denotes. *)
#[export] Instance floatNumber : Number float :=
  { ofNat n := floatOfZ (Z.of_nat n);
    literal q := PrimFloat.div (floatOfZ (Qnum q)) (floatOfZ (Zpos (Qden q)));
    nadd := PrimFloat.add;
    nsub := PrimFloat.sub;
    nmul := PrimFloat.mul;
    ndiv := PrimFloat.div;
    nabs := PrimFloat.abs;
    nlt := PrimFloat.ltb }.

#[export] Instance floatSqrt : Sqrt float := PrimFloat.sqrt.

(** The same expressions read in exact arithmetic. *)
#[export] Instance exactNumber : Number Q :=
  { ofNat n := inject_Z (Z.of_nat n);
    literal q := q;
    nadd := Qplus;
    nsub := Qminus;
    nmul := Qmult;
    ndiv := Qdiv;
    nabs := Qabs.Qabs;
    nlt x y := match Qlt_le_dec x y with left _ => true | right _ => false end }.

(** ** The layout engine ([LayoutEngine]) *)

Module LayoutEngine.

Section Engine.
Context {N : Type} `{Number N}.
Local Open Scope number_scope.

Record LayoutPosition : Type := Position { x : N; y : N }.

Record LayoutConfig : Type := Config { spacing : N; padding : N }.

(** The fields of the engine, [this.schema] and [this.config], and the
    width of the window, [window.innerWidth]. *)
Variable schema : Schema.t.
Variable config : LayoutConfig.
Variable innerWidth : N.

(** *** [hierarchicalLayout] *)

(** [dependencies], after the two loops that fill it.  ([dependents] is
    filled alongside and never read.) *)
Definition dependencies (tables : list Table.t) : gmap string (gset string) :=
  let initial :=
    fold_left (fun deps table => <[Table.name table := ∅]> deps) tables ∅ in
  fold_left
    (fun deps rel =>
       match deps !! Relationship.from rel with
       | Some set => <[Relationship.from rel := set ∪ {[Relationship.to rel]}]> deps
       | None => deps
       end)
    (Schema.relationships schema) initial.

(** [processedTables.has(name)] *)
Definition has (processedTables : gset string) (name : string) : bool :=
  bool_decide (name ∈ processedTables).

(** [dependencies.get(table.name)?.size === 0] *)
Definition isRoot (deps : gmap string (gset string)) (table : Table.t) : bool :=
  match deps !! Table.name table with
  | Some set => (size set =? 0)%nat
  | None => false
  end.

(** [deps && Array.from(deps).every(dep => processedTables.has(dep))] *)
Definition isReady (deps : gmap string (gset string)) (processedTables : gset string)
    (table : Table.t) : bool :=
  match deps !! Table.name table with
  | Some set => forallb (has processedTables) (elements set)
  | None => false
  end.

(** The loop [while (processedTables.size < tables.length)].  A round that
    adds no new name leaves the test as it was: the loop then never ends,
    which is [None] here, whatever [fuel] is given. *)
Fixpoint buildLevels (fuel : nat) (tables : list Table.t)
    (deps : gmap string (gset string)) (processedTables : gset string)
    (levels : list (list string)) : option (list (list string)) :=
  if (size processedTables <? length tables)%nat then
    match fuel with
    | O => None
    | S fuel' =>
        let nextLevel :=
          map Table.name
            (filter (fun table => negb (has processedTables (Table.name table))
                                  && isReady deps processedTables table) tables) in
        let nextLevel :=
          match nextLevel with
          | [] =>
              map Table.name
                (filter (fun table => negb (has processedTables (Table.name table)))
                   tables)
          | _ => nextLevel
          end in
        buildLevels fuel' tables deps (processedTables ∪ list_to_set nextLevel)
          (levels ++ [nextLevel])
    end
  else Some levels.

(** [l.forEach((x, i) => ...)] visits the pairs [(i, x)]. *)
Definition indexed {A : Type} (l : list A) : list (nat * A) :=
  combine (seq 0 (length l)) l.

(** The body of [levels.forEach((level, levelIndex) => ...)]. *)
Definition placeLevel (positions : gmap string LayoutPosition)
    (entry : nat * list string) : gmap string LayoutPosition :=
  let '(levelIndex, level) := entry in
  let levelSpacing := spacing config * literal (12 # 10) in
  let y := ofNat levelIndex * levelSpacing + padding config in
  fold_left
    (fun positions '(tableIndex, tableName) =>
       let tablesInLevel := ofNat (length level) in
       let totalWidth := (tablesInLevel - literal 1) * spacing config in
       let startX := padding config - totalWidth / literal 2 in
       <[tableName :=
           Position (startX + ofNat tableIndex * spacing config + innerWidth / literal 2) y]>
         positions)
    (indexed level) positions.

Definition hierarchicalLayout (fuel : nat) (tables : list Table.t)
    : option (gmap string LayoutPosition) :=
  let deps := dependencies tables in
  let rootTables := filter (isRoot deps) tables in
  let '(processedTables, levels) :=
    match rootTables with
    | [] => (∅, [])
    | _ => (list_to_set (map Table.name rootTables), [map Table.name rootTables])
    end in
  match buildLevels fuel tables deps processedTables levels with
  | Some levels => Some (fold_left placeLevel (indexed levels) ∅)
  | None => None
  end.

(** *** [resolveOverlaps] *)

Context `{Sqrt N}.

(** The body of the inner [tables.forEach(table2 => ...)].  The position
    objects are mutated in place; every name of the map is taken to have
    a position object of its own.  A name without a position makes
    [pos1.x] throw a TypeError, which is [None]. *)
Definition separate (name1 : string)
    (st : option (gmap string LayoutPosition * bool)) (name2 : string)
    : option (gmap string LayoutPosition * bool) :=
  match st with
  | None => None
  | Some (positions, hasOverlaps) =>
      if String.eqb name1 name2 then st
      else
        match positions !! name1, positions !! name2 with
        | Some pos1, Some pos2 =>
            let minDistance := spacing config * literal (7 # 10) in
            let dx := x pos1 - x pos2 in
            let dy := y pos1 - y pos2 in
            let distance := sqrt (dx * dx + dy * dy) in
            if nlt distance minDistance then
              let moveDistance := (minDistance - distance) / literal 2 + literal 10 in
              let moveX := (dx / distance) * moveDistance in
              let moveY := (dy / distance) * moveDistance in
              Some (<[name2 := Position (x pos2 - moveX) (y pos2 - moveY)]>
                      (<[name1 := Position (x pos1 + moveX) (y pos1 + moveY)]> positions),
                    true)
            else st
        | _, _ => None
        end
  end.

(** One round of the [for] loop: the two nested [forEach]. *)
Definition round (tables : list Table.t) (positions : gmap string LayoutPosition)
    : option (gmap string LayoutPosition * bool) :=
  fold_left
    (fun st table1 =>
       fold_left (fun st table2 => separate (Table.name table1) st (Table.name table2))
         tables st)
    tables (Some (positions, false)).

(** [for (let iteration = 0; iteration < 50; iteration++)] with its
    [break]: [rounds] is what is left of the 50.  The flag tells whether
    the loop was left by the [break], that is before the cap. *)
Fixpoint resolveLoop (rounds : nat) (tables : list Table.t)
    (positions : gmap string LayoutPosition)
    : option (gmap string LayoutPosition * bool) :=
  match rounds with
  | O => Some (positions, false)
  | S rounds' =>
      match round tables positions with
      | None => None
      | Some (positions', hasOverlaps) =>
          if hasOverlaps then resolveLoop rounds' tables positions'
          else Some (positions', true)
      end
  end.

Definition resolveOverlaps (tables : list Table.t)
    (currentPositions : gmap string LayoutPosition)
    : option (gmap string LayoutPosition) :=
  fst <$> resolveLoop 50 tables currentPositions.

(** The centre-to-centre distance of two positions. *)
Definition distance (pos1 pos2 : LayoutPosition) : N :=
  let dx := x pos1 - x pos2 in
  let dy := y pos1 - y pos2 in
  sqrt (dx * dx + dy * dy).

End Engine.

Arguments LayoutPosition N : clear implicits.
Arguments LayoutConfig N : clear implicits.

End LayoutEngine.

(** ** The edge router ([utils/edgeRouting.ts]) *)

Module EdgeRouting.

Section Router.
Context {N : Type} `{Number N}.
Local Open Scope number_scope.

(** The fields of a [Node] the router reads. *)
Record Node : Type := { id : string; position : option (LayoutEngine.LayoutPosition N) }.

Record ConnectionPoint : Type := Connection { sourceHandle : string; targetHandle : string }.

Definition calculateOptimalConnection (sourceNode targetNode : Node) : ConnectionPoint :=
  match position sourceNode, position targetNode with
  | Some sourcePos, Some targetPos =>
      let nodeWidth := literal 300 in
      let nodeHeight := literal 200 in
      let sourceCenterX := LayoutEngine.x sourcePos + nodeWidth / literal 2 in
      let sourceCenterY := LayoutEngine.y sourcePos + nodeHeight / literal 2 in
      let targetCenterX := LayoutEngine.x targetPos + nodeWidth / literal 2 in
      let targetCenterY := LayoutEngine.y targetPos + nodeHeight / literal 2 in
      let deltaX := targetCenterX - sourceCenterX in
      let deltaY := targetCenterY - sourceCenterY in
      let absX := nabs deltaX in
      let absY := nabs deltaY in
      if nlt absY absX then
        if nlt (literal 0) deltaX then
          Connection (id sourceNode +:+ "-source-right") (id targetNode +:+ "-target-left")
        else
          Connection (id sourceNode +:+ "-source-left") (id targetNode +:+ "-target-right")
      else
        if nlt (literal 0) deltaY then
          Connection (id sourceNode +:+ "-source-bottom") (id targetNode +:+ "-target-top")
        else
          Connection (id sourceNode +:+ "-source-top") (id targetNode +:+ "-target-bottom")
  | _, _ =>
      Connection (id sourceNode +:+ "-source-bottom") (id targetNode +:+ "-target-top")
  end.

End Router.

Arguments Node N : clear implicits.

End EdgeRouting.

(** ** All the connections ([utils/edgeRouting.ts]) *)

Module EdgeRoutingAll.
Import EdgeRouting.

Section Router.
Context {N : Type} `{Number N}.

(** [new Map(nodes.map(node => [node.id, node]))]: a later node replaces an
    earlier one of the same id. *)
Definition nodeMap (nodes : list (Node N)) : gmap string (Node N) :=
  fold_left (fun nodeMap node => <[id node := node]> nodeMap) nodes ∅.

(** [`${rel.from}-${rel.to}-${index}`] *)
Definition edgeId (rel : Relationship.t) (index : nat) : string :=
  Relationship.from rel +:+ "-" +:+ Relationship.to rel +:+ "-" +:+ Js.string_of_nat index.

(** The body of [relationships.forEach((rel, index) => ...)]. *)
Definition connect (nodeMap : gmap string (Node N))
    (connections : gmap string ConnectionPoint) (entry : nat * Relationship.t)
    : gmap string ConnectionPoint :=
  let '(index, rel) := entry in
  match nodeMap !! Relationship.from rel, nodeMap !! Relationship.to rel with
  | Some sourceNode, Some targetNode =>
      <[edgeId rel index := calculateOptimalConnection sourceNode targetNode]> connections
  | _, _ => connections
  end.

Definition calculateAllOptimalConnections (nodes : list (Node N))
    (relationships : list Relationship.t) : gmap string ConnectionPoint :=
  fold_left (connect (nodeMap nodes)) (LayoutEngine.indexed relationships) ∅.

End Router.
End EdgeRoutingAll.

(** ** The schema filters ([hooks/useSchemaFilters.ts]) *)

Module SchemaFilters.

Record TableTypes : Type :=
  { coreTables : bool; junctionTables : bool; lookupTables : bool }.

Record DataTypes : Type :=
  { showNumbers : bool; showStrings : bool; showDates : bool; showBooleans : bool }.

Record FilterState : Type :=
  { showPrimaryKeys : bool;
    showForeignKeys : bool;
    showIndexes : bool;
    showRelationships : bool;
    tableTypes : TableTypes;
    dataTypes : DataTypes }.

Definition defaultFilters : FilterState :=
  {| showPrimaryKeys := true;
     showForeignKeys := true;
     showIndexes := true;
     showRelationships := true;
     tableTypes := {| coreTables := true; junctionTables := true; lookupTables := true |};
     dataTypes := {| showNumbers := true; showStrings := true; showDates := true;
                     showBooleans := true |} |}.

(** The three arrays of [categorizedTables]. *)
Record Categorized : Type := Categories
  { core : list Table.t; junction : list Table.t; lookup : list Table.t }.

Inductive Category : Type := Core | Junction | Lookup.

#[global] Instance category_eq_dec : EqDecision Category.
Proof. solve_decision. Defined.

(** [s.toLowerCase().includes(sub)] *)
Definition mentions (s sub : string) : bool := Js.includes (Js.toLowerCase s) sub.

(** The branch the body of [schema.tables.forEach] takes for a table. *)
Definition categoryOf (table : Table.t) : Category :=
  let columnCount := length (Table.columns table) in
  let foreignKeyCount := length (List.filter Column.isForeign (Table.columns table)) in
  let hasMultipleForeignKeys := (2 <=? foreignKeyCount)%nat in
  let hasOnlyIdAndName :=
    (columnCount <=? 3)%nat
    && existsb (fun col => mentions (Column.name col) "id") (Table.columns table)
    && existsb (fun col => mentions (Column.name col) "name") (Table.columns table) in
  if hasMultipleForeignKeys && (columnCount <=? 5)%nat then Junction
  else if hasOnlyIdAndName
          || mentions (Table.name table) "type"
          || mentions (Table.name table) "status"
          || mentions (Table.name table) "category"
          || mentions (Table.name table) "lookup" then Lookup
  else Core.

Definition pushTable (categories : Categorized) (table : Table.t) : Categorized :=
  match categoryOf table with
  | Junction => Categories (core categories) (junction categories ++ [table])
                  (lookup categories)
  | Lookup => Categories (core categories) (junction categories)
                (lookup categories ++ [table])
  | Core => Categories (core categories ++ [table]) (junction categories)
              (lookup categories)
  end.

Definition categorizedTables (schema : Schema.t) : Categorized :=
  fold_left pushTable (Schema.tables schema) (Categories [] [] []).

#[global] Instance column_eq_dec : EqDecision Column.t.
Proof. solve_decision. Defined.

#[global] Instance foreignKey_eq_dec : EqDecision ForeignKey.t.
Proof. solve_decision. Defined.

#[global] Instance index_eq_dec : EqDecision Index.t.
Proof. solve_decision. Defined.

#[global] Instance table_eq_dec : EqDecision Table.t.
Proof. solve_decision. Defined.

(** [l.includes(table)].  The arrays hold the table objects of
    [schema.tables], and the array a table is pushed to depends on its
    fields only, so being one of the objects of an array and being equal
    to one of them are the same for a table of the schema. *)
Definition includesTable (l : list Table.t) (table : Table.t) : bool :=
  bool_decide (table ∈ l).

(** The callback of the filter by table types. *)
Definition typeVisible (filters : FilterState) (categories : Categorized)
    (table : Table.t) : bool :=
  if includesTable (core categories) table then coreTables (tableTypes filters)
  else if includesTable (junction categories) table then junctionTables (tableTypes filters)
  else if includesTable (lookup categories) table then lookupTables (tableTypes filters)
  else true.

(** The callback of the filter by data types. *)
Definition dataTypeVisible (filters : FilterState) (column : Column.t) : bool :=
  let type := Js.toLowerCase (Column.type column) in
  if Js.includes type "int" || Js.includes type "number" || Js.includes type "decimal"
     || Js.includes type "float" then showNumbers (dataTypes filters)
  else if Js.includes type "varchar" || Js.includes type "text" || Js.includes type "char"
  then showStrings (dataTypes filters)
  else if Js.includes type "timestamp" || Js.includes type "date" || Js.includes type "time"
  then showDates (dataTypes filters)
  else if Js.includes type "boolean" || Js.includes type "bool"
  then showBooleans (dataTypes filters)
  else true.

(** The callback of the filter by key types. *)
Definition keyVisible (filters : FilterState) (column : Column.t) : bool :=
  if Column.isPrimary column && negb (showPrimaryKeys filters) then false
  else if Column.isForeign column && negb (showForeignKeys filters) then false
  else true.

(** [{...table, columns: table.columns.filter(p)}] *)
Definition withColumns (p : Column.t -> bool) (table : Table.t) : Table.t :=
  Table.Build (Table.name table) (List.filter p (Table.columns table))
    (Table.primaryKeys table) (Table.foreignKeys table) (Table.indexes table).

Definition filteredTables (schema : Schema.t) (filters : FilterState) : list Table.t :=
  let categories := categorizedTables schema in
  let tables := Schema.tables schema in
  let tables :=
    if negb (coreTables (tableTypes filters)) || negb (junctionTables (tableTypes filters))
       || negb (lookupTables (tableTypes filters))
    then List.filter (typeVisible filters categories) tables
    else tables in
  let tables :=
    if negb (showNumbers (dataTypes filters)) || negb (showStrings (dataTypes filters))
       || negb (showDates (dataTypes filters)) || negb (showBooleans (dataTypes filters))
    then List.filter (fun table => (0 <? length (Table.columns table))%nat)
           (map (withColumns (dataTypeVisible filters)) tables)
    else tables in
  let tables :=
    if negb (showPrimaryKeys filters) || negb (showForeignKeys filters)
    then map (withColumns (keyVisible filters)) tables
    else tables in
  tables.

Definition filteredRelationships (schema : Schema.t) (filters : FilterState)
    : list Relationship.t :=
  if negb (showRelationships filters) then [] else Schema.relationships schema.

Definition filteredSchema (schema : Schema.t) (filters : FilterState) : Schema.t :=
  Schema.Build (filteredTables schema filters) (filteredRelationships schema filters).

(** One line of [filterStats]. *)
Record Stats : Type := { total : Z; visible : Z; hidden : Z }.

Definition stats (totalCount visibleCount : nat) : Stats :=
  {| total := Z.of_nat totalCount;
     visible := Z.of_nat visibleCount;
     hidden := Z.of_nat totalCount - Z.of_nat visibleCount |}.

Definition tableStats (schema : Schema.t) (filters : FilterState) : Stats :=
  stats (length (Schema.tables schema)) (length (filteredTables schema filters)).

Definition relationshipStats (schema : Schema.t) (filters : FilterState) : Stats :=
  stats (length (Schema.relationships schema))
    (length (filteredRelationships schema filters)).

End SchemaFilters.

(** ** The vocabulary of the properties *)

Module ParserSpec.
Import Regex SQLParser.

(** The two arrays the loops of [fallbackRegexParsing] fill. *)
Definition state : Type := (list Table.t * list Relationship.t)%type.

(** The state the ALTER TABLE passes leave, before the indexes are
    attached. *)
Definition parsed (sql : string) : state :=
  let '(tables, relationships) :=
    fold_left addTable (exec_all createTableRegex sql) ([], []) in
  parseAlterTableForeignKeys sql tables relationships.

(** [from], [to], [fromColumn] and [toColumn] of a relationship, and the
    same four of a foreign key of the table [owner]. *)
Definition relQuad (r : Relationship.t) : string * string * string * string :=
  (Relationship.from r, Relationship.to r, Relationship.fromColumn r, Relationship.toColumn r).

Definition fkQuad (owner : string) (fk : ForeignKey.t) : string * string * string * string :=
  (owner, ForeignKey.referencedTable fk, ForeignKey.column fk, ForeignKey.referencedColumn fk).

Definition tableQuads (t : Table.t) : list (string * string * string * string) :=
  map (fkQuad (Table.name t)) (Table.foreignKeys t).

Definition schemaQuads (tables : list Table.t) : list (string * string * string * string) :=
  concat (map tableQuads tables).

Definition corresponds (st : state) : Prop :=
  map relQuad (snd st) ≡ₚ schemaQuads (fst st).

(** The relationships that match a foreign key of the table [owner]. *)
Definition matchingRelationships (schema : Schema.t) (owner : string) (fk : ForeignKey.t)
    : list Relationship.t :=
  filter (fun r => relQuad r = fkQuad owner fk) (Schema.relationships schema).

(** Every foreign key entry has exactly one matching relationship. *)
Definition exactlyOneRelationship (schema : Schema.t) : Prop :=
  forall table fk,
    In table (Schema.tables schema) -> In fk (Table.foreignKeys table) ->
    length (matchingRelationships schema (Table.name table) fk) = 1.

(** The id of the relationship at position [i]. *)
Definition idAt (from to : string) (i : nat) : string :=
  from +:+ "-" +:+ to +:+ "-" +:+ Js.string_of_nat i.

Definition wellNumbered (rels : list Relationship.t) : Prop :=
  forall i r, rels !! i = Some r ->
    Relationship.id r = idAt (Relationship.from r) (Relationship.to r) i.

(** The indexes the statements [entries] give the table at position [k]. *)
Definition indexesFor (tables : list Table.t) (k : nat) (entries : list indexEntry)
    : list Index.t :=
  map index
    (filter (fun e => findIndex (sameTable (tableName e)) tables = Some k) entries).

(** [st'] has the tables of [st], with the same names and possibly more
    foreign keys at the end, and the relationships of [st] followed by
    more. *)
Definition extends (st st' : state) : Prop :=
  map Table.name (fst st') = map Table.name (fst st) /\
  snd st `prefix_of` snd st' /\
  forall pos t, fst st !! pos = Some t ->
    exists t', fst st' !! pos = Some t' /\
               Table.foreignKeys t `prefix_of` Table.foreignKeys t'.

(** The foreign key [fk] and its relationship are registered for the table
    at position [pos], at positions no less than [lowFk] and [lowRel]. *)
Definition registered (pos : nat) (fk : ForeignKey.t) (lowFk lowRel : nat) (st : state)
    : Prop :=
  exists t i n,
    fst st !! pos = Some t /\
    (lowFk <= i)%nat /\ Table.foreignKeys t !! i = Some fk /\
    (lowRel <= n)%nat /\
    snd st !! n =
      Some (Relationship.Build
              (idAt (Table.name t) (ForeignKey.referencedTable fk) n)
              (Table.name t) (ForeignKey.referencedTable fk)
              (ForeignKey.column fk) (ForeignKey.referencedColumn fk)).




(** The table [parseTableDefinitionRegex] builds for a CREATE TABLE match. *)
Definition tableOf (m : result) (table : Table.t) : Prop :=
  parseTableDefinitionRegex (captured m 1) (captured m 2) = Some table.


(** The patterns the parser runs in a [while ((match = regex.exec(sql)) !== null)]
    loop: such a loop goes on as long as its matches are not empty. *)
Definition loopPatterns : list regex :=
  [createTableRegex; indexRegex; alterFkRegex; alterFkRegex2].

(** Pattern 1 with its optional group taken: what it matches on a statement
    that names its constraint. *)
Definition alterFkNamedRegex : regex :=
  seq (alterTableHead ++ [constraintName] ++ alterForeignKeyTail).

(** An identifier: a non-empty string of word characters. *)
Fixpoint every (p : ascii -> bool) (s : string) : bool :=
  match s with
  | EmptyString => true
  | String a s' => p a && every p s'
  end.




(** The first character of a string, if any, is outside a class. *)
Definition headFails (p : ascii -> bool) (s : string) : bool :=
  match s with
  | EmptyString => true
  | String a _ => negb (p a)
  end.



(** *** Sample inputs *)

Definition alterOnlyInput : string :=
  "ALTER TABLE order_items ADD FOREIGN KEY (order_id) REFERENCES orders(id); CREATE INDEX i ON orders (id);".

Definition inlineReferenceInput : string :=
  "CREATE TABLE orders (id INTEGER PRIMARY KEY, user_id INTEGER REFERENCES users(id));".

Definition declaredTwiceInput : string :=
  "CREATE TABLE orders (id INTEGER PRIMARY KEY, user_id INTEGER REFERENCES users(id)); ALTER TABLE orders ADD CONSTRAINT fk_user FOREIGN KEY (user_id) REFERENCES users(id);".

Definition alterInput : string :=
  "CREATE TABLE orders (id INTEGER PRIMARY KEY); CREATE TABLE order_items (id INTEGER PRIMARY KEY, order_id INTEGER); ALTER TABLE order_items ADD FOREIGN KEY (order_id) REFERENCES orders(id);".

Definition alterStatement : result :=
  Result 115 "ALTER TABLE order_items ADD FOREIGN KEY (order_id) REFERENCES orders(id)"
    [(4, "id"); (3, "orders"); (2, "order_id"); (1, "order_items")].





End ParserSpec.

Module LayoutSpec.
Import LayoutEngine EdgeRouting.
Local Open Scope number_scope.

Section Vocabulary.
Context {N : Type} `{Number N}.

(** The y-coordinate [hierarchicalLayout] gives the level [levelIndex]. *)
Definition levelY (config : LayoutConfig N) (levelIndex : nat) : N :=
  ofNat levelIndex * (spacing config * literal (12 # 10)) + padding config.

(** The centre of a node of the assumed size 300 x 200. *)
Definition centerX (pos : LayoutPosition N) : N := x pos + literal 300 / literal 2.
Definition centerY (pos : LayoutPosition N) : N := y pos + literal 200 / literal 2.

(** The handles [`${source.id}-source-${s}`] and [`${target.id}-target-${t}`]. *)
Definition handles (source target : Node N) (s t : string) : ConnectionPoint :=
  Connection (id source +:+ "-source-" +:+ s) (id target +:+ "-target-" +:+ t).

(** Two tables with positions for which the test [distance < minDistance]
    of [resolveOverlaps] is false. *)
Definition apart `{Sqrt N} (config : LayoutConfig N)
    (positions : gmap string (LayoutPosition N)) (name1 name2 : string) : Prop :=
  exists pos1 pos2,
    positions !! name1 = Some pos1 /\ positions !! name2 = Some pos2 /\
    nlt (distance pos1 pos2) (spacing config * literal (7 # 10)) = false.
End Vocabulary.

(** *** Sample inputs *)

Definition plainTable (name : string) : Table.t := Table.Build name [] [] [] [].

(** Two tables [a] and [b] and the relationship a -> b. *)
Definition twoTables : list Table.t := [plainTable "a"; plainTable "b"].

Definition twoTableSchema : Schema.t :=
  Schema.Build twoTables [Relationship.Build "a-b-0" "a" "b" "b_id" "id"].

(** The configuration of the application: spacing 450, padding 100. *)
Definition defaultConfig {N : Type} `{Number N} : LayoutConfig N :=
  Config (literal 450) (literal 100).

(** Two tables at the same place. *)
Definition stacked : gmap string (LayoutPosition float) :=
  <["a" := Position (literal 0) (literal 0)]>
    (<["b" := Position (literal 0) (literal 0)]> ∅).

Definition nodeAt (name : string) (x y : float) : Node float :=
  {| id := name; position := Some (Position x y) |}.

End LayoutSpec.

(** *** The vocabulary of the further properties of the parser *)

Module SchemaSpec.
Import Regex SQLParser ParserSpec.

(** The text after the last hyphen of an id. *)
Definition lastField (id : string) : string :=
  List.last (Js.split "-" id) EmptyString.

(** [isPrimary] tells whether the name of the column is a primary key of
    the table. *)
Definition primaryFlagged (table : Table.t) : Prop :=
  forall column, In column (Table.columns table) ->
    Column.isPrimary column = includesName (Table.primaryKeys table) (Column.name column).

(** A column flagged [isForeign] is the column, up to case, of a foreign
    key of the table. *)
Definition foreignFlagged (table : Table.t) : Prop :=
  forall column, In column (Table.columns table) ->
    Column.isForeign column = true ->
    exists fk, In fk (Table.foreignKeys table) /\
      Js.toLowerCase (ForeignKey.column fk) = Js.toLowerCase (Column.name column).

(** What the loop over the clauses keeps: a column flagged primary or
    foreign has its name among the primary keys, or is the column of a
    foreign key. *)
Definition flagged (st : clauses) : Prop :=
  forall column, In column (columns st) ->
    (Column.isPrimary column = true ->
       includesName (primaryKeys st) (Column.name column) = true) /\
    (Column.isForeign column = true ->
       someForeignKey (foreignKeys st) (Column.name column) = true).

(** A character that is no comma and no parenthesis, and one that is no
    parenthesis. *)
Definition plainChar (c : ascii) : bool :=
  negb (Ascii.eqb c "(") && negb (Ascii.eqb c ")") && negb (Ascii.eqb c ",").

Definition notParenthesis (c : ascii) : bool :=
  negb (Ascii.eqb c "(") && negb (Ascii.eqb c ")").

(** The head of the CREATE TABLE pattern: all but its final [\);]. *)
Definition createTableHead : list regex :=
  [liti "CREATE"; plus space; liti "TABLE"; plus space; ifNotExists; publicPrefix;
   Group 1 (plus word); star space; chr "("; Group 2 (lazy_star any)].

(** No character of the string is a quote, a double quote or a backquote. *)
Definition unquoted (s : string) : bool :=
  every (fun c => negb (mem c quoteChars)) s.

(** The name, the type, the nullability and the primary key flag of a
    column: all of it but [isForeign]. *)
Definition columnView (c : Column.t) : string * string * bool * bool :=
  (Column.name c, Column.type c, Column.nullable c, Column.isPrimary c).

(** [final] is [table] but for foreign keys added at the end, columns
    flagged [isForeign], and its indexes. *)
Definition completes (table final : Table.t) : Prop :=
  Table.name final = Table.name table /\
  Table.primaryKeys final = Table.primaryKeys table /\
  map columnView (Table.columns final) = map columnView (Table.columns table) /\
  Table.foreignKeys table `prefix_of` Table.foreignKeys final.

Definition completesAll (tables tables' : list Table.t) : Prop :=
  forall pos t, tables !! pos = Some t ->
    exists t', tables' !! pos = Some t' /\ completes t t'.

(** *** Sample inputs *)

Definition typedColumns : string := "id INT, price DECIMAL(10,2) ".

End SchemaSpec.

(** *** The vocabulary of the further properties of the layout *)

Module HierarchySpec.
Import LayoutEngine.

(** The names of the tables, as a set. *)
Definition nameSet (tables : list Table.t) : gset string :=
  list_to_set (map Table.name tables).

(** The level a round of the loop of [hierarchicalLayout] adds. *)
Definition nextLevel (tables : list Table.t) (deps : gmap string (gset string))
    (processedTables : gset string) : list string :=
  let ready :=
    map Table.name
      (filter (fun table => negb (has processedTables (Table.name table))
                            && isReady deps processedTables table) tables) in
  match ready with
  | [] =>
      map Table.name
        (filter (fun table => negb (has processedTables (Table.name table))) tables)
  | _ => ready
  end.

(** [name] depends on [d]: some relationship goes from [name] to [d]. *)
Definition dependsOn (schema : Schema.t) (name d : string) : Prop :=
  exists rel, rel ∈ Schema.relationships schema /\
    Relationship.from rel = name /\ Relationship.to rel = d.

(** A ranking of the table names that every relationship of a table
    descends, towards a table: the relationships among the tables have no
    cycle and leave the tables nowhere. *)
Definition ranked (schema : Schema.t) (tables : list Table.t) (rank : string -> nat) : bool :=
  forallb
    (fun rel =>
       if bool_decide (Relationship.from rel ∈ map Table.name tables)
       then bool_decide (Relationship.to rel ∈ map Table.name tables)
            && (rank (Relationship.to rel) <? rank (Relationship.from rel))%nat
       else true)
    (Schema.relationships schema).

(** Every name of a level has its dependencies on earlier levels. *)
Definition ordered (schema : Schema.t) (levels : list (list string)) : Prop :=
  forall i level name d,
    levels !! i = Some level -> name ∈ level -> dependsOn schema name d ->
    exists j level', (j < i)%nat /\ levels !! j = Some level' /\ d ∈ level'.

(** A state of [resolveOverlaps] in which [name] has no position: an
    exception, or a map without that key. *)
Definition lacks {N : Type} (name : string)
    (st : option (gmap string (LayoutPosition N) * bool)) : Prop :=
  match st with
  | None => True
  | Some (positions, _) => positions !! name = None
  end.

(** Two maps of positions with the same keys, and the same entries at the
    names that are not in [names]. *)
Definition sameKeysBut {N : Type} (names : list string)
    (positions positions' : gmap string (LayoutPosition N)) : Prop :=
  (forall name, is_Some (positions' !! name) <-> is_Some (positions !! name)) /\
  (forall name, ~ In name names -> positions' !! name = positions !! name).

(** *** Sample inputs *)

(** Two tables of the same name. *)
Definition sameNameTables : list Table.t :=
  [Table.Build "a" [] [] [] []; Table.Build "a" [] [] [] []].

(** A ranking for the schema of two tables with the relationship a -> b. *)
Definition sampleRank (name : string) : nat := if String.eqb name "a" then 1 else 0.

(** Two tables far apart, two tables closer than the minimum distance,
    and a map without a position for [a]. *)
Definition separated : gmap string (LayoutPosition float) :=
  <["a" := Position 0%float 0%float]> (<["b" := Position 1000%float 0%float]> ∅).

Definition crowded : gmap string (LayoutPosition float) :=
  <["a" := Position 0%float 0%float]> (<["b" := Position 100%float 0%float]> ∅).

Definition withoutA : gmap string (LayoutPosition float) :=
  <["b" := Position 0%float 0%float]> ∅.

End HierarchySpec.

(** *** The vocabulary of the properties of the connections and the filters *)

Module ConnectionSpec.
Import EdgeRouting EdgeRoutingAll.

(** What the connection of a relationship is: the one of its two nodes, or
    none when a node is missing. *)
Definition connectionOf {N : Type} `{Number N} (nodes : gmap string (Node N))
    (rel : Relationship.t) : option ConnectionPoint :=
  match nodes !! Relationship.from rel, nodes !! Relationship.to rel with
  | Some sourceNode, Some targetNode =>
      Some (calculateOptimalConnection sourceNode targetNode)
  | _, _ => None
  end.

End ConnectionSpec.

Module FilterSpec.
Import SchemaFilters.

(** [table] is [original] with some of its columns left out. *)
Definition restricts (original table : Table.t) : Prop :=
  Table.name table = Table.name original /\
  Table.primaryKeys table = Table.primaryKeys original /\
  Table.foreignKeys table = Table.foreignKeys original /\
  Table.indexes table = Table.indexes original /\
  Table.columns table `sublist_of` Table.columns original.

(** The switch of a category of tables. *)
Definition categoryVisible (filters : FilterState) (category : Category) : bool :=
  match category with
  | Core => coreTables (tableTypes filters)
  | Junction => junctionTables (tableTypes filters)
  | Lookup => lookupTables (tableTypes filters)
  end.

(** A stage of [filteredTables]: a step that is applied or not. *)
Definition stage (applied : bool) (step : list Table.t -> list Table.t)
    (tables : list Table.t) : list Table.t :=
  if applied then step tables else tables.

(** *** Sample inputs *)

Definition usersTable : Table.t :=
  Table.Build "users"
    [Column.Build "id" "INT" false true false;
     Column.Build "email" "VARCHAR(100)" true false false]
    ["id"] [] [].

Definition sampleSchema : Schema.t := Schema.Build [usersTable] [].

(** The default filters with the primary keys hidden. *)
Definition withoutPrimaryKeys : FilterState :=
  {| showPrimaryKeys := false;
     showForeignKeys := true;
     showIndexes := true;
     showRelationships := true;
     tableTypes := tableTypes defaultFilters;
     dataTypes := dataTypes defaultFilters |}.

Definition usersWithoutKeys : Table.t :=
  Table.Build "users" [Column.Build "email" "VARCHAR(100)" true false false] ["id"] [] [].

End FilterSpec.

(** *** The vocabulary of the places of the hierarchical layout *)

Module SlotSpec.
Import LayoutEngine.
Local Open Scope number_scope.

(** The x-coordinate [hierarchicalLayout] gives the place [tableIndex] of a
    level of [count] tables. *)
Definition slotX {N : Type} `{Number N} (config : LayoutConfig N) (innerWidth : N)
    (count tableIndex : nat) : N :=
  (padding config - (ofNat count - literal 1) * spacing config / literal 2)
  + ofNat tableIndex * spacing config + innerWidth / literal 2.


End SlotSpec.

(** * Properties *)

(** ** Numbers *)

Module NumberFacts.

Lemma SFcompare_Eq_sym a b : SFcompare a b = Some Eq -> SFcompare b a = Some Eq.
Proof.
  destruct a as [sa|sa| |sa ma ea], b as [sb|sb| |sb mb eb]; simpl;
    try discriminate; try reflexivity;
    try (destruct sa; try discriminate; try reflexivity);
    try (destruct sb; try discriminate; try reflexivity).
  all: destruct (Z.compare_spec ea eb) as [->| |]; try discriminate.
  all: rewrite ?Z.compare_refl.
  all: intros Hm; injection Hm as Hm.
  all: destruct (Pos.compare_cont Eq ma mb) eqn:E; try discriminate.
  all: apply Pos.compare_eq in E; subst; rewrite Pos.compare_cont_refl; reflexivity.
Qed.

(** IEEE equality excludes the strict order. *)
Lemma float_eqb_not_ltb (x y : float) :
  PrimFloat.eqb x y = true -> PrimFloat.ltb y x = false.
Proof.
  rewrite FloatAxioms.eqb_spec, FloatAxioms.ltb_spec. unfold SFeqb, SFltb.
  destruct (SFcompare (Prim2SF x) (Prim2SF y)) as [[]|] eqn:E; try discriminate.
  intros _. rewrite (SFcompare_Eq_sym _ _ E). reflexivity.
Qed.

End NumberFacts.

(** ** The regular expression matcher *)

Module RegexFacts.
Import Regex.

(** The rounds of a star, unfolded once. *)
Lemma star_loop_S greedy step k n c cs :
  star_loop greedy step k (S n) c cs =
  let again c' cs' :=
    if (remaining c' <? remaining c)%nat then star_loop greedy step k n c' cs' else None in
  if greedy then
    match step again c cs with
    | Some res => Some res
    | None => k c cs
    end
  else
    match k c cs with
    | Some res => Some res
    | None => step again c cs
    end.
Proof. reflexivity. Qed.

(** The matcher reads its continuation pointwise. *)
Lemma rmatch_ext (r : regex) : forall k1 k2 c cs,
  (forall c cs, k1 c cs = k2 c cs) -> rmatch r k1 c cs = rmatch r k2 c cs.
Proof.
  induction r as [|p|r1 IH1 r2 IH2|r1 IH1 r2 IH2|greedy r1 IH1|i r1 IH1| | |];
    intros k1 k2 c cs Hk; simpl.
  - apply Hk.
  - destruct (rest c) as [|a s']; [reflexivity|]. destruct (p a); [apply Hk|reflexivity].
  - apply IH1. intros c' cs'. apply IH2, Hk.
  - rewrite (IH1 k1 k2 c cs Hk), (IH2 k1 k2 c cs Hk). reflexivity.
  - generalize (S (remaining c)) as n. intros n. revert c cs.
    induction n as [|n IHn]; intros c cs; [apply Hk|].
    rewrite !star_loop_S. cbv zeta.
    rewrite (IH1 _ (fun c' cs' =>
               if (remaining c' <? remaining c)%nat
               then star_loop greedy (rmatch r1) k2 n c' cs' else None) c cs).
    + rewrite Hk. reflexivity.
    + intros c' cs'. destruct (remaining c' <? remaining c)%nat; [apply IHn|reflexivity].
  - apply IH1. intros c' cs'. apply Hk.
  - destruct (before c); [reflexivity|apply Hk].
  - destruct (rest c); [apply Hk|reflexivity].
  - destruct (xorb _ _); [apply Hk|reflexivity].
Qed.

Lemma rmatch_seq_app (l1 l2 : list regex) : forall k c cs,
  rmatch (seq (l1 ++ l2)) k c cs = rmatch (seq l1) (rmatch (seq l2) k) c cs.
Proof.
  induction l1 as [|r l1 IH]; intros k c cs; [reflexivity|].
  destruct l1 as [|r' l1].
  - destruct l2; reflexivity.
  - change (rmatch r (rmatch (seq ((r' :: l1) ++ l2)) k) c cs =
            rmatch r (rmatch (seq (r' :: l1)) (rmatch (seq l2) k)) c cs).
    apply rmatch_ext. intros c' cs'. apply IH.
Qed.

(** When [r] followed by [kc] fails, [r] followed by a continuation that
    tries [kc] first and [k] next does what [r] followed by [k] does. *)
Lemma rmatch_alternative (r : regex) : forall kc k k' c cs,
  (forall c cs, kc c cs = None -> k' c cs = k c cs) ->
  rmatch r kc c cs = None -> rmatch r k' c cs = rmatch r k c cs.
Proof.
  induction r as [|p|r1 IH1 r2 IH2|r1 IH1 r2 IH2|greedy r1 IH1|i r1 IH1| | |];
    intros kc k k' c cs Hk; simpl.
  - apply Hk.
  - destruct (rest c) as [|a s']; [reflexivity|]. destruct (p a); [apply Hk|reflexivity].
  - apply IH1. intros c' cs'. apply IH2, Hk.
  - destruct (rmatch r1 kc c cs) eqn:E1; [discriminate|]. intros E2.
    rewrite (IH1 kc k k' c cs Hk E1), (IH2 kc k k' c cs Hk E2). reflexivity.
  - generalize (S (remaining c)) as n. intros n. revert c cs.
    induction n as [|n IHn]; intros c cs; [apply Hk|].
    rewrite !star_loop_S. cbv zeta.
    set (again := fun (K : cursor -> captures -> outcome) c' cs' =>
                    if (remaining c' <? remaining c)%nat
                    then star_loop greedy (rmatch r1) K n c' cs' else None).
    change (rmatch r1 (again kc) c cs) with (rmatch r1 (again kc) c cs).
    fold (again kc) (again k) (again k'). intros Hnone.
    assert (Hstep : rmatch r1 (again kc) c cs = None /\ kc c cs = None).
    { destruct greedy.
      - destruct (rmatch r1 (again kc) c cs); [discriminate|]. auto.
      - destruct (kc c cs); [discriminate|]. auto. }
    destruct Hstep as [Hstep Hkc].
    rewrite (IH1 (again kc) (again k) (again k') c cs); [| |exact Hstep].
    + rewrite (Hk _ _ Hkc). reflexivity.
    + intros c' cs'. unfold again.
      destruct (remaining c' <? remaining c)%nat; [apply IHn|reflexivity].
  - apply IH1. intros c' cs'. apply Hk.
  - destruct (before c); [reflexivity|apply Hk].
  - destruct (rest c); [apply Hk|reflexivity].
  - destruct (xorb _ _); [apply Hk|reflexivity].
Qed.


(** *** Every match consumes what its pattern requires *)

Lemma rmatch_consumes (r : regex) : forall k c cs res,
  rmatch r k c cs = Some res ->
  exists c' cs', k c' cs' = Some res /\ (remaining c' + min_length r <= remaining c)%nat.
Proof.
  induction r as [|p|r1 IH1 r2 IH2|r1 IH1 r2 IH2|greedy r1 IH1|i r1 IH1| | |];
    intros k c cs res; simpl.
  - intros Hk. exists c, cs. split; [exact Hk|lia].
  - unfold remaining. destruct (rest c) as [|a s']; [discriminate|].
    destruct (p a); [|discriminate]. intros Hk.
    exists (Cursor (Some a) s'), cs. split; [exact Hk|simpl; lia].
  - intros H1. apply IH1 in H1 as (c1 & cs1 & H2 & Hlen1).
    apply IH2 in H2 as (c2 & cs2 & Hk & Hlen2).
    exists c2, cs2. split; [exact Hk|lia].
  - destruct (rmatch r1 k c cs) as [res1|] eqn:E1.
    + intros [= <-]. apply IH1 in E1 as (c1 & cs1 & Hk & Hlen). exists c1, cs1.
      split; [exact Hk|lia].
    + intros E2. apply IH2 in E2 as (c2 & cs2 & Hk & Hlen). exists c2, cs2.
      split; [exact Hk|lia].
  - generalize (S (remaining c)) as n. intros n. revert c cs.
    induction n as [|n IHn]; intros c cs.
    + intros Hk. exists c, cs. split; [exact Hk|lia].
    + rewrite star_loop_S. cbv zeta. intros Hloop.
      assert (Hcases : k c cs = Some res \/
                rmatch r1 (fun c' cs' =>
                   if (remaining c' <? remaining c)%nat
                   then star_loop greedy (rmatch r1) k n c' cs' else None) c cs = Some res).
      { destruct greedy.
        - destruct (rmatch r1 _ c cs) as [res1|]; [right|left]; congruence.
        - destruct (k c cs) as [res1|]; [left|right]; congruence. }
      destruct Hcases as [Hk|Hstep].
      * exists c, cs. split; [exact Hk|lia].
      * apply IH1 in Hstep as (c1 & cs1 & Hagain & Hlen1).
        destruct (remaining c1 <? remaining c)%nat eqn:Hlt; [|discriminate].
        apply IHn in Hagain as (c2 & cs2 & Hk & Hlen2).
        exists c2, cs2. split; [exact Hk|lia].
  - intros H1. apply IH1 in H1 as (c1 & cs1 & Hk & Hlen). eauto.
  - destruct (before c); [discriminate|]. intros Hk. exists c, cs. split; [exact Hk|lia].
  - destruct (rest c) eqn:E; [|discriminate]. intros Hk. exists c, cs. split; [exact Hk|lia].
  - destruct (xorb _ _); [|discriminate]. intros Hk. exists c, cs. split; [exact Hk|lia].
Qed.

Lemma match_here_consumes r c res :
  match_here r c = Some res -> (remaining (fst res) + min_length r <= remaining c)%nat.
Proof.
  unfold match_here. intros H. apply rmatch_consumes in H as (c' & cs' & [= <-] & Hlen).
  exact Hlen.
Qed.

Lemma take_length n s : (n <= String.length s)%nat -> String.length (Js.take n s) = n.
Proof.
  revert s. induction n as [|n IH]; intros [|a s] Hn; simpl in *; try lia.
  rewrite IH by lia. reflexivity.
Qed.

(** *** The scan of a pattern with the g flag *)

Lemma cursors_positions prev s idx p c :
  In (p, c) (cursors prev s idx) -> (idx <= p)%nat.
Proof.
  revert prev idx. induction s as [|a s IH]; intros prev idx; simpl.
  - intros [[= <- _]|[]]. lia.
  - intros [[= <- _]|Hin]; [lia|]. apply IH in Hin. lia.
Qed.

Lemma scan_sound r s : forall prev idx skip m,
  In m (scan r prev s idx skip) ->
  exists c res, In (index m, c) (cursors prev s idx) /\
    match_here r c = Some res /\ m = result_at (index m) c res.
Proof.
  induction s as [|a s IH]; intros prev idx skip m.
  - destruct skip; simpl; [|intros []].
    destruct (match_here r (Cursor prev EmptyString)) as [res|] eqn:E; [|intros []].
    intros [<-|[]]. exists (Cursor prev EmptyString), res. simpl. auto.
  - destruct skip as [|skip]; simpl.
    + destruct (match_here r (Cursor prev (String a s))) as [res|] eqn:E.
      * intros [<-|Hin].
        -- exists (Cursor prev (String a s)), res. simpl. auto.
        -- apply IH in Hin as (c & res' & Hc & Hm & Heq). exists c, res'. auto.
      * intros Hin. apply IH in Hin as (c & res' & Hc & Hm & Heq). exists c, res'. auto.
    + intros Hin. apply IH in Hin as (c & res' & Hc & Hm & Heq). exists c, res'. auto.
Qed.

Lemma scan_complete r s : forall prev idx skip p c res,
  In (p, c) (cursors prev s idx) ->
  match_here r c = Some res ->
  (idx + skip <= p)%nat ->
  (forall m', In m' (scan r prev s idx skip) -> (index m' < p)%nat ->
     (index m' + String.length (matched m') <= p)%nat) ->
  In (result_at p c res) (scan r prev s idx skip).
Proof.
  induction s as [|a s IH]; intros prev idx skip p c res Hc Hm Hskip Hover.
  - simpl in Hc. destruct Hc as [[= <- <-]|[]].
    destruct skip; [|lia]. simpl. rewrite Hm. left. reflexivity.
  - simpl in Hc. destruct Hc as [[= <- <-]|Hc].
    + destruct skip; [|lia]. simpl. rewrite Hm. left. reflexivity.
    + pose proof (cursors_positions _ _ _ _ _ Hc) as Hp.
      destruct skip as [|skip]; simpl in *.
      * destruct (match_here r (Cursor prev (String a s))) as [res0|] eqn:E0.
        -- right.
           pose proof (match_here_consumes _ _ _ E0) as Hlen0.
           pose proof (Hover _ (or_introl eq_refl)) as Hfirst. simpl in Hfirst.
           unfold consumed in Hfirst.
           rewrite take_length in Hfirst by (unfold remaining; simpl; lia).
           assert (Hidx : (idx < p)%nat) by lia. specialize (Hfirst Hidx).
           apply IH; [exact Hc|exact Hm| |].
           ++ unfold remaining in *. simpl in *. lia.
           ++ intros m' Hin Hlt. apply Hover; [right; exact Hin|exact Hlt].
        -- apply IH; [exact Hc|exact Hm|lia|]. intros m' Hin Hlt. apply Hover; assumption.
      * apply IH; [exact Hc|exact Hm|lia|]. intros m' Hin Hlt. apply Hover; assumption.
Qed.

(** Every match a scan reports is as long as its pattern requires. *)
Lemma exec_all_consumes r s m :
  In m (exec_all r s) -> (min_length r <= String.length (matched m))%nat.
Proof.
  unfold exec_all. intros Hm.
  apply scan_sound in Hm as (c & res & _ & Hres & ->).
  apply match_here_consumes in Hres. unfold result_at, consumed. simpl.
  rewrite take_length; unfold remaining in *; lia.
Qed.

(** The cursor a scan holds at a position is the cursor at that position. *)
Lemma cursors_seek s : forall prev idx p c,
  In (p, c) (cursors prev s idx) -> c = seek prev s (p - idx).
Proof.
  induction s as [|a s IH]; intros prev idx p c; simpl.
  - intros [[= <- <-]|[]]. rewrite Nat.sub_diag. reflexivity.
  - intros [[= <- <-]|Hin]; [rewrite Nat.sub_diag; reflexivity|].
    pose proof (cursors_positions _ _ _ _ _ Hin) as Hp.
    apply IH in Hin. replace (p - idx)%nat with (S (p - S idx)) by lia. exact Hin.
Qed.

Lemma cursors_at s p c : In (p, c) (cursors None s 0) -> c = cursor_at s p.
Proof. intros Hin. apply cursors_seek in Hin. rewrite Nat.sub_0_r in Hin. exact Hin. Qed.

End RegexFacts.

(** ** Clauses of a table body *)

Module ClauseFacts.
Import Regex SQLParser ParserSpec RegexFacts.



Lemma rmatch_Seq r1 r2 k c cs : rmatch (Seq r1 r2) k c cs = rmatch r1 (rmatch r2 k) c cs.
Proof. reflexivity. Qed.



Lemma rmatch_Chr_cons p k prev a s cs :
  rmatch (Chr p) k (Cursor prev (String a s)) cs =
  if p a then k (Cursor (Some a) s) cs else None.
Proof. reflexivity. Qed.



Lemma append_length (s t : string) :
  String.length (s +:+ t) = (String.length s + String.length t)%nat.
Proof. induction s as [|a s IH]; simpl; [reflexivity|]. rewrite IH. reflexivity. Qed.


Lemma take_append (w rest : string) : Js.take (String.length w) (w +:+ rest) = w.
Proof. induction w as [|a w IH]; simpl; [destruct rest|rewrite IH]; reflexivity. Qed.



(** *** Running a pattern along a subject *)

(** [lit'] is [lit] up to case. *)







(** *** The clause [PRIMARY KEY (a, b)] *)




Lemma every_append p (s t : string) : every p (s +:+ t) = every p s && every p t.
Proof.
  induction s as [|a s IH]; simpl; [reflexivity|]. rewrite IH, andb_assoc. reflexivity.
Qed.




Lemma append_cons a (s t : string) : String a s +:+ t = String a (s +:+ t).
Proof. reflexivity. Qed.

Lemma append_assoc (s t u : string) : (s +:+ t) +:+ u = s +:+ (t +:+ u).
Proof.
  induction s as [|a s IH]; [reflexivity|]. rewrite !append_cons, IH. reflexivity.
Qed.

Lemma append_empty (s : string) : s +:+ EmptyString = s.
Proof. induction s as [|a s IH]; [reflexivity|]. rewrite append_cons, IH. reflexivity. Qed.





(** *** Splitting the list of names *)

Lemma split_on_run sep w : forall rst cur,
  every (fun a => negb (Ascii.eqb a sep)) w = true ->
  Js.split_on sep (w +:+ rst) cur = Js.split_on sep rst (cur +:+ w).
Proof.
  induction w as [|a w IH]; intros rst cur Hw.
  - rewrite append_empty. reflexivity.
  - simpl in Hw. apply andb_true_iff in Hw as [Ha Hw]. apply negb_true_iff in Ha.
    rewrite append_cons. simpl. rewrite Ha. rewrite IH by exact Hw.
    rewrite append_assoc. reflexivity.
Qed.


Lemma trimStart_tight s :
  headFails Js.is_space s = true -> Js.trimStart s = s.
Proof.
  destruct s as [|a s]; [reflexivity|]. simpl. intros Ha. apply negb_true_iff in Ha.
  rewrite Ha. reflexivity.
Qed.






Lemma split_on_end sep w cur :
  every (fun a => negb (Ascii.eqb a sep)) w = true -> Js.split_on sep w cur = [cur +:+ w].
Proof.
  intros Hw. rewrite <- (append_empty w) at 1. rewrite split_on_run by exact Hw. reflexivity.
Qed.


End ClauseFacts.

(** ** The parser *)

Module ParserFacts.
Import Regex SQLParser ParserSpec RegexFacts ClauseFacts.

(** *** [parseSQL] returns what the regex parsing gives *)

Lemma parseSQL_fallback (sql : string) : parseSQL sql = Return (fallbackRegexParsing sql).
Proof. reflexivity. Qed.

Lemma alterPass_no_tables re sql rels : alterPass re sql ([], rels) = ([], rels).
Proof.
  unfold alterPass. induction (exec_all re sql) as [|m ms IH]; simpl; auto.
Qed.

Lemma associateIndexes_no_tables indexes : associateIndexesWithTables [] indexes = [].
Proof.
  unfold associateIndexesWithTables. induction indexes as [|e es IH]; simpl; auto.
Qed.

Lemma loopPatterns_advance r : In r loopPatterns -> (0 < min_length r)%nat.
Proof.
  intros Hr. repeat (destruct Hr as [<-|Hr]; [vm_compute; lia|]). destruct Hr.
Qed.

(** C1: [parseSQL] returns a schema for every input, it never throws, and
    each of its [exec] loops advances, no match of its pattern being empty;
    when the input has no CREATE TABLE statement (the pattern of the parser
    finds none), the schema has no table and no relationship. *)
Theorem parseSQL_returns_and_empty_without_tables (sql : string) :
  (exists schema, parseSQL sql = Return schema) /\
  (forall r m, In r loopPatterns -> In m (exec_all r sql) -> matched m <> EmptyString) /\
  (exec_all createTableRegex sql = [] -> parseSQL sql = Return (Schema.Build [] [])).
Proof.
  split; [|split].
  - exists (fallbackRegexParsing sql). apply parseSQL_fallback.
  - intros r m Hr Hm Hempty.
    pose proof (loopPatterns_advance r Hr) as Hmin.
    pose proof (exec_all_consumes r sql m Hm) as Hlen.
    rewrite Hempty in Hlen. simpl in Hlen. lia.
  - intros Hnone. rewrite parseSQL_fallback. f_equal.
    unfold fallbackRegexParsing, parseAlterTableForeignKeys. rewrite Hnone. simpl.
    rewrite !alterPass_no_tables. rewrite associateIndexes_no_tables. reflexivity.
Qed.

Lemma parseSQL_empty_witness :
  exec_all createTableRegex alterOnlyInput = [] /\
  parseSQL alterOnlyInput = Return (Schema.Build [] []).
Proof.
  assert (Hnone : exec_all createTableRegex alterOnlyInput = []) by (vm_compute; reflexivity).
  split; [exact Hnone|].
  exact (proj2 (proj2 (parseSQL_returns_and_empty_without_tables alterOnlyInput)) Hnone).
Defined.

(** A clause that contains REFERENCES never reaches the column branch of
    the else-if chain: it leaves the columns as they are. *)
Lemma references_clause_adds_no_column st line :
  Js.includes line "REFERENCES" = true ->
  columns (parseClause st line) = columns st.
Proof.
  intros Href. unfold parseClause. rewrite Href.
  destruct (isPrimaryKeyClause line).
  - destruct (search primaryKeyListRegex line); reflexivity.
  - destruct (search inlineForeignKeyRegex line); [reflexivity|].
    destruct (search tableForeignKeyRegex line); reflexivity.
Qed.

(** C3, at the failing input: the clause [user_id INTEGER REFERENCES users(id)]
    gives the table its foreign key, and no column: the only column entry is
    [id]. *)
Theorem inline_reference_drops_the_column :
  parseSQL inlineReferenceInput =
  Return (Schema.Build
            [Table.Build "orders"
               [Column.Build "id" "INTEGER" true true false]
               ["id"]
               [ForeignKey.Build "user_id" "users" "id"]
               []]
            [Relationship.Build "orders-users-0" "orders" "users" "user_id" "id"]).
Proof. vm_compute. reflexivity. Qed.

(** *** Lists *)

Lemma findIndex_Some {A} (p : A -> bool) l i :
  findIndex p l = Some i -> exists x, l !! i = Some x /\ p x = true.
Proof.
  revert i. induction l as [|x l IH]; intros i; simpl; [discriminate|].
  destruct (p x) eqn:Hp.
  - intros [= <-]. eauto.
  - destruct (findIndex p l) as [j|]; simpl; [|discriminate].
    intros [= <-]. destruct (IH j eq_refl) as (y & Hy & Hpy). eauto.
Qed.

Lemma findIndex_sameTable_names n l1 l2 :
  map Table.name l1 = map Table.name l2 ->
  findIndex (sameTable n) l1 = findIndex (sameTable n) l2.
Proof.
  revert l2. induction l1 as [|x l1 IH]; intros [|y l2]; simpl; try discriminate; auto.
  intros [= Hxy Hl]. unfold sameTable at 1 3. rewrite Hxy.
  destruct (String.eqb _ _); [reflexivity|]. rewrite (IH l2 Hl). reflexivity.
Qed.

Lemma lookup_map {A B} (g : A -> B) l i : map g l !! i = g <$> l !! i.
Proof.
  revert i. induction l as [|x l IH]; intros [|i]; simpl; auto.
Qed.

Lemma map_alter_same {A B} (g : A -> B) (f : A -> A) i l :
  (forall x, g (f x) = g x) -> map g (alter f i l) = map g l.
Proof.
  intros Hg. revert i. induction l as [|x l IH]; intros [|i]; simpl; auto.
  - rewrite Hg. reflexivity.
  - f_equal. apply IH.
Qed.

(** *** The steps of the two loops of [fallbackRegexParsing] *)

(** What holds of the initial arrays and is kept by the registration of a
    table and by every registration of an ALTER TABLE key holds after the
    ALTER TABLE passes. *)
Section Invariant.
Variable P : state -> Prop.
Hypothesis P_table : forall tables rels name def t,
  P (tables, rels) -> parseTableDefinitionRegex name def = Some t ->
  P (tables ++ [t], extractRelationshipsRegex t rels def).
Hypothesis P_alter : forall tables rels pos t ref pair,
  P (tables, rels) -> tables !! pos = Some t ->
  P (addAlterForeignKey pos (Table.name t) ref (tables, rels) pair).

Lemma fold_addTable ms st : P st -> P (fold_left addTable ms st).
Proof.
  revert st. induction ms as [|m ms IH]; intros st Hst; simpl; auto.
  apply IH. unfold addTable.
  destruct (parseTableDefinitionRegex _ _) as [t|] eqn:Ht; auto.
  destruct st as [tables rels]. simpl. eapply P_table; eauto.
Qed.

Lemma fold_addAlterForeignKey pairs pos t ref st :
  P st -> fst st !! pos = Some t ->
  P (fold_left (addAlterForeignKey pos (Table.name t) ref) pairs st).
Proof.
  revert st t. induction pairs as [|pair pairs IH]; intros [tables rels] t Hst Ht;
    simpl; auto.
  destruct pair as [fromColumn toColumn]. simpl in Ht.
  pose proof (P_alter tables rels pos t ref (fromColumn, toColumn) Hst Ht) as Hstep.
  set (t' := pushForeignKey (ForeignKey.Build fromColumn ref toColumn) t).
  change (Table.name t) with (Table.name t') at 1.
  apply IH; [exact Hstep|].
  unfold addAlterForeignKey. simpl. rewrite list_lookup_alter_eq, Ht. reflexivity.
Qed.

Lemma applyAlterMatch_inv st m : P st -> P (applyAlterMatch st m).
Proof.
  intros Hst. unfold applyAlterMatch.
  destruct (findIndex _ _) as [pos|]; auto.
  destruct (fst st !! pos) as [t|] eqn:Ht; auto.
  apply fold_addAlterForeignKey; auto.
Qed.

Lemma alterPass_inv re sql st : P st -> P (alterPass re sql st).
Proof.
  unfold alterPass. generalize (exec_all re sql) as ms.
  intros ms. revert st. induction ms as [|m ms IH]; intros st Hst; simpl; auto.
  apply IH, applyAlterMatch_inv, Hst.
Qed.

Lemma parsed_inv sql : P ([], []) -> P (parsed sql).
Proof.
  intros H0. unfold parsed.
  pose proof (fold_addTable (exec_all createTableRegex sql) _ H0) as H1.
  destruct (fold_left addTable _ _) as [tables rels].
  unfold parseAlterTableForeignKeys. apply alterPass_inv, alterPass_inv, H1.
Qed.
End Invariant.

Lemma fallbackRegexParsing_parsed sql :
  fallbackRegexParsing sql =
  Schema.Build (associateIndexesWithTables (fst (parsed sql)) (extractIndexes sql))
    (snd (parsed sql)).
Proof.
  unfold fallbackRegexParsing, parsed.
  destruct (fold_left addTable _ _) as [tables rels].
  destruct (parseAlterTableForeignKeys sql tables rels) as [tables' rels']. reflexivity.
Qed.


(** *** Foreign keys and relationships correspond *)

Lemma extractRelationships_quads t rels def :
  map relQuad (extractRelationshipsRegex t rels def) = map relQuad rels ++ tableQuads t.
Proof.
  unfold extractRelationshipsRegex, tableQuads.
  generalize (Table.foreignKeys t) as fks. intros fks. revert rels.
  induction fks as [|fk fks IH]; intros rels; simpl.
  - rewrite app_nil_r. reflexivity.
  - rewrite IH, map_app. simpl. rewrite <- app_assoc. reflexivity.
Qed.

Lemma schemaQuads_app tables t : schemaQuads (tables ++ [t]) = schemaQuads tables ++ tableQuads t.
Proof.
  unfold schemaQuads. rewrite map_app, concat_app. simpl. rewrite app_nil_r. reflexivity.
Qed.

Lemma schemaQuads_pushForeignKey tables pos t fk :
  tables !! pos = Some t ->
  schemaQuads (alter (pushForeignKey fk) pos tables) ≡ₚ
  schemaQuads tables ++ [fkQuad (Table.name t) fk].
Proof.
  unfold schemaQuads. revert pos. induction tables as [|x tables IH]; intros [|pos] Hpos;
    simpl in *; try discriminate.
  - injection Hpos as ->. unfold tableQuads at 1. simpl. rewrite map_app. simpl.
    fold (tableQuads t). rewrite <- !app_assoc. apply Permutation_app_head.
    apply Permutation_app_comm.
  - rewrite (IH pos Hpos). rewrite app_assoc. reflexivity.
Qed.

Lemma parsed_corresponds sql : corresponds (parsed sql).
Proof.
  apply parsed_inv; unfold corresponds; simpl.
  - intros tables rels name def t Hst _.
    rewrite extractRelationships_quads, schemaQuads_app, Hst. reflexivity.
  - intros tables rels pos t ref [fromColumn toColumn] Hst Ht. simpl.
    rewrite map_app, (schemaQuads_pushForeignKey _ _ _ _ Ht), Hst. reflexivity.
  - reflexivity.
Qed.

Lemma associateIndexes_quads tables indexes :
  map tableQuads (associateIndexesWithTables tables indexes) = map tableQuads tables.
Proof.
  unfold associateIndexesWithTables. revert tables.
  induction indexes as [|e es IH]; intros tables; simpl; auto.
  rewrite IH. destruct (findIndex _ _) as [i|]; auto.
  apply map_alter_same. intros x. reflexivity.
Qed.

(** C2, as amended: in the schema [parseSQL] returns, the relationships,
    their ids dropped, are a rearrangement of the foreign key entries of
    the tables, each paired with the name of its table.  So the
    relationships that match a foreign key entry are as many as the entries
    with the same table name and the same fields: at least one, and one
    only when the entry is not repeated. *)
Theorem relationships_correspond_to_foreign_keys (sql : string) (schema : Schema.t) :
  parseSQL sql = Return schema ->
  map relQuad (Schema.relationships schema) ≡ₚ schemaQuads (Schema.tables schema).
Proof.
  intros [= <-]. rewrite fallbackRegexParsing_parsed. simpl.
  unfold schemaQuads. rewrite associateIndexes_quads. apply parsed_corresponds.
Qed.

Lemma relationships_correspond_witness :
  parseSQL declaredTwiceInput = Return (fallbackRegexParsing declaredTwiceInput) /\
  map relQuad (Schema.relationships (fallbackRegexParsing declaredTwiceInput)) ≡ₚ
    schemaQuads (Schema.tables (fallbackRegexParsing declaredTwiceInput)).
Proof.
  split; [reflexivity|].
  apply (relationships_correspond_to_foreign_keys declaredTwiceInput). reflexivity.
Defined.

(** C2, as stated, fails: a foreign key declared in the table body and once
    more by a named ALTER TABLE constraint is kept twice, and each of the
    two entries has two matching relationships. *)
Lemma declared_twice_two_relationships :
  exists schema,
    parseSQL declaredTwiceInput = Return schema /\ ~ exactlyOneRelationship schema.
Proof.
  exists (fallbackRegexParsing declaredTwiceInput). split; [reflexivity|].
  intros Hone.
  assert (Hschema : fallbackRegexParsing declaredTwiceInput =
    Schema.Build
      [Table.Build "orders" [Column.Build "id" "INTEGER" true true false] ["id"]
         [ForeignKey.Build "user_id" "users" "id"; ForeignKey.Build "user_id" "users" "id"]
         []]
      [Relationship.Build "orders-users-0" "orders" "users" "user_id" "id";
       Relationship.Build "orders-users-1" "orders" "users" "user_id" "id"])
    by (vm_compute; reflexivity).
  rewrite Hschema in Hone.
  specialize (Hone _ (ForeignKey.Build "user_id" "users" "id") (or_introl eq_refl)
                (or_introl eq_refl)).
  vm_compute in Hone. discriminate Hone.
Qed.


(** *** Relationship ids are positional *)

Lemma wellNumbered_push rels from to fromColumn toColumn :
  wellNumbered rels ->
  wellNumbered
    (rels ++ [Relationship.Build (relationshipId from to rels) from to fromColumn toColumn]).
Proof.
  intros Hrels i r Hi. apply lookup_app_Some in Hi as [Hi|[Hlen Hi]].
  - apply Hrels, Hi.
  - apply list_lookup_singleton_Some in Hi as [Hi <-]. simpl.
    unfold relationshipId, idAt. replace i with (length rels) by lia. reflexivity.
Qed.

Lemma wellNumbered_extract t rels def :
  wellNumbered rels -> wellNumbered (extractRelationshipsRegex t rels def).
Proof.
  unfold extractRelationshipsRegex. generalize (Table.foreignKeys t) as fks.
  intros fks. revert rels. induction fks as [|fk fks IH]; intros rels Hrels; simpl; auto.
  apply IH, wellNumbered_push, Hrels.
Qed.

Lemma parsed_wellNumbered sql : wellNumbered (snd (parsed sql)).
Proof.
  apply (parsed_inv (fun st => wellNumbered (snd st))); simpl.
  - intros tables rels name def t Hst _. apply wellNumbered_extract, Hst.
  - intros tables rels pos t ref [fromColumn toColumn] Hst _. simpl.
    apply wellNumbered_push, Hst.
  - intros i r Hi. rewrite lookup_nil in Hi. discriminate.
Qed.




(** *** Indexes *)

Lemma parseTableDefinitionRegex_indexes name def t :
  parseTableDefinitionRegex name def = Some t ->
  Table.name t = name /\ Table.indexes t = [].
Proof. intros [= <-]. split; reflexivity. Qed.

Lemma parsed_no_indexes sql : Forall (fun t => Table.indexes t = []) (fst (parsed sql)).
Proof.
  apply (parsed_inv (fun st => Forall (fun t => Table.indexes t = []) (fst st))); simpl.
  - intros tables rels name def t Hst Ht. apply Forall_app. split; [exact Hst|].
    constructor; [|constructor]. apply (parseTableDefinitionRegex_indexes _ _ _ Ht).
  - intros tables rels pos t ref [fromColumn toColumn] Hst _. simpl.
    apply Forall_alter; auto.
  - constructor.
Qed.

Lemma indexesFor_names tables1 tables2 k entries :
  map Table.name tables1 = map Table.name tables2 ->
  indexesFor tables1 k entries = indexesFor tables2 k entries.
Proof.
  intros Hnames. unfold indexesFor. f_equal. apply list_filter_iff.
  intros e. rewrite (findIndex_sameTable_names _ _ _ Hnames). reflexivity.
Qed.

Lemma associateIndexes_names tables entries :
  map Table.name (associateIndexesWithTables tables entries) = map Table.name tables.
Proof.
  unfold associateIndexesWithTables. revert tables.
  induction entries as [|e es IH]; intros tables; simpl; auto.
  rewrite IH. destruct (findIndex _ _) as [i|]; auto.
  apply map_alter_same. intros x. reflexivity.
Qed.

Lemma associateIndexes_lookup entries tables k t' :
  associateIndexesWithTables tables entries !! k = Some t' ->
  exists t, tables !! k = Some t /\
    Table.name t' = Table.name t /\
    Table.columns t' = Table.columns t /\
    Table.primaryKeys t' = Table.primaryKeys t /\
    Table.foreignKeys t' = Table.foreignKeys t /\
    Table.indexes t' = Table.indexes t ++ indexesFor tables k entries.
Proof.
  unfold associateIndexesWithTables. revert tables.
  induction entries as [|e es IH]; intros tables; simpl.
  - intros Hk. exists t'. rewrite app_nil_r. auto 10.
  - intros Hk. apply IH in Hk as (t1 & Ht1 & Hn & Hc & Hp & Hf & Hi).
    unfold indexesFor at 1. rewrite filter_cons.
    destruct (findIndex (sameTable (tableName e)) tables) as [i|] eqn:Hfind.
    + rewrite (indexesFor_names _ tables) in Hi
        by (apply map_alter_same; intros x; reflexivity).
      destruct (decide (i = k)) as [->|Hne].
      * rewrite list_lookup_alter_eq in Ht1.
        destruct (tables !! k) as [t|] eqn:Ht; [|discriminate].
        injection Ht1 as <-. exists t. simpl in *.
        rewrite decide_True by reflexivity. simpl.
        rewrite Hi, <- app_assoc. auto 10.
      * rewrite list_lookup_alter_ne in Ht1 by exact Hne.
        exists t1. rewrite decide_False by congruence. auto 10.
    + exists t1. rewrite decide_False by congruence. auto 10.
Qed.




(** *** The ALTER TABLE passes only append *)

Lemma extends_refl st : extends st st.
Proof. repeat split; auto. intros pos t Ht. exists t. split; auto. Qed.

Lemma extends_trans st1 st2 st3 : extends st1 st2 -> extends st2 st3 -> extends st1 st3.
Proof.
  intros (Hn1 & Hr1 & Ht1) (Hn2 & Hr2 & Ht2). repeat split.
  - congruence.
  - etransitivity; eauto.
  - intros pos t Ht. destruct (Ht1 _ _ Ht) as (t2 & Hl2 & Hp2).
    destruct (Ht2 _ _ Hl2) as (t3 & Hl3 & Hp3). exists t3. split; auto.
    etransitivity; eauto.
Qed.

Lemma extends_addAlterForeignKey pos name ref st pair :
  extends st (addAlterForeignKey pos name ref st pair).
Proof.
  destruct st as [tables rels], pair as [fromColumn toColumn]. repeat split; simpl.
  - apply map_alter_same. intros x. reflexivity.
  - apply prefix_app_r. reflexivity.
  - intros p t Ht. destruct (decide (pos = p)) as [->|Hne].
    + rewrite list_lookup_alter_eq, Ht. simpl. eexists. split; [reflexivity|].
      simpl. apply prefix_app_r. reflexivity.
    + rewrite list_lookup_alter_ne by exact Hne. exists t. split; auto.
Qed.

Lemma extends_alterPass re sql st : extends st (alterPass re sql st).
Proof.
  apply (alterPass_inv (extends st)); [|apply extends_refl].
  intros tables rels pos t ref pair Hst _.
  eapply extends_trans; [exact Hst|]. apply extends_addAlterForeignKey.
Qed.

Lemma extends_fold_applyAlterMatch ms st : extends st (fold_left applyAlterMatch ms st).
Proof.
  revert st. induction ms as [|m ms IH]; intros st; simpl; [apply extends_refl|].
  eapply extends_trans; [|apply IH].
  apply (applyAlterMatch_inv (extends st)); [|apply extends_refl].
  intros tables rels pos t ref pair Hst _.
  eapply extends_trans; [exact Hst|]. apply extends_addAlterForeignKey.
Qed.

Lemma extends_fold_addAlterForeignKey pairs pos name ref st :
  extends st (fold_left (addAlterForeignKey pos name ref) pairs st).
Proof.
  revert st. induction pairs as [|pair pairs IH]; intros st; simpl; [apply extends_refl|].
  eapply extends_trans; [apply extends_addAlterForeignKey|apply IH].
Qed.

Lemma lookup_names tables1 tables2 pos (t1 t2 : Table.t) :
  map Table.name tables1 = map Table.name tables2 ->
  tables1 !! pos = Some t1 -> tables2 !! pos = Some t2 -> Table.name t1 = Table.name t2.
Proof.
  intros Hn H1 H2.
  assert (map Table.name tables1 !! pos = Some (Table.name t1)) as E1
    by (rewrite lookup_map, H1; reflexivity).
  assert (map Table.name tables2 !! pos = Some (Table.name t2)) as E2
    by (rewrite lookup_map, H2; reflexivity).
  congruence.
Qed.

Lemma registered_extends pos fk lowFk lowRel st st' :
  registered pos fk lowFk lowRel st -> extends st st' ->
  registered pos fk lowFk lowRel st'.
Proof.
  intros (t & i & n & Ht & Hi & Hfk & Hn & Hrel) (Hnames & Hrels & Htables).
  destruct (Htables _ _ Ht) as (t' & Ht' & Hpre).
  exists t', i, n. rewrite (lookup_names _ _ _ _ _ Hnames Ht' Ht).
  repeat split; auto.
  - eapply prefix_lookup_Some; eauto.
  - eapply prefix_lookup_Some; eauto.
Qed.


Lemma registered_weaken pos fk lowFk lowRel lowFk' lowRel' st :
  registered pos fk lowFk lowRel st -> (lowFk' <= lowFk)%nat -> (lowRel' <= lowRel)%nat ->
  registered pos fk lowFk' lowRel' st.
Proof.
  intros (t & i & n & Ht & Hi & Hfk & Hn & Hrel) H1 H2.
  exists t, i, n. repeat split; auto; lia.
Qed.

Lemma register_pair pairs pos t ref st fromColumn toColumn :
  fst st !! pos = Some t ->
  In (fromColumn, toColumn) pairs ->
  registered pos (ForeignKey.Build fromColumn ref toColumn)
    (length (Table.foreignKeys t)) (length (snd st))
    (fold_left (addAlterForeignKey pos (Table.name t) ref) pairs st).
Proof.
  revert st t. induction pairs as [|pair pairs IH]; intros [tables rels] t Ht Hin;
    [destruct Hin|].
  simpl in Ht. simpl fold_left. destruct Hin as [->|Hin].
  - eapply registered_extends; [|apply extends_fold_addAlterForeignKey].
    exists (pushForeignKey (ForeignKey.Build fromColumn ref toColumn) t),
      (length (Table.foreignKeys t)), (length rels).
    unfold addAlterForeignKey. simpl. repeat split; auto.
    + rewrite list_lookup_alter_eq, Ht. reflexivity.
    + rewrite lookup_app_r, Nat.sub_diag by lia. reflexivity.
    + rewrite lookup_app_r, Nat.sub_diag by lia. reflexivity.
  - destruct pair as [fromColumn' toColumn'].
    set (t' := pushForeignKey (ForeignKey.Build fromColumn' ref toColumn') t).
    change (Table.name t) with (Table.name t').
    eapply registered_weaken; [apply IH; [|exact Hin]|..].
    + unfold addAlterForeignKey. simpl. rewrite list_lookup_alter_eq, Ht. reflexivity.
    + subst t'. simpl. rewrite length_app. lia.
    + unfold addAlterForeignKey. simpl. rewrite length_app. lia.
Qed.

Lemma register_match st m pos t fromColumn toColumn :
  findIndex (sameTable (captured m 1)) (fst st) = Some pos ->
  fst st !! pos = Some t ->
  In (fromColumn, toColumn)
    (combine (splitNames (captured m 2)) (splitNames (captured m 4))) ->
  registered pos (ForeignKey.Build fromColumn (captured m 3) toColumn)
    (length (Table.foreignKeys t)) (length (snd st)) (applyAlterMatch st m).
Proof.
  intros Hfind Ht Hin. unfold applyAlterMatch. rewrite Hfind, Ht.
  apply register_pair; auto.
Qed.

Lemma register_matches ms st m pos t fromColumn toColumn :
  In m ms ->
  findIndex (sameTable (captured m 1)) (fst st) = Some pos ->
  fst st !! pos = Some t ->
  In (fromColumn, toColumn)
    (combine (splitNames (captured m 2)) (splitNames (captured m 4))) ->
  registered pos (ForeignKey.Build fromColumn (captured m 3) toColumn)
    (length (Table.foreignKeys t)) (length (snd st)) (fold_left applyAlterMatch ms st).
Proof.
  revert st t. induction ms as [|m0 ms IH]; intros st t Hm Hfind Ht Hin; [destruct Hm|].
  simpl fold_left. destruct Hm as [->|Hm].
  - eapply registered_extends; [|apply extends_fold_applyAlterMatch].
    apply register_match; auto.
  - pose proof (extends_fold_applyAlterMatch [m0] st) as (Hnames & Hrels & Htables).
    simpl in Hnames, Hrels, Htables.
    destruct (Htables _ _ Ht) as (t1 & Ht1 & Hpre).
    eapply registered_weaken; [apply (IH _ t1); auto|..].
    + rewrite (findIndex_sameTable_names _ _ _ Hnames). exact Hfind.
    + apply prefix_length, Hpre.
    + apply prefix_length, Hrels.
Qed.

Lemma string_app_inj (s a b : string) : s +:+ a = s +:+ b -> a = b.
Proof. induction s as [|c s IH]; simpl; [auto|]. intros [= H]. auto. Qed.

Lemma string_of_nat_inj (n1 n2 : nat) : Js.string_of_nat n1 = Js.string_of_nat n2 -> n1 = n2.
Proof.
  unfold Js.string_of_nat. intros H.
  apply (f_equal NilEmpty.uint_of_string) in H. rewrite !NilEmpty.usu in H.
  injection H as H. apply (f_equal Nat.of_uint) in H.
  rewrite !Unsigned.of_to in H. exact H.
Qed.

Lemma idAt_inj from to n1 n2 : idAt from to n1 = idAt from to n2 -> n1 = n2.
Proof.
  unfold idAt. intros H. do 4 apply string_app_inj in H. apply string_of_nat_inj, H.
Qed.


Lemma associateIndexes_lookup_inv tables entries k t :
  tables !! k = Some t ->
  exists t', associateIndexesWithTables tables entries !! k = Some t' /\
    Table.name t' = Table.name t /\ Table.foreignKeys t' = Table.foreignKeys t.
Proof.
  intros Ht.
  destruct (associateIndexesWithTables tables entries !! k) as [t'|] eqn:Hk.
  - exists t'. apply associateIndexes_lookup in Hk as (t0 & Ht0 & Hn & _ & _ & Hf & _).
    rewrite Ht in Ht0. injection Ht0 as <-. auto.
  - apply lookup_ge_None in Hk. apply lookup_lt_Some in Ht.
    pose proof (associateIndexes_names tables entries) as Hn.
    apply (f_equal length) in Hn. rewrite !length_map in Hn. lia.
Qed.

(** A statement matched by both patterns, whose table was parsed, leaves two
    equal foreign key entries on that table and two relationships, with
    different ids, in the schema. *)
Lemma matched_twice_registered_twice
    (sql : string) (schema : Schema.t) (m : result) (pos : nat)
    (fromColumn toColumn : string) :
  parseSQL sql = Return schema ->
  In m (exec_all alterFkRegex2 sql) ->
  In m (exec_all alterFkRegex sql) ->
  findIndex (sameTable (captured m 1)) (Schema.tables schema) = Some pos ->
  In (fromColumn, toColumn)
    (combine (splitNames (captured m 2)) (splitNames (captured m 4))) ->
  exists table i j n1 n2,
    Schema.tables schema !! pos = Some table /\
    (i < j)%nat /\
    Table.foreignKeys table !! i = Some (ForeignKey.Build fromColumn (captured m 3) toColumn) /\
    Table.foreignKeys table !! j = Some (ForeignKey.Build fromColumn (captured m 3) toColumn) /\
    (n1 < n2)%nat /\
    Schema.relationships schema !! n1 =
      Some (Relationship.Build (idAt (Table.name table) (captured m 3) n1)
              (Table.name table) (captured m 3) fromColumn toColumn) /\
    Schema.relationships schema !! n2 =
      Some (Relationship.Build (idAt (Table.name table) (captured m 3) n2)
              (Table.name table) (captured m 3) fromColumn toColumn) /\
    idAt (Table.name table) (captured m 3) n1 <> idAt (Table.name table) (captured m 3) n2.
Proof.
  intros [= <-] Hm2 Hm1. rewrite fallbackRegexParsing_parsed. simpl. intros Hfind Hin.
  rewrite (findIndex_sameTable_names _ _ _ (associateIndexes_names _ _)) in Hfind.
  unfold parsed in *.
  destruct (fold_left addTable _ _) as [tables0 rels0].
  unfold parseAlterTableForeignKeys in *.
  set (st0 := (tables0, rels0)) in *.
  set (st1 := alterPass alterFkRegex sql st0) in *.
  set (st2 := alterPass alterFkRegex2 sql st1) in *.
  pose proof (extends_alterPass alterFkRegex sql st0) as E01. fold st1 in E01.
  pose proof (extends_alterPass alterFkRegex2 sql st1) as E12. fold st2 in E12.
  destruct E01 as (Hn01 & Hr01 & Ht01). pose proof E12 as (Hn12 & Hr12 & Ht12).
  rewrite (findIndex_sameTable_names _ _ _ Hn12) in Hfind.
  pose proof Hfind as Hfind1.
  rewrite (findIndex_sameTable_names _ _ _ Hn01) in Hfind.
  destruct (findIndex_Some _ _ _ Hfind) as (t0 & Ht0 & _).
  pose proof (register_matches _ st0 m pos t0 fromColumn toColumn Hm1 Hfind Ht0 Hin) as R1.
  fold (alterPass alterFkRegex sql st0) in R1. fold st1 in R1.
  pose proof R1 as (t1 & i1 & n1 & Ht1 & _ & Hfk1 & _ & Hrel1).
  pose proof (register_matches _ st1 m pos t1 fromColumn toColumn Hm2 Hfind1 Ht1 Hin) as R2.
  fold (alterPass alterFkRegex2 sql st1) in R2. fold st2 in R2.
  destruct R2 as (t2 & i2 & n2 & Ht2 & Hi2 & Hfk2 & Hn2 & Hrel2).
  destruct (registered_extends _ _ _ _ _ _ R1 E12)
    as (t2' & i1' & n1' & Ht2' & _ & Hfk1' & _ & Hrel1').
  clear Hfk1' Hrel1' i1' n1'.
  destruct (Ht12 _ _ Ht1) as (t2'' & Ht2'' & Hpre).
  rewrite Ht2 in Ht2', Ht2''. injection Ht2' as <-. injection Ht2'' as <-.
  assert (Hname : Table.name t2 = Table.name t1)
    by (eapply lookup_names; [exact Hn12|exact Ht2|exact Ht1]).
  destruct (associateIndexes_lookup_inv _ (extractIndexes sql) _ _ Ht2)
    as (table & Htable & Hname' & Hfks).
  exists table, i1, i2, n1, n2. rewrite Hname', Hfks. simpl in *.
  apply lookup_lt_Some in Hfk1 as Hlt1. apply lookup_lt_Some in Hrel1 as Hlt2.
  repeat split; auto; try lia.
  - eapply prefix_lookup_Some; eauto.
  - rewrite Hname. eapply prefix_lookup_Some; eauto.
  - intros Heq. apply idAt_inj in Heq. lia.
Qed.

(** Where the reading with a constraint name fails, Pattern 1 reads what
    Pattern 2 reads: its optional group matches the empty string there. *)
Lemma alterFkRegex_plain c :
  match_here alterFkNamedRegex c = None ->
  match_here alterFkRegex c = match_here alterFkRegex2 c.
Proof.
  unfold match_here, alterFkNamedRegex, alterFkRegex, alterFkRegex2.
  rewrite !rmatch_seq_app. intros Hnamed.
  apply (rmatch_alternative _ _ _ _ _ _ ) with (2 := Hnamed).
  intros c' cs' Hnone.
  change (rmatch (seq ([opt constraintName] ++ alterForeignKeyTail)) accept c' cs')
    with (match rmatch constraintName (rmatch (seq alterForeignKeyTail) accept) c' cs' with
          | Some res => Some res
          | None => rmatch (seq alterForeignKeyTail) accept c' cs'
          end).
  change (rmatch (seq ([constraintName] ++ alterForeignKeyTail)) accept c' cs')
    with (rmatch constraintName (rmatch (seq alterForeignKeyTail) accept) c' cs') in Hnone.
  rewrite Hnone. reflexivity.
Qed.

(** A match of Pattern 2 that has no reading with a constraint name, and
    that no earlier match of Pattern 1 runs into, is a match of Pattern 1. *)
Lemma alterFkRegex2_matches_alterFkRegex sql m :
  In m (exec_all alterFkRegex2 sql) ->
  match_here alterFkNamedRegex (cursor_at sql (Regex.index m)) = None ->
  (forall m', In m' (exec_all alterFkRegex sql) -> (Regex.index m' < Regex.index m)%nat ->
     (Regex.index m' + String.length (matched m') <= Regex.index m)%nat) ->
  In m (exec_all alterFkRegex sql).
Proof.
  unfold exec_all. intros Hm Hnamed Hover.
  apply scan_sound in Hm as (c & res & Hc & Hres & Heq).
  pose proof (cursors_at _ _ _ Hc) as Hcur. rewrite <- Hcur in Hnamed.
  rewrite Heq at 1. apply scan_complete; [exact Hc| |lia|exact Hover].
  rewrite (alterFkRegex_plain _ Hnamed). exact Hres.
Qed.

(** C10: an ALTER TABLE ... ADD FOREIGN KEY statement without a constraint
    name, that is a match [m] of Pattern 2 where the reading with a
    constraint name fails, standing clear of the earlier matches of
    Pattern 1, is a match of Pattern 1 too; when its table was parsed, each
    of its column pairs leaves two equal foreign key entries on that table
    and two relationships, with different ids, in the schema. *)
Theorem alter_without_constraint_registered_twice
    (sql : string) (schema : Schema.t) (m : result) (pos : nat)
    (fromColumn toColumn : string) :
  parseSQL sql = Return schema ->
  In m (exec_all alterFkRegex2 sql) ->
  match_here alterFkNamedRegex (cursor_at sql (Regex.index m)) = None ->
  (forall m', In m' (exec_all alterFkRegex sql) -> (Regex.index m' < Regex.index m)%nat ->
     (Regex.index m' + String.length (matched m') <= Regex.index m)%nat) ->
  findIndex (sameTable (captured m 1)) (Schema.tables schema) = Some pos ->
  In (fromColumn, toColumn)
    (combine (splitNames (captured m 2)) (splitNames (captured m 4))) ->
  In m (exec_all alterFkRegex sql) /\
  exists table i j n1 n2,
    Schema.tables schema !! pos = Some table /\
    (i < j)%nat /\
    Table.foreignKeys table !! i = Some (ForeignKey.Build fromColumn (captured m 3) toColumn) /\
    Table.foreignKeys table !! j = Some (ForeignKey.Build fromColumn (captured m 3) toColumn) /\
    (n1 < n2)%nat /\
    Schema.relationships schema !! n1 =
      Some (Relationship.Build (idAt (Table.name table) (captured m 3) n1)
              (Table.name table) (captured m 3) fromColumn toColumn) /\
    Schema.relationships schema !! n2 =
      Some (Relationship.Build (idAt (Table.name table) (captured m 3) n2)
              (Table.name table) (captured m 3) fromColumn toColumn) /\
    idAt (Table.name table) (captured m 3) n1 <> idAt (Table.name table) (captured m 3) n2.
Proof.
  intros Hschema Hm2 Hnamed Hover Hfind Hin.
  pose proof (alterFkRegex2_matches_alterFkRegex sql m Hm2 Hnamed Hover) as Hm1.
  split; [exact Hm1|].
  exact (matched_twice_registered_twice sql schema m pos fromColumn toColumn
           Hschema Hm2 Hm1 Hfind Hin).
Qed.

Lemma alter_registered_twice_witness :
  In alterStatement (exec_all alterFkRegex2 alterInput) /\
  In alterStatement (exec_all alterFkRegex alterInput) /\
  exists table i j n1 n2,
    Schema.tables (fallbackRegexParsing alterInput) !! 1 = Some table /\
    (i < j)%nat /\
    Table.foreignKeys table !! i = Some (ForeignKey.Build "order_id" "orders" "id") /\
    Table.foreignKeys table !! j = Some (ForeignKey.Build "order_id" "orders" "id") /\
    (n1 < n2)%nat /\
    Schema.relationships (fallbackRegexParsing alterInput) !! n1 =
      Some (Relationship.Build (idAt (Table.name table) "orders" n1)
              (Table.name table) "orders" "order_id" "id") /\
    Schema.relationships (fallbackRegexParsing alterInput) !! n2 =
      Some (Relationship.Build (idAt (Table.name table) "orders" n2)
              (Table.name table) "orders" "order_id" "id") /\
    idAt (Table.name table) "orders" n1 <> idAt (Table.name table) "orders" n2.
Proof.
  assert (H2 : In alterStatement (exec_all alterFkRegex2 alterInput))
    by (vm_compute; left; reflexivity).
  split; [exact H2|].
  apply (alter_without_constraint_registered_twice alterInput
           (fallbackRegexParsing alterInput) alterStatement 1 "order_id" "id");
    [reflexivity|exact H2|vm_compute; reflexivity
    |vm_compute; intros m' [<-|[]]; simpl; lia
    |vm_compute; reflexivity|vm_compute; left; reflexivity].
Defined.


(** *** Primary keys *)

Lemma parseColumn_primaryKeys st m :
  primaryKeys st `prefix_of` primaryKeys (parseColumn st m).
Proof.
  unfold parseColumn.
  repeat match goal with
         | |- context [if ?b then _ else _] => destruct b
         | |- context [match search ?r ?s with _ => _ end] => destruct (search r s)
         end; simpl;
    repeat (apply prefix_app_r); reflexivity.
Qed.






(** *** Keys of the tables of the schema *)










(** The tables array after the first loop: one table per CREATE TABLE
    statement, in order. *)
Lemma fold_addTable_tables ms : forall st,
  exists tables,
    fst (fold_left addTable ms st) = fst st ++ tables /\ Forall2 tableOf ms tables.
Proof.
  induction ms as [|m ms IH]; intros st; simpl.
  - exists []. rewrite app_nil_r. split; [reflexivity|constructor].
  - destruct (parseTableDefinitionRegex (captured m 1) (captured m 2)) as [t|] eqn:Ht;
      [|discriminate Ht].
    assert (Hstep : fst (addTable st m) = fst st ++ [t])
      by (unfold addTable; rewrite Ht; reflexivity).
    destruct (IH (addTable st m)) as (tables & Heq & Hall).
    exists (t :: tables). split.
    + rewrite Heq, Hstep, <- app_assoc. reflexivity.
    + constructor; [exact Ht|exact Hall].
Qed.







End ParserFacts.

(** ** The layout engine *)

Module LayoutFacts.
Import LayoutEngine LayoutSpec.

Section TwoTables.
Context {N : Type} `{Number N}.
Variables (a b : string) (ta tb : Table.t) (schema : Schema.t)
          (config : LayoutConfig N) (innerWidth : N).
Hypothesis Hab : a <> b.
Hypothesis Hta : Table.name ta = a.
Hypothesis Htb : Table.name tb = b.
Hypothesis Hrel : exists r, Schema.relationships schema = [r] /\
                            Relationship.from r = a /\ Relationship.to r = b.







End TwoTables.




(** *** [resolveOverlaps] *)

Section Break.
Context {N : Type} `{Number N} `{Sqrt N}.
Variable config : LayoutConfig N.

Lemma separate_quiet name1 st name2 positions :
  separate config name1 st name2 = Some (positions, false) ->
  st = Some (positions, false) /\ (name1 <> name2 -> apart config positions name1 name2).
Proof.
  unfold separate. destruct st as [[ps flag]|]; [|discriminate].
  destruct (String.eqb_spec name1 name2) as [->|Hne].
  - intros [= -> ->]. split; [reflexivity|]. intros Hne. contradiction.
  - destruct (ps !! name1) as [pos1|] eqn:H1; [|discriminate].
    destruct (ps !! name2) as [pos2|] eqn:H2; [|discriminate].
    destruct (nlt _ _) eqn:Hlt; [discriminate|].
    intros [= -> ->]. split; [reflexivity|]. intros _.
    exists pos1, pos2. auto.
Qed.

Lemma inner_quiet name1 (tables : list Table.t) : forall st positions,
  fold_left (fun st table2 => separate config name1 st (Table.name table2)) tables st
    = Some (positions, false) ->
  st = Some (positions, false) /\
  forall table2, In table2 tables -> name1 <> Table.name table2 ->
    apart config positions name1 (Table.name table2).
Proof.
  induction tables as [|t tables IH]; intros st positions; simpl.
  - intros ->. split; [reflexivity|]. intros ? [].
  - intros Hfold. apply IH in Hfold as [Hstep Hrest].
    apply separate_quiet in Hstep as [Hst Hpair].
    split; [exact Hst|]. intros table2 [<-|Hin]; auto.
Qed.

Lemma outer_quiet (all tables : list Table.t) : forall st positions,
  fold_left
    (fun st table1 =>
       fold_left (fun st table2 => separate config (Table.name table1) st (Table.name table2))
         all st)
    tables st = Some (positions, false) ->
  st = Some (positions, false) /\
  forall table1 table2, In table1 tables -> In table2 all ->
    Table.name table1 <> Table.name table2 ->
    apart config positions (Table.name table1) (Table.name table2).
Proof.
  induction tables as [|t tables IH]; intros st positions; simpl.
  - intros ->. split; [reflexivity|]. intros ? ? [].
  - intros Hfold. apply IH in Hfold as [Hstep Hrest].
    apply inner_quiet in Hstep as [Hst Hpairs].
    split; [exact Hst|]. intros table1 table2 [<-|Hin]; auto.
Qed.

(** A round that reports no overlap moved nothing and found every pair of
    tables of different names not closer than the minimum distance. *)
Lemma round_quiet tables positions positions' :
  round config tables positions = Some (positions', false) ->
  positions' = positions /\
  forall table1 table2, In table1 tables -> In table2 tables ->
    Table.name table1 <> Table.name table2 ->
    apart config positions (Table.name table1) (Table.name table2).
Proof.
  unfold round. intros Hround. apply outer_quiet in Hround as [[= ->] Hpairs].
  split; [reflexivity|exact Hpairs].
Qed.

(** When the loop is left by its [break], the comparison
    [distance < minDistance] is false for every pair of the returned map. *)
Lemma resolveLoop_break rounds tables : forall positions positions',
  resolveLoop config rounds tables positions = Some (positions', true) ->
  forall table1 table2, In table1 tables -> In table2 tables ->
    Table.name table1 <> Table.name table2 ->
    apart config positions' (Table.name table1) (Table.name table2).
Proof.
  induction rounds as [|rounds IH]; intros positions positions'; simpl; [discriminate|].
  destruct (round config tables positions) as [[ps flag]|] eqn:Hround; [|discriminate].
  destruct flag.
  - apply IH.
  - intros [= <-]. apply round_quiet in Hround as [-> Hpairs]. exact Hpairs.
Qed.

End Break.

(** C7, at the failing input: two tables at the same place.  The first
    round divides by the distance 0, every coordinate becomes NaN, the
    second round finds no pair closer than the minimum and the loop is left
    by its [break], far from the cap; the distance of the pair is NaN,
    which is not at least spacing x 0.7. *)
Theorem resolveOverlaps_stacked_tables :
  exists positions pa pb,
    resolveLoop defaultConfig 50 twoTables stacked = Some (positions, true) /\
    resolveLoop defaultConfig 49 twoTables stacked = Some (positions, true) /\
    resolveOverlaps defaultConfig twoTables stacked = Some positions /\
    positions !! "a" = Some pa /\ positions !! "b" = Some pb /\
    x pa = PrimFloat.nan /\ y pa = PrimFloat.nan /\
    x pb = PrimFloat.nan /\ y pb = PrimFloat.nan /\
    PrimFloat.leb (spacing defaultConfig * literal (7 # 10))%number (distance pa pb) = false.
Proof.
  eexists _, _, _. split; [vm_compute; reflexivity|].
  repeat split; vm_compute; reflexivity.
Qed.

End LayoutFacts.

(** ** The edge router *)

Module EdgeRoutingFacts.
Import LayoutEngine EdgeRouting LayoutSpec.
Local Open Scope number_scope.

(** C8: for nodes with positions, [calculateOptimalConnection] compares the
    absolute differences of the centres of the nodes, taken 300 wide and
    200 high: a greater horizontal one gives right/left or left/right by
    the sign of the horizontal difference; otherwise, and so when the two
    are equal, the pair is bottom/top or top/bottom by the sign of the
    vertical difference. *)
Theorem calculateOptimalConnection_rule
    (sourceNode targetNode : Node float) (sourcePos targetPos : LayoutPosition float) :
  position sourceNode = Some sourcePos ->
  position targetNode = Some targetPos ->
  let deltaX := centerX targetPos - centerX sourcePos in
  let deltaY := centerY targetPos - centerY sourcePos in
  let connection := calculateOptimalConnection sourceNode targetNode in
  let vertical :=
    (nlt (literal 0) deltaY = true ->
       connection = handles sourceNode targetNode "bottom" "top") /\
    (nlt (literal 0) deltaY = false ->
       connection = handles sourceNode targetNode "top" "bottom") in
  (nlt (nabs deltaY) (nabs deltaX) = true ->
     (nlt (literal 0) deltaX = true ->
        connection = handles sourceNode targetNode "right" "left") /\
     (nlt (literal 0) deltaX = false ->
        connection = handles sourceNode targetNode "left" "right")) /\
  (nlt (nabs deltaY) (nabs deltaX) = false -> vertical) /\
  (PrimFloat.eqb (nabs deltaX) (nabs deltaY) = true -> vertical).
Proof.
  intros Hs Ht deltaX deltaY connection vertical.
  assert (Hc : connection =
    if nlt (nabs deltaY) (nabs deltaX)
    then if nlt (literal 0) deltaX
         then handles sourceNode targetNode "right" "left"
         else handles sourceNode targetNode "left" "right"
    else if nlt (literal 0) deltaY
         then handles sourceNode targetNode "bottom" "top"
         else handles sourceNode targetNode "top" "bottom").
  { subst connection. unfold calculateOptimalConnection. rewrite Hs, Ht. reflexivity. }
  assert (Hv : nlt (nabs deltaY) (nabs deltaX) = false -> vertical).
  { intros H1. split; intros H2; rewrite Hc, H1, H2; reflexivity. }
  split; [|split].
  - intros H1. split; intros H2; rewrite Hc, H1, H2; reflexivity.
  - exact Hv.
  - intros Htie. apply Hv. apply NumberFacts.float_eqb_not_ltb, Htie.
Qed.

Lemma calculateOptimalConnection_tie_witness :
  calculateOptimalConnection (nodeAt "orders" 0 0) (nodeAt "users" 300 300)
    = handles (nodeAt "orders" 0 0) (nodeAt "users" 300 300) "bottom" "top".
Proof.
  apply (calculateOptimalConnection_rule (nodeAt "orders" 0 0) (nodeAt "users" 300 300)
           (Position 0%float 0%float) (Position 300%float 300%float) eq_refl eq_refl);
    vm_compute; reflexivity.
Defined.

End EdgeRoutingFacts.

(** ** The schema the parser returns *)

Module SchemaFacts.
Import Regex SQLParser ParserSpec SchemaSpec RegexFacts ClauseFacts ParserFacts.

(** *** One table per CREATE TABLE statement *)

Lemma tableOf_names ms tables :
  Forall2 tableOf ms tables ->
  map Table.name tables = map (fun m => captured m 1) ms.
Proof.
  induction 1 as [|m t ms tables Hm _ IH]; [reflexivity|].
  simpl. rewrite IH. injection Hm as <-. reflexivity.
Qed.

Lemma parsed_names sql :
  map Table.name (fst (parsed sql)) =
  map (fun m => captured m 1) (exec_all createTableRegex sql).
Proof.
  unfold parsed.
  destruct (fold_addTable_tables (exec_all createTableRegex sql) ([], []))
    as (tables & Heq & Hall).
  destruct (fold_left addTable _ _) as [tables0 rels0]. simpl in Heq. subst tables0.
  unfold parseAlterTableForeignKeys.
  destruct (extends_alterPass alterFkRegex sql (tables, rels0)) as (Hn1 & _).
  destruct (extends_alterPass alterFkRegex2 sql (alterPass alterFkRegex sql (tables, rels0)))
    as (Hn2 & _).
  rewrite Hn2, Hn1. simpl. apply tableOf_names, Hall.
Qed.

(** X1: the tables of the returned schema are those of the CREATE TABLE
    statements the parser finds, one for each, in their order and under
    their names. *)
Theorem tables_follow_create_statements (sql : string) :
  exists schema,
    parseSQL sql = Return schema /\
    map Table.name (Schema.tables schema) =
      map (fun m => captured m 1) (exec_all createTableRegex sql).
Proof.
  exists (fallbackRegexParsing sql). split; [reflexivity|].
  rewrite fallbackRegexParsing_parsed. simpl.
  rewrite associateIndexes_names. apply parsed_names.
Qed.

(** *** Relationship ids *)

Lemma split_on_nonempty sep s cur : Js.split_on sep s cur <> [].
Proof.
  revert cur. induction s as [|c s IH]; intros cur; simpl; [discriminate|].
  destruct (Ascii.eqb c sep); [discriminate|apply IH].
Qed.

Lemma last_cons_nonempty {A} (x : A) l d : l <> [] -> List.last (x :: l) d = List.last l d.
Proof. destruct l; [contradiction|reflexivity]. Qed.

Lemma last_split_field sep s field : forall cur,
  every (fun c => negb (Ascii.eqb c sep)) field = true ->
  List.last (Js.split_on sep (s +:+ String sep field) cur) EmptyString = field.
Proof.
  induction s as [|c s IH]; intros cur Hfield.
  - change (EmptyString +:+ String sep field) with (String sep field).
    simpl. rewrite Ascii.eqb_refl, split_on_end by exact Hfield. reflexivity.
  - rewrite append_cons. simpl. destruct (Ascii.eqb c sep).
    + rewrite last_cons_nonempty by apply split_on_nonempty. apply IH, Hfield.
    + apply IH, Hfield.
Qed.

Lemma digits_plain (d : Decimal.uint) :
  every (fun c => negb (Ascii.eqb c "-")) (NilEmpty.string_of_uint d) = true.
Proof. induction d; simpl; auto. Qed.

(** The last field of the id of the relationship at position [n] is [n]. *)
Lemma lastField_idAt from to n : lastField (idAt from to n) = Js.string_of_nat n.
Proof.
  unfold lastField, idAt, Js.split.
  replace (from +:+ "-" +:+ to +:+ "-" +:+ Js.string_of_nat n)
    with ((from +:+ "-" +:+ to) +:+ String "-" (Js.string_of_nat n)).
  - apply last_split_field, digits_plain.
  - rewrite !append_assoc. reflexivity.
Qed.

(** X2: the ids of the relationships of the returned schema are pairwise
    different: each ends with the position of its relationship. *)
Theorem relationship_ids_distinct (sql : string) :
  exists schema,
    parseSQL sql = Return schema /\
    NoDup (map Relationship.id (Schema.relationships schema)).
Proof.
  exists (fallbackRegexParsing sql). split; [reflexivity|].
  rewrite fallbackRegexParsing_parsed. simpl.
  pose proof (parsed_wellNumbered sql) as Hnum.
  apply NoDup_alt. intros i j id Hi Hj.
  rewrite list_lookup_fmap in Hi, Hj.
  destruct (snd (parsed sql) !! i) as [ri|] eqn:Eri; [|discriminate].
  destruct (snd (parsed sql) !! j) as [rj|] eqn:Erj; [|discriminate].
  simpl in Hi, Hj. injection Hi as Hi. injection Hj as Hj.
  rewrite (Hnum _ _ Eri) in Hi. rewrite (Hnum _ _ Erj) in Hj.
  apply (f_equal lastField) in Hi, Hj. rewrite lastField_idAt in Hi, Hj.
  apply string_of_nat_inj. congruence.
Qed.

End SchemaFacts.

(** ** The flags of the columns *)

Module FlagFacts.
Import Regex SQLParser ParserSpec SchemaSpec RegexFacts ClauseFacts ParserFacts.

Lemma includesName_app names more x :
  includesName names x = true -> includesName (names ++ more) x = true.
Proof. unfold includesName. rewrite existsb_app. intros ->. reflexivity. Qed.

Lemma includesName_last names x : includesName (names ++ [x]) x = true.
Proof.
  unfold includesName. rewrite existsb_app. simpl. rewrite String.eqb_refl.
  apply orb_true_iff. right. reflexivity.
Qed.

Lemma includesName_prefix names names' x :
  names `prefix_of` names' -> includesName names x = true -> includesName names' x = true.
Proof. intros [more ->]. apply includesName_app. Qed.

Lemma someForeignKey_app fks more x :
  someForeignKey fks x = true -> someForeignKey (fks ++ more) x = true.
Proof. unfold someForeignKey. rewrite existsb_app. intros ->. reflexivity. Qed.

Lemma someForeignKey_prefix fks fks' x :
  fks `prefix_of` fks' -> someForeignKey fks x = true -> someForeignKey fks' x = true.
Proof. intros [more ->]. apply someForeignKey_app. Qed.

Lemma parseColumn_foreignKeys st m :
  foreignKeys st `prefix_of` foreignKeys (parseColumn st m).
Proof.
  unfold parseColumn.
  repeat match goal with
         | |- context [if ?b then _ else _] => destruct b
         | |- context [match search ?r ?s with _ => _ end] => destruct (search r s)
         end; simpl;
    repeat (apply prefix_app_r); reflexivity.
Qed.

Lemma parseClause_foreignKeys st line :
  foreignKeys st `prefix_of` foreignKeys (parseClause st line).
Proof.
  unfold parseClause.
  destruct (isPrimaryKeyClause line).
  - destruct (search primaryKeyListRegex line); reflexivity.
  - destruct (Js.includes line "REFERENCES").
    + destruct (search inlineForeignKeyRegex line); simpl; [apply prefix_app_r; reflexivity|].
      destruct (search tableForeignKeyRegex line); simpl;
        [apply prefix_app_r|]; reflexivity.
    + destruct (negb _); [|reflexivity].
      destruct (search columnRegex line); [apply parseColumn_foreignKeys|reflexivity].
Qed.

Lemma flagged_grow st pks fks :
  flagged st ->
  primaryKeys st `prefix_of` pks -> foreignKeys st `prefix_of` fks ->
  flagged (Clauses (columns st) pks fks).
Proof.
  intros Hst Hp Hf column Hin. destruct (Hst column Hin) as [H1 H2]. simpl. split.
  - intros Hc. eapply includesName_prefix; eauto.
  - intros Hc. eapply someForeignKey_prefix; eauto.
Qed.

Lemma parseColumn_flagged st m : flagged st -> flagged (parseColumn st m).
Proof.
  intros Hst.
  pose proof (parseColumn_primaryKeys st m) as Hp.
  pose proof (parseColumn_foreignKeys st m) as Hf.
  intros column Hin.
  assert (Hcols : exists c, columns (parseColumn st m) = columns st ++ [c] /\
            (Column.isPrimary c = true ->
               includesName (primaryKeys (parseColumn st m)) (Column.name c) = true) /\
            (Column.isForeign c = true ->
               someForeignKey (foreignKeys (parseColumn st m)) (Column.name c) = true)).
  { clear. unfold parseColumn.
    set (columnName := captured m 1).
    destruct (if Js.includes _ "bigserial" then _ else _) as [columnType pks]. simpl.
    eexists. split; [reflexivity|]. simpl. split.
    - intros Hprimary. rewrite Hprimary. simpl.
      destruct (includesName pks columnName) eqn:E; simpl; [exact E|].
      apply includesName_last.
    - auto. }
  destruct Hcols as (c & Hcols & Hc1 & Hc2). rewrite Hcols in Hin.
  apply in_app_or in Hin as [Hin|[<-|[]]]; [|split; assumption].
  destruct (Hst column Hin) as [H1 H2]. split.
  - intros Hc. eapply includesName_prefix; eauto.
  - intros Hc. eapply someForeignKey_prefix; eauto.
Qed.

Lemma parseClause_flagged st line : flagged st -> flagged (parseClause st line).
Proof.
  intros Hst. unfold parseClause.
  destruct (isPrimaryKeyClause line).
  - destruct (search primaryKeyListRegex line); [|exact Hst].
    apply flagged_grow; [exact Hst|apply prefix_app_r|]; reflexivity.
  - destruct (Js.includes line "REFERENCES").
    + destruct (search inlineForeignKeyRegex line).
      * apply flagged_grow; [exact Hst| |apply prefix_app_r]; reflexivity.
      * destruct (search tableForeignKeyRegex line); [|exact Hst].
        apply flagged_grow; [exact Hst| |apply prefix_app_r]; reflexivity.
    + destruct (negb _); [|exact Hst].
      destruct (search columnRegex line); [apply parseColumn_flagged, Hst|exact Hst].
Qed.

Lemma fold_parseClause_flagged lines : forall st,
  flagged st -> flagged (fold_left parseClause lines st).
Proof.
  induction lines as [|line lines IH]; intros st Hst; simpl; [exact Hst|].
  apply IH, parseClause_flagged, Hst.
Qed.

Lemma someForeignKey_exists fks x :
  someForeignKey fks x = true ->
  exists fk, In fk fks /\ ForeignKey.column fk = x.
Proof.
  unfold someForeignKey. intros Hsome. apply existsb_exists in Hsome as (fk & Hin & Heq).
  apply String.eqb_eq in Heq. eauto.
Qed.

(** The table [parseTableDefinitionRegex] returns has both flags right. *)
Lemma parseTableDefinitionRegex_flagged name def table :
  parseTableDefinitionRegex name def = Some table ->
  primaryFlagged table /\ foreignFlagged table.
Proof.
  intros [= <-]. set (st := fold_left parseClause _ _).
  assert (Hst : flagged st).
  { apply fold_parseClause_flagged. intros column []. }
  split.
  - intros column Hin. simpl in *. apply in_map_iff in Hin as (c0 & <- & Hin0). simpl.
    destruct (includesName (primaryKeys st) (Column.name c0)) eqn:E; [reflexivity|].
    destruct (Column.isPrimary c0) eqn:Ep; [|reflexivity].
    apply (Hst c0 Hin0) in Ep. congruence.
  - intros column Hin Hflag. simpl in *. apply in_map_iff in Hin as (c0 & <- & Hin0).
    simpl in *.
    assert (Hsome : someForeignKey (foreignKeys st) (Column.name c0) = true).
    { destruct (someForeignKey (foreignKeys st) (Column.name c0)) eqn:E; [reflexivity|].
      apply (Hst c0 Hin0) in Hflag. congruence. }
    apply someForeignKey_exists in Hsome as (fk & Hfk & Heq).
    exists fk. split; [exact Hfk|]. rewrite Heq. reflexivity.
Qed.

Lemma In_alter {A} (f : A -> A) j (l : list A) x :
  In x (alter f j l) -> In x l \/ exists y, l !! j = Some y /\ x = f y.
Proof.
  revert j. induction l as [|a l IH]; intros j; [intros []|].
  destruct j as [|j]; simpl.
  - intros [<-|Hin]; [right; eauto|left; right; exact Hin].
  - intros [<-|Hin]; [left; left; reflexivity|].
    apply IH in Hin as [Hin|(y & Hy & ->)]; [left; right; exact Hin|right; eauto].
Qed.

Lemma pushForeignKey_flagged fk table :
  primaryFlagged table /\ foreignFlagged table ->
  primaryFlagged (pushForeignKey fk table) /\ foreignFlagged (pushForeignKey fk table).
Proof.
  intros [Hp Hf]. unfold primaryFlagged, foreignFlagged, pushForeignKey. simpl.
  destruct (findIndex (sameColumn (ForeignKey.column fk)) (Table.columns table))
    as [j|] eqn:Hfind.
  - apply findIndex_Some in Hfind as (c & Hc & Hsame).
    split.
    + intros column Hin. apply In_alter in Hin as [Hin|(y & Hy & ->)]; [apply Hp, Hin|].
      simpl. apply Hp. apply list_elem_of_In, list_elem_of_lookup. eauto.
    + intros column Hin Hflag. apply In_alter in Hin as [Hin|(y & Hy & ->)].
      * destruct (Hf column Hin Hflag) as (fk0 & Hfk0 & Heq).
        exists fk0. split; [apply in_or_app; left; exact Hfk0|exact Heq].
      * exists fk. split; [apply in_or_app; right; left; reflexivity|].
        rewrite Hc in Hy. injection Hy as <-. simpl.
        unfold sameColumn in Hsame. apply String.eqb_eq in Hsame. symmetry. exact Hsame.
  - split; [exact Hp|]. intros column Hin Hflag.
    destruct (Hf column Hin Hflag) as (fk0 & Hfk0 & Heq).
    exists fk0. split; [apply in_or_app; left; exact Hfk0|exact Heq].
Qed.

Lemma parsed_flagged sql :
  Forall (fun table => primaryFlagged table /\ foreignFlagged table) (fst (parsed sql)).
Proof.
  apply (parsed_inv
           (fun st => Forall (fun table => primaryFlagged table /\ foreignFlagged table)
                        (fst st))); simpl.
  - intros tables rels name def t Hst Ht. apply Forall_app. split; [exact Hst|].
    constructor; [|constructor]. eapply parseTableDefinitionRegex_flagged, Ht.
  - intros tables rels pos t ref [fromColumn toColumn] Hst _. simpl.
    apply Forall_alter; [exact Hst|]. intros t0 _. apply pushForeignKey_flagged.
  - constructor.
Qed.

Lemma schema_flagged sql :
  Forall (fun table => primaryFlagged table /\ foreignFlagged table)
    (Schema.tables (fallbackRegexParsing sql)).
Proof.
  rewrite fallbackRegexParsing_parsed. simpl. pose proof (parsed_flagged sql) as Hparsed.
  apply Forall_lookup. intros k final Hk.
  apply associateIndexes_lookup in Hk as (t & Ht & _ & Hcols & Hpks & Hfks & _).
  rewrite Forall_lookup in Hparsed. destruct (Hparsed _ _ Ht) as [Hp Hf].
  unfold primaryFlagged, foreignFlagged. rewrite Hcols, Hpks, Hfks. auto.
Qed.

(** X3: in every table of the returned schema a column has [isPrimary] set
    exactly when its name is one of [primaryKeys]. *)
Theorem primary_flags_match_primary_keys (sql : string) :
  exists schema,
    parseSQL sql = Return schema /\
    forall table column,
      In table (Schema.tables schema) -> In column (Table.columns table) ->
      Column.isPrimary column =
        includesName (Table.primaryKeys table) (Column.name column).
Proof.
  exists (fallbackRegexParsing sql). split; [reflexivity|].
  intros table column Htable Hcolumn.
  pose proof (schema_flagged sql) as Hall. rewrite Forall_forall in Hall.
  apply list_elem_of_In in Htable. apply (Hall table Htable), Hcolumn.
Qed.

(** X4: in every table of the returned schema a column with [isForeign] set
    is, up to case, the column of one of [foreignKeys]. *)
Theorem foreign_flags_have_foreign_keys (sql : string) :
  exists schema,
    parseSQL sql = Return schema /\
    forall table column,
      In table (Schema.tables schema) -> In column (Table.columns table) ->
      Column.isForeign column = true ->
      exists fk, In fk (Table.foreignKeys table) /\
        Js.toLowerCase (ForeignKey.column fk) = Js.toLowerCase (Column.name column).
Proof.
  exists (fallbackRegexParsing sql). split; [reflexivity|].
  intros table column Htable Hcolumn.
  pose proof (schema_flagged sql) as Hall. rewrite Forall_forall in Hall.
  apply list_elem_of_In in Htable. apply (Hall table Htable), Hcolumn.
Qed.

(** *** What the later statements leave of a table *)

Lemma completes_refl t : completes t t.
Proof. unfold completes. split; [|split; [|split]]; reflexivity. Qed.

Lemma completes_trans t1 t2 t3 : completes t1 t2 -> completes t2 t3 -> completes t1 t3.
Proof.
  intros (Hn1 & Hp1 & Hc1 & Hf1) (Hn2 & Hp2 & Hc2 & Hf2).
  unfold completes. split; [|split; [|split]]; try congruence.
  etransitivity; eauto.
Qed.

Lemma completesAll_refl tables : completesAll tables tables.
Proof. intros pos t Ht. exists t. split; [exact Ht|apply completes_refl]. Qed.

Lemma completesAll_trans l1 l2 l3 :
  completesAll l1 l2 -> completesAll l2 l3 -> completesAll l1 l3.
Proof.
  intros H12 H23 pos t Ht. destruct (H12 _ _ Ht) as (t2 & Ht2 & Hs2).
  destruct (H23 _ _ Ht2) as (t3 & Ht3 & Hs3). exists t3. split; [exact Ht3|].
  eapply completes_trans; eauto.
Qed.

Lemma completesAll_alter (f : Table.t -> Table.t) pos tables :
  (forall t, completes t (f t)) -> completesAll tables (alter f pos tables).
Proof.
  intros Hf p t Ht. destruct (decide (pos = p)) as [-> |Hne].
  - rewrite list_lookup_alter_eq, Ht. simpl. eexists. split; [reflexivity|apply Hf].
  - rewrite list_lookup_alter_ne by exact Hne. exists t. split; [exact Ht|apply completes_refl].
Qed.

Lemma completes_pushForeignKey fk t : completes t (pushForeignKey fk t).
Proof.
  unfold completes. split; [|split; [|split]]; simpl; try reflexivity.
  - destruct (findIndex _ _) as [j|]; [|reflexivity].
    apply map_alter_same. intros c. reflexivity.
  - apply prefix_app_r. reflexivity.
Qed.

Lemma completes_pushIndex idx t : completes t (pushIndex idx t).
Proof. unfold completes. split; [|split; [|split]]; reflexivity. Qed.

Lemma completesAll_alterPass re sql st : completesAll (fst st) (fst (alterPass re sql st)).
Proof.
  apply (alterPass_inv (fun st' => completesAll (fst st) (fst st')));
    [|apply completesAll_refl].
  intros tables rels pos t ref [fromColumn toColumn] Hst _. simpl in *.
  eapply completesAll_trans; [exact Hst|].
  apply completesAll_alter. intros t0. apply completes_pushForeignKey.
Qed.

Lemma completesAll_associateIndexes entries : forall tables,
  completesAll tables (associateIndexesWithTables tables entries).
Proof.
  unfold associateIndexesWithTables.
  induction entries as [|e es IH]; intros tables; simpl; [apply completesAll_refl|].
  eapply completesAll_trans; [|apply IH].
  destruct (findIndex _ _) as [i|]; [|apply completesAll_refl].
  apply completesAll_alter. intros t. apply completes_pushIndex.
Qed.

(** X5: the table the returned schema has for the [k]-th CREATE TABLE
    statement is the table [parseTableDefinitionRegex] builds from it, but
    for what the ALTER TABLE and CREATE INDEX statements add: foreign keys
    at the end, [isForeign] flags and indexes.  Its name, its primary keys
    and the names, types, nullability and [isPrimary] flags of its columns
    are untouched. *)
Theorem later_statements_complete_tables (sql : string) (k : nat) (m : result) :
  exec_all createTableRegex sql !! k = Some m ->
  exists schema table final,
    parseSQL sql = Return schema /\
    parseTableDefinitionRegex (captured m 1) (captured m 2) = Some table /\
    Schema.tables schema !! k = Some final /\
    completes table final.
Proof.
  intros Hk. exists (fallbackRegexParsing sql).
  cut (exists table final,
         parseTableDefinitionRegex (captured m 1) (captured m 2) = Some table /\
         Schema.tables (fallbackRegexParsing sql) !! k = Some final /\
         completes table final).
  { intros (table & final & Hrest). exists table, final. split; [reflexivity|exact Hrest]. }
  rewrite fallbackRegexParsing_parsed. simpl. unfold parsed.
  destruct (fold_addTable_tables (exec_all createTableRegex sql) ([], []))
    as (tables & Heq & Hall).
  destruct (fold_left addTable _ _) as [tables0 rels0]. simpl in Heq. subst tables0.
  destruct (Forall2_lookup_l _ _ _ _ _ Hall Hk) as (table & Htable & Hof).
  unfold parseAlterTableForeignKeys.
  pose proof (completesAll_alterPass alterFkRegex sql (tables, rels0)) as K1.
  pose proof (completesAll_alterPass alterFkRegex2 sql
                (alterPass alterFkRegex sql (tables, rels0))) as K2.
  pose proof (completesAll_associateIndexes (extractIndexes sql)
                (fst (alterPass alterFkRegex2 sql (alterPass alterFkRegex sql (tables, rels0)))))
    as K3.
  destruct (completesAll_trans _ _ _ (completesAll_trans _ _ _ K1 K2) K3 _ _ Htable)
    as (final & Hfinal & Hsame).
  exists table, final. split; [exact Hof|]. split; assumption.
Qed.

Lemma later_statements_witness :
  exists m schema table final,
    exec_all createTableRegex alterInput !! 1 = Some m /\
    parseSQL alterInput = Return schema /\
    parseTableDefinitionRegex (captured m 1) (captured m 2) = Some table /\
    Schema.tables schema !! 1 = Some final /\
    Table.foreignKeys table `prefix_of` Table.foreignKeys final.
Proof.
  destruct (exec_all createTableRegex alterInput !! 1) as [m|] eqn:Hm;
    [|vm_compute in Hm; discriminate Hm].
  destruct (later_statements_complete_tables alterInput 1 m Hm)
    as (schema & table & final & Hschema & Htable & Hfinal & Hcompletes).
  exists m, schema, table, final. repeat split; try assumption. apply Hcompletes.
Defined.

End FlagFacts.

(** ** The clauses of a table body *)

Module SplitFacts.
Import Regex SQLParser ParserSpec SchemaSpec RegexFacts ClauseFacts ParserFacts.

(** *** [trim] *)

Lemma trimStart_head s : headFails Js.is_space (Js.trimStart s) = true.
Proof.
  induction s as [|a s IH]; [reflexivity|]. simpl.
  destruct (Js.is_space a) eqn:Ha; [exact IH|]. simpl. rewrite Ha. reflexivity.
Qed.

Lemma trimEnd_head s :
  headFails Js.is_space s = true -> headFails Js.is_space (Js.trimEnd s) = true.
Proof.
  destruct s as [|a s]; [reflexivity|]. simpl. intros Ha. apply negb_true_iff in Ha.
  rewrite Ha. destruct (Js.trimEnd s); simpl; rewrite Ha; reflexivity.
Qed.

Lemma trimEnd_idempotent s : Js.trimEnd (Js.trimEnd s) = Js.trimEnd s.
Proof.
  induction s as [|a s IH]; [reflexivity|]. simpl.
  destruct (Js.trimEnd s) as [|b t] eqn:E.
  - destruct (Js.is_space a) eqn:Ha; [reflexivity|]. simpl. rewrite Ha. reflexivity.
  - change (Js.trimEnd (String a (String b t))) with
      (match Js.trimEnd (String b t) with
       | EmptyString => if Js.is_space a then EmptyString else String a EmptyString
       | t' => String a t'
       end).
    rewrite IH. reflexivity.
Qed.

(** [trim] leaves a trimmed string as it is. *)
Lemma trim_idempotent s : Js.trim (Js.trim s) = Js.trim s.
Proof.
  unfold Js.trim.
  rewrite (trimStart_tight (Js.trimEnd (Js.trimStart s)))
    by apply trimEnd_head, trimStart_head.
  apply trimEnd_idempotent.
Qed.

Lemma trimEnd_nonblank a s : Js.is_space a = false -> Js.trimEnd (String a s) <> EmptyString.
Proof. simpl. intros ->. destruct (Js.trimEnd s); discriminate. Qed.

(** A string with a character that is no white space does not trim to the
    empty string. *)
Lemma trim_nonblank s : every Js.is_space s = false -> Js.trim s <> EmptyString.
Proof.
  unfold Js.trim. induction s as [|a s IH]; simpl; [discriminate|].
  destruct (Js.is_space a) eqn:Ha; simpl; [exact IH|].
  intros _. apply trimEnd_nonblank, Ha.
Qed.

(** *** [splitByCommaRespectingParentheses] *)

Lemma splitLoop_trimmed text : forall result current count piece,
  (forall p, In p result -> Js.trim p = p) ->
  In piece (splitLoop text result current count) -> Js.trim piece = piece.
Proof.
  induction text as [|char text IH]; intros result current count piece Hresult; simpl.
  - destruct (String.eqb _ _); [apply Hresult|].
    intros Hin. apply in_app_or in Hin as [Hin|[<-|[]]];
      [apply Hresult, Hin|apply trim_idempotent].
  - destruct (Ascii.eqb char "("); [apply IH, Hresult|].
    destruct (Ascii.eqb char ")"); [apply IH, Hresult|].
    destruct (Ascii.eqb char "," && (count =? 0)%Z); [|apply IH, Hresult].
    apply IH. intros p Hin. apply in_app_or in Hin as [Hin|[<-|[]]];
      [apply Hresult, Hin|apply trim_idempotent].
Qed.

(** X6: every clause [splitByCommaRespectingParentheses] returns is trimmed:
    it neither starts nor ends with white space. *)
Theorem split_clauses_are_trimmed (text piece : string) :
  In piece (splitByCommaRespectingParentheses text) -> Js.trim piece = piece.
Proof.
  unfold splitByCommaRespectingParentheses. apply splitLoop_trimmed. intros p [].
Qed.

Lemma split_clauses_trimmed_witness :
  In "price DECIMAL(10,2)" (splitByCommaRespectingParentheses typedColumns) /\
  Js.trim "price DECIMAL(10,2)" = "price DECIMAL(10,2)".
Proof.
  assert (Hin : In "price DECIMAL(10,2)" (splitByCommaRespectingParentheses typedColumns))
    by (vm_compute; right; left; reflexivity).
  split; [exact Hin|].
  exact (split_clauses_are_trimmed typedColumns "price DECIMAL(10,2)" Hin).
Defined.

Lemma splitLoop_plain w : forall rst result current count,
  every plainChar w = true ->
  splitLoop (w +:+ rst) result current count =
  splitLoop rst result (current +:+ w) count.
Proof.
  induction w as [|a w IH]; intros rst result current count Hw.
  - rewrite append_empty. reflexivity.
  - simpl in Hw. apply andb_true_iff in Hw as [Ha Hw].
    unfold plainChar in Ha. apply andb_true_iff in Ha as [Ha Hcomma].
    apply andb_true_iff in Ha as [Hopen Hclose].
    apply negb_true_iff in Hopen, Hclose, Hcomma.
    rewrite append_cons. simpl. rewrite Hopen, Hclose, Hcomma. simpl.
    rewrite IH by exact Hw. unfold pushChar. rewrite append_assoc. reflexivity.
Qed.

Lemma splitLoop_inside w : forall rst result current count,
  every notParenthesis w = true -> count <> 0%Z ->
  splitLoop (w +:+ rst) result current count =
  splitLoop rst result (current +:+ w) count.
Proof.
  induction w as [|a w IH]; intros rst result current count Hw Hcount.
  - rewrite append_empty. reflexivity.
  - simpl in Hw. apply andb_true_iff in Hw as [Ha Hw].
    unfold notParenthesis in Ha. apply andb_true_iff in Ha as [Hopen Hclose].
    apply negb_true_iff in Hopen, Hclose.
    rewrite append_cons. simpl. rewrite Hopen, Hclose.
    apply Z.eqb_neq in Hcount. rewrite Hcount, andb_false_r.
    rewrite IH by (try exact Hw; apply Z.eqb_neq, Hcount).
    unfold pushChar. rewrite append_assoc. reflexivity.
Qed.

(** X7: a clause whose commas all stand inside one pair of parentheses is not
    split: it comes back whole, trimmed. *)
Theorem split_keeps_parenthesised_commas (head inner tail : string) :
  every plainChar head = true ->
  every notParenthesis inner = true ->
  every plainChar tail = true ->
  let clause := head +:+ "(" +:+ inner +:+ ")" +:+ tail in
  splitByCommaRespectingParentheses clause = [Js.trim clause].
Proof.
  intros Hhead Hinner Htail clause. unfold splitByCommaRespectingParentheses.
  subst clause.
  rewrite splitLoop_plain by exact Hhead.
  change ("(" +:+ inner +:+ ")" +:+ tail) with (String "(" (inner +:+ ")" +:+ tail)).
  cbn [splitLoop]. change (Ascii.eqb "(" "(") with true. cbv iota.
  rewrite splitLoop_inside by (try exact Hinner; discriminate).
  change (")" +:+ tail) with (String ")" tail).
  cbn [splitLoop]. change (Ascii.eqb ")" "(") with false. change (Ascii.eqb ")" ")") with true.
  cbv iota.
  rewrite <- (append_empty tail) at 1. rewrite splitLoop_plain by exact Htail.
  cbn [splitLoop]. unfold pushChar.
  set (current := (((("" +:+ head) +:+ "(") +:+ inner) +:+ ")") +:+ tail).
  assert (Hcurrent : current = head +:+ "(" +:+ inner +:+ ")" +:+ tail).
  { subst current. change ("" +:+ head) with head. rewrite !append_assoc. reflexivity. }
  rewrite Hcurrent.
  destruct (String.eqb_spec (Js.trim (head +:+ "(" +:+ inner +:+ ")" +:+ tail)) "")
    as [Hblank|_]; [|reflexivity].
  exfalso. revert Hblank. apply trim_nonblank.
  rewrite every_append. change ("(" +:+ inner +:+ ")" +:+ tail)
    with (String "(" (inner +:+ ")" +:+ tail)).
  simpl. apply andb_false_r.
Qed.

Lemma split_keeps_commas_witness :
  splitByCommaRespectingParentheses "price DECIMAL(10,2) NOT NULL" =
  ["price DECIMAL(10,2) NOT NULL"].
Proof.
  exact (split_keeps_parenthesised_commas "price DECIMAL" "10,2" " NOT NULL"
           eq_refl eq_refl eq_refl).
Defined.

End SplitFacts.

(** ** Statements and names *)

Module StatementFacts.
Import Regex SQLParser ParserSpec SchemaSpec RegexFacts ClauseFacts ParserFacts SplitFacts.

(** *** A match ends where its continuation starts *)

Lemma rmatch_reaches (r : regex) : forall k c cs res,
  rmatch r k c cs = Some res ->
  exists c' cs' w, k c' cs' = Some res /\ rest c = w +:+ rest c'.
Proof.
  induction r as [|p|r1 IH1 r2 IH2|r1 IH1 r2 IH2|greedy r1 IH1|i r1 IH1| | |];
    intros k c cs res; simpl.
  - intros Hk. exists c, cs, EmptyString. auto.
  - destruct (rest c) as [|a s'] eqn:E; [discriminate|].
    destruct (p a); [|discriminate]. intros Hk.
    exists (Cursor (Some a) s'), cs, (String a EmptyString). auto.
  - intros H1. apply IH1 in H1 as (c1 & cs1 & w1 & H2 & E1).
    apply IH2 in H2 as (c2 & cs2 & w2 & Hk & E2).
    exists c2, cs2, (w1 +:+ w2). split; [exact Hk|]. rewrite E1, E2, append_assoc. reflexivity.
  - destruct (rmatch r1 k c cs) as [res1|] eqn:E1.
    + intros [= <-]. apply IH1 in E1. exact E1.
    + intros E2. apply IH2 in E2. exact E2.
  - generalize (S (remaining c)) as n. intros n. revert c cs.
    induction n as [|n IHn]; intros c cs.
    + intros Hk. exists c, cs, EmptyString. auto.
    + rewrite star_loop_S. cbv zeta. intros Hloop.
      assert (Hcases : k c cs = Some res \/
                rmatch r1 (fun c' cs' =>
                   if (remaining c' <? remaining c)%nat
                   then star_loop greedy (rmatch r1) k n c' cs' else None) c cs = Some res).
      { destruct greedy.
        - destruct (rmatch r1 _ c cs) as [res1|]; [right|left]; congruence.
        - destruct (k c cs) as [res1|]; [left|right]; congruence. }
      destruct Hcases as [Hk|Hstep].
      * exists c, cs, EmptyString. auto.
      * apply IH1 in Hstep as (c1 & cs1 & w1 & Hagain & E1).
        destruct (remaining c1 <? remaining c)%nat; [|discriminate].
        apply IHn in Hagain as (c2 & cs2 & w2 & Hk & E2).
        exists c2, cs2, (w1 +:+ w2). split; [exact Hk|].
        rewrite E1, E2, append_assoc. reflexivity.
  - intros H1. apply IH1 in H1 as (c1 & cs1 & w1 & Hk & E1). eauto.
  - destruct (before c); [discriminate|]. intros Hk. exists c, cs, EmptyString. auto.
  - destruct (rest c) eqn:E; [|discriminate]. intros Hk. exists c, cs, EmptyString.
    rewrite E. auto.
  - destruct (xorb _ _); [|discriminate]. intros Hk. exists c, cs, EmptyString. auto.
Qed.

(** *** [extractCreateTableStatements] *)

Lemma createTable_match_end c res :
  match_here createTableRegex c = Some res ->
  exists w, consumed c (fst res) = w +:+ ");".
Proof.
  unfold match_here.
  change createTableRegex with (seq (createTableHead ++ [chr ")"; chr ";"])).
  rewrite rmatch_seq_app. intros Hmatch.
  apply rmatch_reaches in Hmatch as (c1 & cs1 & w & Htail & Hrest).
  change (seq [chr ")"; chr ";"]) with (Seq (chr ")") (chr ";")) in Htail.
  rewrite rmatch_Seq in Htail. destruct c1 as [prev1 rest1]. simpl in Hrest.
  destruct rest1 as [|a rest1]; [discriminate Htail|].
  unfold chr in Htail at 1. rewrite rmatch_Chr_cons in Htail.
  destruct (Ascii.eqb_spec ")" a) as [<-|]; [|discriminate].
  destruct rest1 as [|b r']; [discriminate Htail|].
  unfold chr in Htail. rewrite rmatch_Chr_cons in Htail.
  destruct (Ascii.eqb_spec ";" b) as [<-|]; [|discriminate].
  unfold accept in Htail. injection Htail as <-. exists w. unfold consumed, remaining. simpl.
  rewrite Hrest.
  replace (String.length (w +:+ String ")" (String ";" r')) - String.length r')%nat
    with (String.length (w +:+ ");")).
  - replace (w +:+ String ")" (String ";" r')) with ((w +:+ ");") +:+ r')
      by (rewrite append_assoc; reflexivity).
    apply take_append.
  - rewrite !append_length. simpl. lia.
Qed.

Lemma trimEnd_last w a :
  Js.is_space a = false ->
  Js.trimEnd (w +:+ String a EmptyString) = w +:+ String a EmptyString.
Proof.
  intros Ha. induction w as [|c w IH]; simpl.
  - rewrite Ha. reflexivity.
  - change ((fix append (s1 s2 : string) {struct s1} : string :=
               match s1 with
               | EmptyString => s2
               | String c s1' => String c (append s1' s2)
               end) w (String a EmptyString)) with (w +:+ String a EmptyString).
    rewrite IH. destruct w; reflexivity.
Qed.

Lemma trimStart_keeps_end w : exists w', Js.trimStart (w +:+ ");") = w' +:+ ");".
Proof.
  induction w as [|c w IH].
  - exists EmptyString. reflexivity.
  - rewrite append_cons. simpl. destruct (Js.is_space c); [exact IH|].
    exists (String c w). reflexivity.
Qed.

Lemma endsWith_append w suffix : endsWith (w +:+ suffix) suffix = true.
Proof.
  induction w as [|c w IH].
  - change (EmptyString +:+ suffix) with suffix.
    destruct suffix; [reflexivity|]. cbn [endsWith]. rewrite String.eqb_refl. reflexivity.
  - rewrite append_cons. cbn [endsWith]. rewrite IH. apply orb_true_r.
Qed.

Lemma statement_complete w : endsWith (Js.trim (w +:+ ");")) ");" = true.
Proof.
  unfold Js.trim. destruct (trimStart_keeps_end w) as (w' & ->).
  replace (w' +:+ ");") with ((w' +:+ ")") +:+ ";") by (rewrite append_assoc; reflexivity).
  rewrite trimEnd_last by reflexivity.
  rewrite append_assoc. apply endsWith_append.
Qed.

(** X8: [extractCreateTableStatements] keeps every statement the pattern finds:
    a match ends with its [);], so the test for a complete statement never
    fails. *)
Theorem extractCreateTableStatements_keeps_every_match (sql : string) :
  extractCreateTableStatements sql = map matched (exec_all createTableRegex sql).
Proof.
  unfold extractCreateTableStatements.
  assert (Hall : forall m, In m (exec_all createTableRegex sql) ->
            endsWith (Js.trim (matched m)) ");" = true).
  { intros m Hm. unfold exec_all in Hm.
    apply scan_sound in Hm as (c & res & _ & Hres & ->).
    apply createTable_match_end in Hres as (w & Hw). simpl. rewrite Hw.
    apply statement_complete. }
  assert (Hfold : forall ms statements,
            (forall m, In m ms -> endsWith (Js.trim (matched m)) ");" = true) ->
            fold_left
              (fun statements m =>
                 let fullStatement := matched m in
                 if endsWith (Js.trim fullStatement) ");" then statements ++ [fullStatement]
                 else statements) ms statements = statements ++ map matched ms).
  { induction ms as [|m ms IH]; intros statements Hms; simpl.
    - rewrite app_nil_r. reflexivity.
    - rewrite Hms by (left; reflexivity).
      rewrite IH by (intros m' Hm'; apply Hms; right; exact Hm').
      rewrite <- app_assoc. reflexivity. }
  apply (Hfold _ [] Hall).
Qed.

(** *** Names without quotes *)

Lemma replace_class_removed p s : forall prev,
  every (fun c => negb (p c)) (replace_from (Chr p) "" prev s 0) = true.
Proof.
  induction s as [|a s IH]; intros prev; [reflexivity|].
  simpl. unfold match_here. rewrite rmatch_Chr_cons.
  destruct (p a) eqn:Ha.
  - unfold accept, remaining. simpl.
    replace (S (String.length s) - String.length s)%nat with 1%nat by lia.
    apply IH.
  - simpl. rewrite Ha. simpl. apply IH.
Qed.

Lemma cleanName_unquoted col : unquoted (cleanName col) = true.
Proof. unfold unquoted, cleanName, replace, one_of. apply replace_class_removed. Qed.

Lemma splitNames_unquoted str name : In name (splitNames str) -> unquoted name = true.
Proof.
  unfold splitNames. intros Hin. apply in_map_iff in Hin as (piece & <- & _).
  apply cleanName_unquoted.
Qed.

(** X9: the column names of the indexes of the returned schema have no quote,
    double quote or backquote left. *)
Theorem index_columns_are_unquoted (sql : string) :
  exists schema,
    parseSQL sql = Return schema /\
    forall table idx column,
      In table (Schema.tables schema) -> In idx (Table.indexes table) ->
      In column (Index.columns idx) -> unquoted column = true.
Proof.
  exists (fallbackRegexParsing sql). split; [reflexivity|].
  rewrite fallbackRegexParsing_parsed. simpl. intros table idx column Htable Hidx Hcolumn.
  apply list_elem_of_In, list_elem_of_lookup in Htable as (k & Hk).
  apply associateIndexes_lookup in Hk as (t & Ht & _ & _ & _ & _ & Hi).
  pose proof (parsed_no_indexes sql) as Hnone. rewrite Forall_lookup in Hnone.
  rewrite (Hnone _ _ Ht) in Hi. simpl in Hi. rewrite Hi in Hidx.
  unfold indexesFor in Hidx. apply in_map_iff in Hidx as (e & <- & He).
  apply list_elem_of_In, list_elem_of_filter in He as [_ He].
  unfold extractIndexes in He. apply list_elem_of_In, in_map_iff in He as (m & <- & _).
  simpl in Hcolumn. eapply splitNames_unquoted, Hcolumn.
Qed.

End StatementFacts.

(** ** The levels of the hierarchical layout *)

Module HierarchyFacts.
Import LayoutEngine LayoutSpec HierarchySpec.

Lemma size_list_to_set_le (l : list string) :
  (size (list_to_set l : gset string) <= length l)%nat.
Proof.
  induction l as [|a l IH].
  - rewrite list_to_set_nil, size_empty. simpl. lia.
  - rewrite list_to_set_cons. simpl length.
    destruct (decide (a ∈ (list_to_set l : gset string))) as [Hin|Hout].
    + rewrite (subseteq_union_1_L {[a]} (list_to_set l))
        by (apply singleton_subseteq_l, Hin).
      lia.
    + rewrite size_union by (apply disjoint_singleton_l, Hout).
      rewrite size_singleton. lia.
Qed.

Lemma size_list_to_set_lt (l : list string) :
  ~ NoDup l -> (size (list_to_set l : gset string) < length l)%nat.
Proof.
  induction l as [|a l IH]; intros Hdup.
  - exfalso. apply Hdup. constructor.
  - rewrite list_to_set_cons. simpl length. destruct (decide (a ∈ l)) as [Hin|Hout].
    + rewrite (subseteq_union_1_L {[a]} (list_to_set l))
        by (apply singleton_subseteq_l, elem_of_list_to_set, Hin).
      pose proof (size_list_to_set_le l). lia.
    + assert (Hl : ~ NoDup l) by (intros Hl; apply Hdup; constructor; assumption).
      apply IH in Hl.
      rewrite size_union
        by (apply disjoint_singleton_l; rewrite elem_of_list_to_set; exact Hout).
      rewrite size_singleton. lia.
Qed.

Section Levels.
Variable tables : list Table.t.
Variable deps : gmap string (gset string).

Local Abbreviation nextLevel := (HierarchySpec.nextLevel tables deps).

Lemma buildLevels_step fuel processedTables levels :
  buildLevels fuel tables deps processedTables levels =
  if (size processedTables <? length tables)%nat then
    match fuel with
    | O => None
    | S fuel' =>
        buildLevels fuel' tables deps
          (processedTables ∪ list_to_set (nextLevel processedTables))
          (levels ++ [nextLevel processedTables])
    end
  else Some levels.
Proof. destruct fuel; reflexivity. Qed.

Lemma nextLevel_names (processedTables : gset string) :
  (list_to_set (nextLevel processedTables) : gset string) ⊆ nameSet tables.
Proof.
  unfold nextLevel, nameSet.
  assert (Hsub : forall (p : Table.t -> bool),
            (list_to_set (map Table.name (filter p tables)) : gset string)
              ⊆ list_to_set (map Table.name tables)).
  { intros p x. rewrite !elem_of_list_to_set, !list_elem_of_fmap.
    intros (t & -> & Ht). apply list_elem_of_filter in Ht as [_ Ht]. eauto. }
  destruct (map Table.name (filter _ tables)) eqn:E.
  - apply Hsub.
  - rewrite <- E. apply Hsub.
Qed.

Lemma nextLevel_fresh (processedTables : gset string) name :
  name ∈ nextLevel processedTables -> name ∉ processedTables.
Proof.
  unfold nextLevel.
  assert (Hfresh : forall (p : Table.t -> bool),
            (forall t, p t = true -> has processedTables (Table.name t) = false) ->
            name ∈ map Table.name (filter p tables) -> name ∉ processedTables).
  { intros p Hp. rewrite list_elem_of_fmap. intros (t & -> & Ht).
    apply list_elem_of_filter in Ht as [Ht _]. apply Is_true_true in Ht.
    apply Hp in Ht. unfold has in Ht. apply bool_decide_eq_false in Ht. exact Ht. }
  destruct (map Table.name (filter _ tables)) eqn:E.
  - apply Hfresh. intros t Ht. apply negb_true_iff in Ht. exact Ht.
  - rewrite <- E. apply Hfresh. intros t Ht. apply andb_true_iff in Ht as [Ht _].
    apply negb_true_iff in Ht. exact Ht.
Qed.

(** A table not yet processed makes the next level non-empty. *)
Lemma nextLevel_progress (processedTables : gset string) table :
  table ∈ tables -> Table.name table ∉ processedTables ->
  nextLevel processedTables <> [].
Proof.
  intros Hin Hout. unfold nextLevel.
  destruct (map Table.name (filter _ tables)) eqn:E; [|discriminate].
  intros Hnil. apply fmap_nil_inv in Hnil.
  assert (Ht : table ∈ filter (fun table => negb (has processedTables (Table.name table)))
                 tables).
  { apply list_elem_of_filter. split; [|exact Hin].
    apply Is_true_true, negb_true_iff. unfold has. apply bool_decide_eq_false. exact Hout. }
  rewrite Hnil in Ht. apply not_elem_of_nil in Ht. exact Ht.
Qed.

Lemma unprocessed_table (processedTables : gset string) :
  NoDup (map Table.name tables) ->
  (size processedTables < length tables)%nat ->
  exists table, table ∈ tables /\ Table.name table ∉ processedTables.
Proof.
  intros Hnd Hsize.
  destruct (decide (Forall (fun t => Table.name t ∈ processedTables) tables)) as [Hall|Hex].
  - exfalso.
    assert (Hsub : nameSet tables ⊆ processedTables).
    { intros x. unfold nameSet. rewrite elem_of_list_to_set, list_elem_of_fmap.
      intros (t & -> & Ht). rewrite Forall_forall in Hall. apply Hall, Ht. }
    apply subseteq_size in Hsub. unfold nameSet in Hsub.
    rewrite size_list_to_set in Hsub by exact Hnd. rewrite length_map in Hsub. lia.
  - apply not_Forall_Exists in Hex; [|intros t; apply _].
    apply Exists_exists in Hex as (t & Ht & Hout). exists t. split; [exact Ht|exact Hout].
Qed.

Lemma size_grows (processedTables : gset string) :
  NoDup (map Table.name tables) ->
  (size processedTables < length tables)%nat ->
  (size processedTables <
   size (processedTables ∪ list_to_set (nextLevel processedTables)))%nat.
Proof.
  intros Hnd Hsize.
  destruct (unprocessed_table _ Hnd Hsize) as (t & Ht & Hout).
  pose proof (nextLevel_progress _ _ Ht Hout) as Hne.
  destruct (nextLevel processedTables) as [|name level] eqn:E; [contradiction|].
  assert (Hfresh : name ∉ processedTables).
  { apply nextLevel_fresh. rewrite E. apply list_elem_of_here. }
  assert (Hsub : processedTables ∪ {[name]} ⊆
                 processedTables ∪ list_to_set (name :: level)).
  { apply union_mono_l. rewrite list_to_set_cons. apply union_subseteq_l. }
  apply subseteq_size in Hsub.
  rewrite size_union in Hsub by (apply disjoint_singleton_r, Hfresh).
  rewrite size_singleton in Hsub. lia.
Qed.

(** With distinct names the loop ends within [length tables] rounds, and
    its levels hold every table. *)
Lemma buildLevels_terminates :
  NoDup (map Table.name tables) ->
  forall fuel (processedTables : gset string) levels,
    processedTables ⊆ nameSet tables ->
    processedTables = list_to_set (concat levels) ->
    (length tables - size processedTables <= fuel)%nat ->
    exists levels',
      buildLevels fuel tables deps processedTables levels = Some levels' /\
      nameSet tables = list_to_set (concat levels').
Proof.
  intros Hnd. induction fuel as [|fuel IH]; intros processedTables levels Hsub Hlevels Hfuel;
    rewrite buildLevels_step.
  - destruct (Nat.ltb_spec (size processedTables) (length tables)) as [Hlt|Hge]; [lia|].
    exists levels. split; [reflexivity|].
    rewrite <- Hlevels. symmetry. apply set_subseteq_size_eq; [exact Hsub|].
    unfold nameSet. rewrite size_list_to_set by exact Hnd. rewrite length_map. exact Hge.
  - destruct (Nat.ltb_spec (size processedTables) (length tables)) as [Hlt|Hge].
    + apply IH.
      * apply union_subseteq. split; [exact Hsub|apply nextLevel_names].
      * rewrite concat_app, list_to_set_app_L, <- Hlevels. simpl.
        rewrite app_nil_r. reflexivity.
      * pose proof (size_grows _ Hnd Hlt). lia.
    + exists levels. split; [reflexivity|].
      rewrite <- Hlevels. symmetry. apply set_subseteq_size_eq; [exact Hsub|].
      unfold nameSet. rewrite size_list_to_set by exact Hnd. rewrite length_map. exact Hge.
Qed.

(** With a repeated name the set of processed names stays smaller than the
    array of tables: the loop never ends. *)
Lemma buildLevels_diverges :
  ~ NoDup (map Table.name tables) ->
  forall fuel (processedTables : gset string) levels,
    processedTables ⊆ nameSet tables ->
    buildLevels fuel tables deps processedTables levels = None.
Proof.
  intros Hdup. induction fuel as [|fuel IH]; intros processedTables levels Hsub;
    rewrite buildLevels_step;
    assert (Hlt : (size processedTables < length tables)%nat)
      by (apply subseteq_size in Hsub; unfold nameSet in Hsub;
          pose proof (size_list_to_set_lt _ Hdup) as Hlt;
          rewrite length_map in Hlt; lia);
    apply Nat.ltb_lt in Hlt; rewrite Hlt; [reflexivity|].
  apply IH. apply union_subseteq. split; [exact Hsub|apply nextLevel_names].
Qed.

End Levels.

Section Places.
Context {N : Type} `{Number N}.
Variables (schema : Schema.t) (config : LayoutConfig N) (innerWidth : N).

Lemma indexed_names {A} (l : list A) : map snd (indexed l) = l.
Proof.
  unfold indexed. generalize 0%nat as start. induction l as [|a l IH]; intros start; simpl.
  - reflexivity.
  - rewrite IH. reflexivity.
Qed.

Lemma insert_fold_keys (f : nat -> string -> LayoutPosition N)
    (entries : list (nat * string)) :
  forall (positions : gmap string (LayoutPosition N)) name,
  is_Some (fold_left (fun (positions : gmap string (LayoutPosition N))
                          '(tableIndex, tableName) =>
                        <[tableName := f tableIndex tableName]> positions)
             entries positions !! name) <->
  is_Some (positions !! name) \/ name ∈ map snd entries.
Proof.
  induction entries as [|[tableIndex tableName] entries IH]; intros positions name; simpl.
  - rewrite elem_of_nil. tauto.
  - rewrite IH. rewrite elem_of_cons.
    destruct (decide (tableName = name)) as [->|Hne].
    + rewrite lookup_insert_eq. split; [auto|]. intros _. left. eauto.
    + rewrite lookup_insert_ne by exact Hne. split; [tauto|].
      intros [?|[?|?]]; [tauto|congruence|tauto].
Qed.

(** The keys a level adds are the names of the level. *)
Lemma placeLevel_keys positions entry name :
  is_Some (placeLevel config innerWidth positions entry !! name) <->
  is_Some (positions !! name) \/ name ∈ snd entry.
Proof.
  destruct entry as [levelIndex level]. unfold placeLevel. simpl snd.
  rewrite insert_fold_keys, indexed_names. reflexivity.
Qed.

Lemma placeLevels_keys entries : forall positions name,
  is_Some (fold_left (placeLevel config innerWidth) entries positions !! name) <->
  is_Some (positions !! name) \/ name ∈ concat (map snd entries).
Proof.
  induction entries as [|entry entries IH]; intros positions name; simpl.
  - rewrite elem_of_nil. tauto.
  - rewrite IH, placeLevel_keys, elem_of_app. tauto.
Qed.

Lemma initial_levels (tables roots : list Table.t) :
  (forall t, t ∈ roots -> t ∈ tables) ->
  let '(processedTables, levels) :=
    match roots with
    | [] => ((∅ : gset string), ([] : list (list string)))
    | _ => (list_to_set (map Table.name roots), [map Table.name roots])
    end in
  processedTables ⊆ nameSet tables /\ processedTables = list_to_set (concat levels).
Proof.
  intros Hsub. destruct roots as [|r roots].
  - split; [apply empty_subseteq|reflexivity].
  - split.
    + intros x. unfold nameSet. rewrite !elem_of_list_to_set, !list_elem_of_fmap.
      intros (t & -> & Ht). eauto.
    + simpl concat. rewrite app_nil_r. reflexivity.
Qed.

(** X10: with distinct table names [hierarchicalLayout] returns, within
    [length tables] rounds of its loop, and gives a position to every table
    and to nothing else. *)
Theorem hierarchicalLayout_places_every_table (tables : list Table.t) (fuel : nat) :
  NoDup (map Table.name tables) ->
  (length tables <= fuel)%nat ->
  exists positions,
    hierarchicalLayout schema config innerWidth fuel tables = Some positions /\
    forall name, is_Some (positions !! name) <-> name ∈ map Table.name tables.
Proof.
  intros Hnd Hfuel. unfold hierarchicalLayout.
  set (deps := dependencies schema tables).
  pose proof (initial_levels tables (filter (isRoot deps) tables)) as Hinit.
  destruct (match filter (isRoot deps) tables with
            | [] => _ | _ => _ end) as [processedTables levels].
  destruct Hinit as [Hsub Hlevels].
  { intros t Ht. apply list_elem_of_filter in Ht as [_ Ht]. exact Ht. }
  destruct (buildLevels_terminates tables deps Hnd fuel processedTables levels Hsub Hlevels)
    as (levels' & -> & Hnames); [lia|].
  eexists. split; [reflexivity|].
  intros name. rewrite placeLevels_keys, indexed_names, lookup_empty.
  rewrite <- (elem_of_list_to_set (C := gset string)), <- Hnames.
  unfold nameSet. rewrite elem_of_list_to_set.
  split; [intros [[? [=]]|?]; assumption|auto].
Qed.

(** X11: when two tables have the same name [hierarchicalLayout] never returns:
    its loop waits for as many processed names as there are tables. *)
Theorem hierarchicalLayout_hangs_on_repeated_name (tables : list Table.t) (fuel : nat) :
  ~ NoDup (map Table.name tables) ->
  hierarchicalLayout schema config innerWidth fuel tables = None.
Proof.
  intros Hdup. unfold hierarchicalLayout.
  set (deps := dependencies schema tables).
  pose proof (initial_levels tables (filter (isRoot deps) tables)) as Hinit.
  destruct (match filter (isRoot deps) tables with
            | [] => _ | _ => _ end) as [processedTables levels].
  destruct Hinit as [Hsub _].
  { intros t Ht. apply list_elem_of_filter in Ht as [_ Ht]. exact Ht. }
  rewrite (buildLevels_diverges tables deps Hdup fuel processedTables levels Hsub).
  reflexivity.
Qed.

End Places.

Lemma twoTables_distinct : NoDup (map Table.name twoTables).
Proof.
  apply NoDup_cons. split; [|apply NoDup_singleton].
  rewrite list_elem_of_singleton. discriminate.
Qed.

Lemma hierarchicalLayout_places_witness :
  exists positions,
    hierarchicalLayout twoTableSchema (defaultConfig (N := float)) (literal 1920) 2 twoTables
      = Some positions /\
    forall name, is_Some (positions !! name) <-> name ∈ map Table.name twoTables.
Proof.
  apply (hierarchicalLayout_places_every_table twoTableSchema defaultConfig (literal 1920)
           twoTables 2 twoTables_distinct).
  simpl. lia.
Defined.

Lemma hierarchicalLayout_hangs_witness :
  hierarchicalLayout twoTableSchema (defaultConfig (N := float)) (literal 1920) 1000
    sameNameTables = None.
Proof.
  apply (hierarchicalLayout_hangs_on_repeated_name twoTableSchema defaultConfig
           (literal 1920) sameNameTables 1000).
  intros Hnd. apply NoDup_cons in Hnd as [Hout _]. apply Hout. apply list_elem_of_here.
Defined.

End HierarchyFacts.

Module OrderFacts.
Import LayoutEngine LayoutSpec HierarchySpec HierarchyFacts.

Section Order.
Context {N : Type} `{Number N}.
Variables (schema : Schema.t) (config : LayoutConfig N) (innerWidth : N).
Variable tables : list Table.t.

Local Abbreviation dependsOn := (HierarchySpec.dependsOn schema).
Local Abbreviation ranked := (HierarchySpec.ranked schema tables).
Local Abbreviation ordered := (HierarchySpec.ordered schema).

Lemma dependencies_fold rels name : forall (deps0 : gmap string (gset string)) set0,
  deps0 !! name = Some set0 ->
  exists set,
    fold_left
      (fun deps rel =>
         match deps !! Relationship.from rel with
         | Some set => <[Relationship.from rel := set ∪ {[Relationship.to rel]}]> deps
         | None => deps
         end) rels deps0 !! name = Some set /\
    forall d, d ∈ set <->
      d ∈ set0 \/ exists rel, rel ∈ rels /\ Relationship.from rel = name /\
                              Relationship.to rel = d.
Proof.
  induction rels as [|rel rels IH]; intros deps0 set0 Hname; simpl.
  - exists set0. split; [exact Hname|]. intros d. split; [auto|].
    intros [?|(rel & Hrel & _)]; [assumption|]. apply not_elem_of_nil in Hrel. contradiction.
  - destruct (decide (Relationship.from rel = name)) as [Hfrom|Hfrom].
    + rewrite Hfrom, Hname.
      destruct (IH (<[name := set0 ∪ {[Relationship.to rel]}]> deps0)
                  (set0 ∪ {[Relationship.to rel]})) as (set & Hset & Hspec).
      { apply lookup_insert_eq. }
      exists set. split; [exact Hset|]. intros d. rewrite Hspec, elem_of_union, elem_of_singleton.
      split.
      * intros [[?| ->]|(r & Hr & ? & ?)]; [auto| |].
        -- right. exists rel. split; [apply list_elem_of_here|auto].
        -- right. exists r. split; [apply list_elem_of_further, Hr|auto].
      * intros [?|(r & Hr & Hf & Ht)]; [auto|].
        apply elem_of_cons in Hr as [-> |Hr]; [auto|]. right. eauto.
    + destruct (IH (match deps0 !! Relationship.from rel with
                    | Some set => <[Relationship.from rel := set ∪ {[Relationship.to rel]}]> deps0
                    | None => deps0
                    end) set0) as (set & Hset & Hspec).
      { destruct (deps0 !! Relationship.from rel); [|exact Hname].
        rewrite lookup_insert_ne by exact Hfrom. exact Hname. }
      exists set. split; [exact Hset|]. intros d. rewrite Hspec. split.
      * intros [?|(r & Hr & ? & ?)]; [auto|]. right. exists r.
        split; [apply list_elem_of_further, Hr|auto].
      * intros [?|(r & Hr & Hf & Ht)]; [auto|].
        apply elem_of_cons in Hr as [-> |Hr]; [congruence|]. right. eauto.
Qed.

Lemma initial_dependencies name : forall (deps0 : gmap string (gset string)) (ts : list Table.t),
  name ∈ map Table.name ts \/ deps0 !! name = Some ∅ ->
  fold_left (fun deps table => <[Table.name table := ∅]> deps) ts deps0 !! name = Some ∅.
Proof.
  intros deps0 ts. revert deps0. induction ts as [|t ts IH]; intros deps0; simpl.
  - intros [Hin|?]; [apply not_elem_of_nil in Hin; contradiction|assumption].
  - intros Hcase. apply IH.
    destruct (decide (Table.name t = name)) as [-> |Hne].
    + right. apply lookup_insert_eq.
    + rewrite lookup_insert_ne by exact Hne.
      destruct Hcase as [Hin|?]; [|auto].
      apply elem_of_cons in Hin as [?|?]; [congruence|auto].
Qed.

(** The dependencies of a table are the targets of its relationships. *)
Lemma dependencies_spec name :
  name ∈ map Table.name tables ->
  exists set, dependencies schema tables !! name = Some set /\
    forall d, d ∈ set <-> dependsOn name d.
Proof.
  intros Hname. unfold dependencies.
  destruct (dependencies_fold (Schema.relationships schema) name _ ∅
              (initial_dependencies name ∅ tables (or_introl Hname)))
    as (set & Hset & Hspec).
  exists set. split; [exact Hset|]. intros d. rewrite Hspec. unfold dependsOn.
  split; [intros [Hd|?]; [apply not_elem_of_empty in Hd; contradiction|assumption]|auto].
Qed.

Lemma isReady_spec (processedTables : gset string) table :
  table ∈ tables ->
  isReady (dependencies schema tables) processedTables table = true <->
  forall d, dependsOn (Table.name table) d -> d ∈ processedTables.
Proof.
  intros Hin.
  destruct (dependencies_spec (Table.name table)) as (set & Hset & Hspec).
  { apply list_elem_of_fmap. eauto. }
  unfold isReady. rewrite Hset, forallb_forall. split.
  - intros Hall d Hd. apply Hspec in Hd.
    specialize (Hall d). unfold has in Hall. rewrite bool_decide_eq_true in Hall.
    apply Hall. apply list_elem_of_In, elem_of_elements, Hd.
  - intros Hall d Hd. unfold has. apply bool_decide_eq_true, Hall, Hspec.
    apply elem_of_elements, list_elem_of_In, Hd.
Qed.


Lemma ranked_spec rank name d :
  ranked rank = true ->
  name ∈ map Table.name tables -> dependsOn name d ->
  (d ∈ map Table.name tables) /\ (rank d < rank name)%nat.
Proof.
  unfold ranked. rewrite forallb_forall. intros Hall Hname (rel & Hrel & <- & <-).
  specialize (Hall rel (proj1 (list_elem_of_In _ _) Hrel)).
  rewrite bool_decide_eq_true_2 in Hall by exact Hname.
  apply andb_true_iff in Hall as [Hto Hlt].
  apply bool_decide_eq_true in Hto. apply Nat.ltb_lt in Hlt. auto.
Qed.

Variable rank : string -> nat.
Hypothesis Hrank : ranked rank = true.
Hypothesis Hnames : NoDup (map Table.name tables).

Lemma forallb_false {A} (f : A -> bool) l :
  forallb f l = false -> exists x, In x l /\ f x = false.
Proof.
  induction l as [|a l IH]; simpl; [discriminate|].
  destruct (f a) eqn:Hfa; simpl.
  - intros Hl. apply IH in Hl as (x & Hx & Hfx). eauto.
  - intros _. eauto.
Qed.

(** Among the tables not yet processed one of the least rank is ready. *)
Lemma ready_table (processedTables : gset string) : forall n table,
  table ∈ tables -> Table.name table ∉ processedTables ->
  (rank (Table.name table) <= n)%nat ->
  exists table', table' ∈ tables /\ (Table.name table' ∉ processedTables) /\
    isReady (dependencies schema tables) processedTables table' = true.
Proof.
  induction n as [|n IH]; intros table Hin Hout Hn.
  - exists table. split; [exact Hin|]. split; [exact Hout|].
    apply isReady_spec; [exact Hin|]. intros d Hd.
    apply (ranked_spec rank) in Hd as [_ Hlt]; [lia|exact Hrank|]. apply list_elem_of_fmap. eauto.
  - destruct (isReady (dependencies schema tables) processedTables table) eqn:Hready.
    + exists table. auto.
    + destruct (dependencies_spec (Table.name table)) as (set & Hset & Hspec).
      { apply list_elem_of_fmap. eauto. }
      unfold isReady in Hready. rewrite Hset in Hready.
      apply forallb_false in Hready as (d & Hd & Hhas).
      apply list_elem_of_In, elem_of_elements, Hspec in Hd.
      unfold has in Hhas. apply bool_decide_eq_false in Hhas.
      destruct (ranked_spec rank _ _ Hrank (proj2 (list_elem_of_fmap _ _ _) (ex_intro _ table (conj eq_refl Hin))) Hd)
        as [Hdin Hlt].
      apply list_elem_of_fmap in Hdin as (table' & -> & Hin').
      apply (IH table'); [exact Hin'|exact Hhas|lia].
Qed.


Lemma names_filter_NoDup (p : Table.t -> bool) :
  NoDup (map Table.name (filter p tables)).
Proof.
  revert Hnames. clear. induction tables as [|t ts IH]; simpl; intros Hnd.
  - constructor.
  - apply NoDup_cons in Hnd as [Hout Hnd]. rewrite filter_cons.
    destruct (decide (p t)); [|apply IH, Hnd].
    simpl. apply NoDup_cons. split; [|apply IH, Hnd].
    intros Hin. apply Hout. apply list_elem_of_fmap in Hin as (t' & -> & Ht').
    apply list_elem_of_filter in Ht' as [_ Ht']. apply list_elem_of_fmap. eauto.
Qed.

(** With a ranking the next level is the level of the ready tables. *)
Lemma nextLevel_ready (processedTables : gset string) :
  (size processedTables < length tables)%nat ->
  forall name, name ∈ nextLevel tables (dependencies schema tables) processedTables ->
    (name ∉ processedTables) /\
    forall d, dependsOn name d -> d ∈ processedTables.
Proof.
  intros Hsize name Hname.
  split; [eapply nextLevel_fresh; exact Hname|].
  destruct (unprocessed_table tables processedTables Hnames Hsize) as (t & Ht & Hout).
  destruct (ready_table processedTables _ t Ht Hout (Nat.le_refl _))
    as (t' & Ht' & Hout' & Hready).
  unfold nextLevel in Hname.
  destruct (map Table.name (filter _ tables)) as [|n ns] eqn:E.
  - exfalso. apply fmap_nil_inv in E.
    assert (Hin : t' ∈ filter (fun table =>
                negb (has processedTables (Table.name table))
                && isReady (dependencies schema tables) processedTables table) tables).
    { apply list_elem_of_filter. split; [|exact Ht'].
      apply Is_true_true, andb_true_iff. split; [|exact Hready].
      apply negb_true_iff. unfold has. apply bool_decide_eq_false. exact Hout'. }
    rewrite E in Hin. apply not_elem_of_nil in Hin. exact Hin.
  - rewrite <- E in Hname. apply list_elem_of_fmap in Hname as (t0 & -> & Ht0).
    apply list_elem_of_filter in Ht0 as [Hp Ht0]. apply Is_true_true, andb_true_iff in Hp.
    apply isReady_spec; [exact Ht0|apply Hp].
Qed.

Lemma nextLevel_NoDup (processedTables : gset string) :
  NoDup (nextLevel tables (dependencies schema tables) processedTables).
Proof.
  unfold nextLevel. destruct (map Table.name (filter _ tables)) eqn:E.
  - apply names_filter_NoDup.
  - rewrite <- E. apply names_filter_NoDup.
Qed.

(** The loop keeps the levels ordered and free of repetitions. *)
Lemma buildLevels_ordered : forall fuel (processedTables : gset string) levels levels',
  processedTables = list_to_set (concat levels) ->
  ordered levels -> NoDup (concat levels) ->
  buildLevels fuel tables (dependencies schema tables) processedTables levels = Some levels' ->
  ordered levels' /\ NoDup (concat levels').
Proof.
  induction fuel as [|fuel IH]; intros processedTables levels levels' Hlevels Hord Hnd;
    rewrite buildLevels_step;
    destruct (Nat.ltb_spec (size processedTables) (length tables)) as [Hlt|Hge];
    try discriminate; try (intros [= <-]; auto).
  intros Hbuild. apply IH in Hbuild; [exact Hbuild| | |].
  - rewrite concat_app, list_to_set_app_L, <- Hlevels. simpl. rewrite app_nil_r. reflexivity.
  - intros i level name d Hi Hname Hd.
    apply lookup_app_Some in Hi as [Hi|[Hlen Hi]].
    + destruct (Hord _ _ _ _ Hi Hname Hd) as (j & level' & Hj & Hlj & Hdl).
      exists j, level'. split; [exact Hj|]. split; [|exact Hdl].
      apply lookup_app_l_Some, Hlj.
    + apply list_lookup_singleton_Some in Hi as [Hi <-].
      destruct (nextLevel_ready _ Hlt _ Hname) as [_ Hdeps].
      specialize (Hdeps _ Hd). rewrite Hlevels in Hdeps.
      apply elem_of_list_to_set, list_elem_of_In, in_concat in Hdeps
        as (level' & Hlevel' & Hdl).
      apply list_elem_of_In, list_elem_of_lookup in Hlevel' as (j & Hj).
      exists j, level'. split; [apply lookup_lt_Some in Hj; lia|].
      split; [apply lookup_app_l_Some, Hj|apply list_elem_of_In, Hdl].
  - rewrite concat_app. simpl. rewrite app_nil_r. apply NoDup_app.
    split; [exact Hnd|]. split; [|apply nextLevel_NoDup].
    intros name Hin Hnext. apply (nextLevel_fresh tables _ processedTables name Hnext).
    rewrite Hlevels. apply elem_of_list_to_set, Hin.
Qed.


Lemma roots_ordered :
  ordered [map Table.name (filter (isRoot (dependencies schema tables)) tables)].
Proof.
  intros i level name d Hi Hname Hd.
  apply list_lookup_singleton_Some in Hi as [-> <-].
  apply list_elem_of_fmap in Hname as (t & -> & Ht).
  apply list_elem_of_filter in Ht as [Hroot Ht]. apply Is_true_true in Hroot.
  destruct (dependencies_spec (Table.name t)) as (set & Hset & Hspec).
  { apply list_elem_of_fmap. eauto. }
  unfold isRoot in Hroot. rewrite Hset in Hroot. apply Nat.eqb_eq in Hroot.
  apply size_empty_inv in Hroot. apply Hspec, Hroot in Hd.
  apply not_elem_of_empty in Hd. contradiction.
Qed.

(** *** The positions of the levels *)

Lemma insert_fold_other (f : nat -> string -> LayoutPosition N)
    (entries : list (nat * string)) :
  forall (positions : gmap string (LayoutPosition N)) name,
  name ∉ map snd entries ->
  fold_left (fun (positions : gmap string (LayoutPosition N))
                 '(tableIndex, tableName) =>
               <[tableName := f tableIndex tableName]> positions)
    entries positions !! name = positions !! name.
Proof.
  induction entries as [|[tableIndex tableName] entries IH]; intros positions name Hout;
    simpl; [reflexivity|].
  simpl in Hout. apply not_elem_of_cons in Hout as [Hne Hout].
  rewrite IH by exact Hout. apply lookup_insert_ne. congruence.
Qed.

Lemma insert_fold_value (f : nat -> string -> LayoutPosition N)
    (P : LayoutPosition N -> Prop) (entries : list (nat * string)) :
  (forall i n, P (f i n)) ->
  forall (positions : gmap string (LayoutPosition N)) name,
  name ∈ map snd entries \/ (exists p, positions !! name = Some p /\ P p) ->
  exists p,
    fold_left (fun (positions : gmap string (LayoutPosition N))
                   '(tableIndex, tableName) =>
                 <[tableName := f tableIndex tableName]> positions)
      entries positions !! name = Some p /\ P p.
Proof.
  intros Hf. induction entries as [|[tableIndex tableName] entries IH];
    intros positions name; simpl.
  - intros [Hin|?]; [apply not_elem_of_nil in Hin; contradiction|assumption].
  - intros Hcase. apply IH.
    destruct (decide (tableName = name)) as [-> |Hne].
    + right. rewrite lookup_insert_eq. eauto.
    + rewrite lookup_insert_ne by exact Hne.
      destruct Hcase as [Hin|?]; [|auto].
      apply elem_of_cons in Hin as [?|?]; [congruence|auto].
Qed.

Lemma placeLevel_y positions levelIndex level name :
  name ∈ level ->
  exists p, placeLevel config innerWidth positions (levelIndex, level) !! name = Some p /\
            y p = levelY config levelIndex.
Proof.
  intros Hname. unfold placeLevel.
  apply (insert_fold_value _ (fun p => y p = levelY config levelIndex)).
  - intros i n. reflexivity.
  - left. rewrite indexed_names. exact Hname.
Qed.

Lemma placeLevel_other positions levelIndex level name :
  name ∉ level ->
  placeLevel config innerWidth positions (levelIndex, level) !! name = positions !! name.
Proof.
  intros Hname. unfold placeLevel. apply insert_fold_other.
  rewrite indexed_names. exact Hname.
Qed.

Lemma placeLevels_other levels : forall start positions name,
  name ∉ concat levels ->
  fold_left (placeLevel config innerWidth)
    (combine (seq start (length levels)) levels) positions !! name = positions !! name.
Proof.
  induction levels as [|level levels IH]; intros start positions name Hout; simpl;
    [reflexivity|].
  simpl in Hout. rewrite elem_of_app in Hout.
  rewrite IH by tauto. apply placeLevel_other. tauto.
Qed.

(** A name of the level [i] is given the y-coordinate of that level. *)
Lemma placeLevels_y levels : forall start positions i level name,
  NoDup (concat levels) ->
  levels !! i = Some level -> name ∈ level ->
  exists p,
    fold_left (placeLevel config innerWidth)
      (combine (seq start (length levels)) levels) positions !! name = Some p /\
    y p = levelY config (start + i).
Proof.
  induction levels as [|level0 levels IH]; intros start positions i level name Hnd Hi Hname.
  - rewrite lookup_nil in Hi. discriminate.
  - simpl in Hnd. apply NoDup_app in Hnd as (Hnd0 & Hdisj & Hnd).
    simpl. destruct i as [|i]; simpl in Hi.
    + injection Hi as <-. rewrite placeLevels_other by (apply Hdisj, Hname).
      rewrite Nat.add_0_r. apply placeLevel_y, Hname.
    + replace (start + S i)%nat with (S start + i)%nat by lia.
      eapply IH; eauto.
Qed.


(** X12: when the relationships among distinctly named tables have no cycle
    and lead to tables only, [hierarchicalLayout] puts every table on a
    level below the levels of the tables it references: for a relationship
    from [a] to [b], [a] has the y-coordinate of a level [i] and [b] that
    of a level [j < i]. *)
Theorem hierarchicalLayout_references_above (fuel : nat) :
  (length tables <= fuel)%nat ->
  exists positions,
    hierarchicalLayout schema config innerWidth fuel tables = Some positions /\
    forall rel, rel ∈ Schema.relationships schema ->
      Relationship.from rel ∈ map Table.name tables ->
      exists i j pa pb,
        (j < i)%nat /\
        positions !! Relationship.from rel = Some pa /\
        positions !! Relationship.to rel = Some pb /\
        y pa = levelY config i /\ y pb = levelY config j.
Proof.
  intros Hfuel. unfold hierarchicalLayout.
  set (deps := dependencies schema tables).
  pose proof (initial_levels tables (filter (isRoot deps) tables)) as Hinit.
  pose proof roots_ordered as Hroots. fold deps in Hroots.
  pose proof (names_filter_NoDup (isRoot deps)) as Hnd.
  assert (Hstart :
    let '(processedTables, levels) :=
      match filter (isRoot deps) tables with
      | [] => ((∅ : gset string), ([] : list (list string)))
      | _ => (list_to_set (map Table.name (filter (isRoot deps) tables)),
              [map Table.name (filter (isRoot deps) tables)])
      end in
    ordered levels /\ NoDup (concat levels)).
  { destruct (filter (isRoot deps) tables) as [|r rs].
    - split; [|constructor]. intros i level name d Hi. rewrite lookup_nil in Hi. discriminate.
    - split; [exact Hroots|]. simpl concat. rewrite app_nil_r. exact Hnd. }
  destruct (match filter (isRoot deps) tables with
            | [] => _ | _ => _ end) as [processedTables levels].
  destruct Hinit as [Hsub Hlevels].
  { intros t Ht. apply list_elem_of_filter in Ht as [_ Ht]. exact Ht. }
  destruct Hstart as [Hord Hnd0].
  destruct (buildLevels_terminates tables deps Hnames fuel processedTables levels Hsub Hlevels)
    as (levels' & Hbuild & Hall); [lia|].
  destruct (buildLevels_ordered fuel processedTables levels levels' Hlevels Hord Hnd0 Hbuild)
    as [Hord' Hnd'].
  fold deps. rewrite Hbuild. eexists. split; [reflexivity|].
  intros rel Hrel Hfrom.
  assert (Hin : Relationship.from rel ∈ concat levels').
  { apply (elem_of_list_to_set (C := gset string)). rewrite <- Hall.
    unfold nameSet. apply elem_of_list_to_set, Hfrom. }
  apply list_elem_of_In, in_concat in Hin as (level & Hlevel & Hin).
  apply list_elem_of_In, list_elem_of_lookup in Hlevel as (i & Hi).
  apply list_elem_of_In in Hin.
  destruct (Hord' i level _ (Relationship.to rel) Hi Hin) as (j & level' & Hj & Hlj & Hto).
  { exists rel. auto. }
  destruct (placeLevels_y levels' 0 ∅ i level _ Hnd' Hi Hin) as (pa & Hpa & Hya).
  destruct (placeLevels_y levels' 0 ∅ j level' _ Hnd' Hlj Hto) as (pb & Hpb & Hyb).
  exists i, j, pa, pb. unfold indexed. auto.
Qed.

End Order.


Lemma hierarchicalLayout_references_above_witness :
  exists positions,
    hierarchicalLayout twoTableSchema (defaultConfig (N := float)) (literal 1920) 2 twoTables
      = Some positions /\
    forall rel, rel ∈ Schema.relationships twoTableSchema ->
      Relationship.from rel ∈ map Table.name twoTables ->
      exists i j pa pb,
        (j < i)%nat /\
        positions !! Relationship.from rel = Some pa /\
        positions !! Relationship.to rel = Some pb /\
        y pa = levelY defaultConfig i /\ y pb = levelY defaultConfig j.
Proof.
  apply (hierarchicalLayout_references_above twoTableSchema defaultConfig (literal 1920)
           twoTables sampleRank eq_refl twoTables_distinct 2).
  simpl. lia.
Defined.

End OrderFacts.

(** ** The places of the hierarchical layout *)

Module SlotFacts.
Import LayoutEngine LayoutSpec HierarchySpec SlotSpec HierarchyFacts OrderFacts.

Section Slots.
Context {N : Type} `{Number N}.
Variables (schema : Schema.t) (config : LayoutConfig N) (innerWidth : N).
Variable tables : list Table.t.
Hypothesis Hnames : NoDup (map Table.name tables).

Lemma buildLevels_NoDup : forall fuel (processedTables : gset string) levels levels',
  processedTables = list_to_set (concat levels) ->
  NoDup (concat levels) ->
  buildLevels fuel tables (dependencies schema tables) processedTables levels = Some levels' ->
  NoDup (concat levels').
Proof.
  induction fuel as [|fuel IH]; intros processedTables levels levels' Hlevels Hnd;
    rewrite buildLevels_step;
    destruct (Nat.ltb_spec (size processedTables) (length tables)) as [Hlt|Hge];
    try discriminate; try (intros [= <-]; auto).
  intros Hbuild. apply IH in Hbuild; [exact Hbuild| |].
  - rewrite concat_app, list_to_set_app_L, <- Hlevels. simpl. rewrite app_nil_r. reflexivity.
  - rewrite concat_app. simpl. rewrite app_nil_r. apply NoDup_app.
    split; [exact Hnd|]. split; [|apply nextLevel_NoDup, Hnames].
    intros name Hin Hnext. apply (nextLevel_fresh tables _ processedTables name Hnext).
    rewrite Hlevels. apply elem_of_list_to_set, Hin.
Qed.

Lemma indexed_lookup {A} (l : list A) k a :
  l !! k = Some a -> forall start, (start + k, a)%nat ∈ combine (seq start (length l)) l.
Proof.
  revert k. induction l as [|b l IH]; intros k Hk start; [rewrite lookup_nil in Hk; discriminate|].
  destruct k as [|k]; simpl in *.
  - injection Hk as ->. rewrite Nat.add_0_r. left.
  - right. replace (start + S k)%nat with (S start + k)%nat by lia. apply IH, Hk.
Qed.

(** A fold of insertions at distinct keys leaves at each key what was
    inserted there. *)
Lemma insert_fold_slot (f : nat -> string -> LayoutPosition N)
    (entries : list (nat * string)) :
  NoDup (map snd entries) ->
  forall (positions : gmap string (LayoutPosition N)) k name,
  (k, name) ∈ entries ->
  fold_left (fun (positions : gmap string (LayoutPosition N))
                 '(tableIndex, tableName) =>
               <[tableName := f tableIndex tableName]> positions)
    entries positions !! name = Some (f k name).
Proof.
  induction entries as [|[tableIndex tableName] entries IH]; intros Hnd positions k name Hin.
  - apply not_elem_of_nil in Hin. contradiction.
  - simpl in Hnd. apply NoDup_cons in Hnd as [Hout Hnd]. simpl.
    apply elem_of_cons in Hin as [[= -> ->]|Hin].
    + rewrite insert_fold_other by exact Hout. apply lookup_insert_eq.
    + apply IH; assumption.
Qed.

Lemma placeLevel_slot positions levelIndex level k name :
  NoDup level -> level !! k = Some name ->
  placeLevel config innerWidth positions (levelIndex, level) !! name =
  Some (Position (slotX config innerWidth (length level) k) (levelY config levelIndex)).
Proof.
  intros Hnd Hk. unfold placeLevel.
  rewrite (insert_fold_slot _ (indexed level)) with (k := k).
  - reflexivity.
  - rewrite indexed_names. exact Hnd.
  - exact (indexed_lookup level k name Hk 0).
Qed.

Lemma placeLevels_slot levels : forall start positions i level k name,
  NoDup (concat levels) ->
  levels !! i = Some level -> level !! k = Some name ->
  fold_left (placeLevel config innerWidth)
    (combine (seq start (length levels)) levels) positions !! name =
  Some (Position (slotX config innerWidth (length level) k) (levelY config (start + i))).
Proof.
  induction levels as [|level0 levels IH]; intros start positions i level k name Hnd Hi Hk.
  - rewrite lookup_nil in Hi. discriminate.
  - simpl in Hnd. apply NoDup_app in Hnd as (Hnd0 & Hdisj & Hnd).
    simpl. destruct i as [|i]; simpl in Hi.
    + injection Hi as <-.
      rewrite placeLevels_other by (apply Hdisj; eapply list_elem_of_lookup_2, Hk).
      rewrite Nat.add_0_r. apply placeLevel_slot; assumption.
    + replace (start + S i)%nat with (S start + i)%nat by lia.
      eapply IH; eauto.
Qed.

(** The levels [hierarchicalLayout] builds and the positions it returns. *)
Lemma hierarchicalLayout_levels (fuel : nat) :
  (length tables <= fuel)%nat ->
  exists levels,
    hierarchicalLayout schema config innerWidth fuel tables =
      Some (fold_left (placeLevel config innerWidth) (indexed levels) ∅) /\
    NoDup (concat levels) /\
    nameSet tables = list_to_set (concat levels).
Proof.
  intros Hfuel. unfold hierarchicalLayout.
  set (deps := dependencies schema tables).
  pose proof (initial_levels tables (filter (isRoot deps) tables)) as Hinit.
  pose proof (names_filter_NoDup tables Hnames (isRoot deps)) as Hnd.
  assert (Hstart :
    let '(processedTables, levels) :=
      match filter (isRoot deps) tables with
      | [] => ((∅ : gset string), ([] : list (list string)))
      | _ => (list_to_set (map Table.name (filter (isRoot deps) tables)),
              [map Table.name (filter (isRoot deps) tables)])
      end in
    NoDup (concat levels)).
  { destruct (filter (isRoot deps) tables) as [|r rs].
    - constructor.
    - simpl concat. rewrite app_nil_r. exact Hnd. }
  destruct (match filter (isRoot deps) tables with
            | [] => _ | _ => _ end) as [processedTables levels].
  destruct Hinit as [Hsub Hlevels].
  { intros t Ht. apply list_elem_of_filter in Ht as [_ Ht]. exact Ht. }
  destruct (buildLevels_terminates tables deps Hnames fuel processedTables levels Hsub Hlevels)
    as (levels' & Hbuild & Hall); [lia|].
  pose proof (buildLevels_NoDup fuel processedTables levels levels' Hlevels Hstart Hbuild)
    as Hnd'.
  fold deps. rewrite Hbuild. exists levels'. auto.
Qed.

(** X13: with distinct table names [hierarchicalLayout] shares the tables out
    over the places of its levels, each table in one place, and the
    position of the table in the place [k] of the level [i] is
    [(slotX k, levelY i)]: the level is centred on [padding + innerWidth/2],
    its places are [spacing] apart and the levels [spacing x 1.2]. *)
Theorem hierarchicalLayout_fills_the_places (fuel : nat) :
  (length tables <= fuel)%nat ->
  exists levels positions,
    hierarchicalLayout schema config innerWidth fuel tables = Some positions /\
    concat levels ≡ₚ map Table.name tables /\
    forall i level k name,
      levels !! i = Some level -> level !! k = Some name ->
      positions !! name =
        Some (Position (slotX config innerWidth (length level) k) (levelY config i)).
Proof.
  intros Hfuel.
  destruct (hierarchicalLayout_levels fuel Hfuel) as (levels & Hlayout & Hnd & Hall).
  exists levels, (fold_left (placeLevel config innerWidth) (indexed levels) ∅).
  split; [exact Hlayout|]. split.
  - apply NoDup_Permutation; [exact Hnd|exact Hnames|].
    intros name. rewrite <- (elem_of_list_to_set (C := gset string)), <- Hall.
    unfold nameSet. apply elem_of_list_to_set.
  - intros i level k name Hi Hk.
    exact (placeLevels_slot levels 0 ∅ i level k name Hnd Hi Hk).
Qed.

End Slots.




Lemma hierarchicalLayout_fills_witness :
  exists levels positions,
    hierarchicalLayout twoTableSchema (defaultConfig (N := float)) (literal 1920) 2 twoTables
      = Some positions /\
    concat levels ≡ₚ map Table.name twoTables /\
    forall i level k name,
      levels !! i = Some level -> level !! k = Some name ->
      positions !! name =
        Some (Position (slotX defaultConfig (literal 1920) (length level) k)
                (levelY defaultConfig i)).
Proof.
  apply (hierarchicalLayout_fills_the_places twoTableSchema defaultConfig (literal 1920)
           twoTables twoTables_distinct 2).
  simpl. lia.
Defined.


End SlotFacts.

(** ** Overlaps *)

Module OverlapFacts.
Import LayoutEngine LayoutSpec HierarchySpec.

Section Quiet.
Context {N : Type} `{Number N} `{Sqrt N}.
Variable config : LayoutConfig N.

Lemma separate_apart name1 name2 (positions : gmap string (LayoutPosition N)) :
  (name1 <> name2 -> apart config positions name1 name2) ->
  separate config name1 (Some (positions, false)) name2 = Some (positions, false).
Proof.
  intros Hapart. unfold separate.
  destruct (String.eqb_spec name1 name2) as [_|Hne]; [reflexivity|].
  destruct (Hapart Hne) as (pos1 & pos2 & -> & -> & Hlt).
  unfold distance in Hlt. rewrite Hlt. reflexivity.
Qed.

(** X15: tables that are all apart are left where they are: the first round
    finds no overlap and the loop is left at once. *)
Theorem resolveOverlaps_keeps_separated_tables
    (tables : list Table.t) (positions : gmap string (LayoutPosition N)) :
  (forall table1 table2, In table1 tables -> In table2 tables ->
     Table.name table1 <> Table.name table2 ->
     apart config positions (Table.name table1) (Table.name table2)) ->
  resolveOverlaps config tables positions = Some positions.
Proof.
  intros Hapart.
  assert (Hinner : forall name1 (inner : list Table.t),
            (forall table2, In table2 inner -> name1 <> Table.name table2 ->
               apart config positions name1 (Table.name table2)) ->
            fold_left (fun st table2 => separate config name1 st (Table.name table2))
              inner (Some (positions, false)) = Some (positions, false)).
  { intros name1 inner. induction inner as [|t inner IH]; intros Hin; cbn [fold_left]; [reflexivity|].
    rewrite separate_apart by (apply Hin; left; reflexivity).
    apply IH. intros table2 H2. apply Hin. right. exact H2. }
  assert (Houter : forall (outer : list Table.t),
            (forall table1, In table1 outer -> In table1 tables) ->
            fold_left
              (fun st table1 =>
                 fold_left (fun st table2 =>
                              separate config (Table.name table1) st (Table.name table2))
                   tables st)
              outer (Some (positions, false)) = Some (positions, false)).
  { intros outer. induction outer as [|t outer IH]; intros Hin; cbn [fold_left]; [reflexivity|].
    rewrite Hinner.
    - apply IH. intros table1 H1. apply Hin. right. exact H1.
    - intros table2 H2. apply Hapart; [apply Hin; left; reflexivity|exact H2]. }
  unfold resolveOverlaps. simpl resolveLoop. unfold round.
  rewrite Houter by auto. reflexivity.
Qed.

Lemma separate_lacks name name1 st name2 :
  lacks name st -> lacks name (separate config name1 st name2).
Proof.
  unfold separate. destruct st as [[positions flag]|]; [|auto]. simpl. intros Hnone.
  destruct (String.eqb name1 name2); [exact Hnone|].
  destruct (positions !! name1) as [pos1|] eqn:H1; [|exact I].
  destruct (positions !! name2) as [pos2|] eqn:H2; [|exact I].
  destruct (nlt _ _); [|exact Hnone]. simpl.
  rewrite !lookup_insert_ne by congruence. exact Hnone.
Qed.

Lemma separate_missing name1 st name2 :
  lacks name1 st -> name1 <> name2 -> separate config name1 st name2 = None.
Proof.
  unfold separate. destruct st as [[positions flag]|]; [|reflexivity]. simpl. intros Hnone Hne.
  destruct (String.eqb_spec name1 name2) as [?|_]; [contradiction|].
  rewrite Hnone. reflexivity.
Qed.

Lemma inner_lacks name name1 (inner : list Table.t) : forall st,
  lacks name st ->
  lacks name (fold_left (fun st table2 => separate config name1 st (Table.name table2))
                inner st).
Proof.
  induction inner as [|t inner IH]; intros st Hst; cbn [fold_left]; [exact Hst|].
  apply IH, separate_lacks, Hst.
Qed.

Lemma inner_missing name1 (inner : list Table.t) other : forall st,
  lacks name1 st -> In other inner -> name1 <> Table.name other ->
  fold_left (fun st table2 => separate config name1 st (Table.name table2)) inner st = None.
Proof.
  induction inner as [|t inner IH]; intros st Hst Hin Hne; [destruct Hin|].
  cbn [fold_left]. destruct Hin as [-> |Hin].
  - rewrite separate_missing by assumption.
    clear. induction inner as [|t inner IH]; [reflexivity|apply IH].
  - apply IH; [apply separate_lacks, Hst|exact Hin|exact Hne].
Qed.

Lemma outer_missing (all outer : list Table.t) table other : forall st,
  lacks (Table.name table) st -> In table outer -> In other all ->
  Table.name table <> Table.name other ->
  fold_left
    (fun st table1 =>
       fold_left (fun st table2 => separate config (Table.name table1) st (Table.name table2))
         all st)
    outer st = None.
Proof.
  induction outer as [|t outer IH]; intros st Hst Hin Hother Hne; [destruct Hin|].
  cbn [fold_left]. destruct Hin as [-> |Hin].
  - rewrite (inner_missing _ _ other) by assumption.
    clear. induction outer as [|t outer IH]; [reflexivity|]. cbn [fold_left].
    replace (fold_left _ all None) with
      (None : option (gmap string (LayoutPosition N) * bool)); [exact IH|].
    clear. induction all as [|t' all IH]; [reflexivity|apply IH].
  - apply IH; [apply inner_lacks, Hst|exact Hin|exact Hother|exact Hne].
Qed.

(** X16: a table without a position, beside a table of another name, makes
    [resolveOverlaps] throw in its first round: [pos1.x] is read off
    [undefined]. *)
Theorem resolveOverlaps_throws_without_position
    (tables : list Table.t) (positions : gmap string (LayoutPosition N))
    (table other : Table.t) :
  In table tables -> In other tables ->
  Table.name table <> Table.name other ->
  positions !! Table.name table = None ->
  resolveOverlaps config tables positions = None.
Proof.
  intros Hin Hother Hne Hnone. unfold resolveOverlaps. simpl resolveLoop. unfold round.
  rewrite (outer_missing tables tables table other) by assumption. reflexivity.
Qed.

Lemma sameKeysBut_refl names (positions : gmap string (LayoutPosition N)) :
  sameKeysBut names positions positions.
Proof. split; intros; reflexivity. Qed.

Lemma sameKeysBut_trans names (p1 p2 p3 : gmap string (LayoutPosition N)) :
  sameKeysBut names p1 p2 -> sameKeysBut names p2 p3 -> sameKeysBut names p1 p3.
Proof.
  intros [Hk1 Ho1] [Hk2 Ho2]. split.
  - intros name. rewrite Hk2, Hk1. reflexivity.
  - intros name Hout. rewrite Ho2, Ho1 by exact Hout. reflexivity.
Qed.

Lemma separate_keys names name1 name2 positions flag positions' flag' :
  In name1 names -> In name2 names ->
  separate config name1 (Some (positions, flag)) name2 = Some (positions', flag') ->
  sameKeysBut names positions positions'.
Proof.
  intros H1 H2. unfold separate.
  destruct (String.eqb name1 name2); [intros [= <- _]; apply sameKeysBut_refl|].
  destruct (positions !! name1) as [pos1|] eqn:E1; [|discriminate].
  destruct (positions !! name2) as [pos2|] eqn:E2; [|discriminate].
  destruct (nlt _ _); [|intros [= <- _]; apply sameKeysBut_refl].
  intros [= <- _]. split.
  - intros name. destruct (decide (name2 = name)) as [<-|Hne2].
    + rewrite lookup_insert_eq, E2. split; eauto.
    + rewrite lookup_insert_ne by exact Hne2.
      destruct (decide (name1 = name)) as [<-|Hne1].
      * rewrite lookup_insert_eq, E1. split; eauto.
      * rewrite lookup_insert_ne by exact Hne1. reflexivity.
  - intros name Hout. rewrite !lookup_insert_ne; [reflexivity|congruence|congruence].
Qed.

Lemma inner_keys names name1 (inner : list Table.t) : forall positions flag positions' flag',
  In name1 names -> (forall t, In t inner -> In (Table.name t) names) ->
  fold_left (fun st table2 => separate config name1 st (Table.name table2)) inner
    (Some (positions, flag)) = Some (positions', flag') ->
  sameKeysBut names positions positions'.
Proof.
  induction inner as [|t inner IH]; intros positions flag positions' flag' H1 Hin;
    cbn [fold_left].
  - intros [= <- _]. apply sameKeysBut_refl.
  - destruct (separate config name1 (Some (positions, flag)) (Table.name t))
      as [[positions1 flag1]|] eqn:Estep.
    + intros Hrest. eapply sameKeysBut_trans.
      * eapply separate_keys; [exact H1|apply Hin; left; reflexivity|exact Estep].
      * eapply IH; [exact H1|intros t' Ht'; apply Hin; right; exact Ht'|exact Hrest].
    + intros Hrest. exfalso. revert Hrest. clear.
      induction inner as [|t' inner IH]; [discriminate|exact IH].
Qed.

Lemma outer_keys names (all outer : list Table.t) : forall positions flag positions' flag',
  (forall t, In t all -> In (Table.name t) names) ->
  (forall t, In t outer -> In (Table.name t) names) ->
  fold_left
    (fun st table1 =>
       fold_left (fun st table2 => separate config (Table.name table1) st (Table.name table2))
         all st)
    outer (Some (positions, flag)) = Some (positions', flag') ->
  sameKeysBut names positions positions'.
Proof.
  induction outer as [|t outer IH]; intros positions flag positions' flag' Hall Hin;
    cbn [fold_left].
  - intros [= <- _]. apply sameKeysBut_refl.
  - destruct (fold_left (fun st table2 =>
                 separate config (Table.name t) st (Table.name table2)) all
                (Some (positions, flag))) as [[positions1 flag1]|] eqn:Estep.
    + intros Hrest. eapply sameKeysBut_trans.
      * eapply inner_keys; [apply Hin; left; reflexivity|exact Hall|exact Estep].
      * eapply IH; [exact Hall|intros t' Ht'; apply Hin; right; exact Ht'|exact Hrest].
    + intros Hrest. exfalso. revert Hrest. clear.
      induction outer as [|t' outer IH]; [discriminate|].
      cbn [fold_left].
      replace (fold_left _ all None) with
        (None : option (gmap string (LayoutPosition N) * bool)); [exact IH|].
      clear. induction all as [|t'' all IH]; [reflexivity|apply IH].
Qed.

Lemma resolveLoop_keys (tables : list Table.t) rounds : forall positions positions' flag,
  resolveLoop config rounds tables positions = Some (positions', flag) ->
  sameKeysBut (map Table.name tables) positions positions'.
Proof.
  induction rounds as [|rounds IH]; intros positions positions' flag; simpl.
  - intros [= <- _]. apply sameKeysBut_refl.
  - destruct (round config tables positions) as [[positions1 flag1]|] eqn:Eround;
      [|discriminate].
    assert (Hround : sameKeysBut (map Table.name tables) positions positions1).
    { unfold round in Eround. eapply outer_keys; [| |exact Eround];
        intros t Ht; apply in_map, Ht. }
    destruct flag1.
    + intros Hrest. eapply sameKeysBut_trans; [exact Hround|eapply IH, Hrest].
    + intros [= <- _]. exact Hround.
Qed.

(** X17: [resolveOverlaps] moves positions and does nothing else to the map:
    what it returns has the keys it was given, and the position of a name
    that is no table name is the one it was given. *)
Theorem resolveOverlaps_keeps_the_keys
    (tables : list Table.t) (positions positions' : gmap string (LayoutPosition N)) :
  resolveOverlaps config tables positions = Some positions' ->
  (forall name, is_Some (positions' !! name) <-> is_Some (positions !! name)) /\
  (forall name, ~ In name (map Table.name tables) ->
     positions' !! name = positions !! name).
Proof.
  unfold resolveOverlaps. destruct (resolveLoop config 50 tables positions)
    as [[positions1 flag]|] eqn:Eloop; [|discriminate].
  intros [= <-]. exact (resolveLoop_keys tables 50 _ _ _ Eloop).
Qed.

(** X18: when the loop of [resolveOverlaps] is left by its [break], before the
    cap of 50 rounds, the positions returned are those of a round that
    moved nothing: for any two tables of different names the test
    [distance < minDistance] is false. *)
Theorem resolveOverlaps_break_leaves_tables_apart
    (tables : list Table.t) (positions positions' : gmap string (LayoutPosition N)) :
  resolveLoop config 50 tables positions = Some (positions', true) ->
  resolveOverlaps config tables positions = Some positions' /\
  forall table1 table2, In table1 tables -> In table2 tables ->
    Table.name table1 <> Table.name table2 ->
    apart config positions' (Table.name table1) (Table.name table2).
Proof.
  intros Hloop. split.
  - unfold resolveOverlaps. rewrite Hloop. reflexivity.
  - exact (LayoutFacts.resolveLoop_break config 50 tables positions positions' Hloop).
Qed.

End Quiet.
Lemma resolveOverlaps_separated_witness :
  resolveOverlaps defaultConfig twoTables separated = Some separated.
Proof.
  apply (resolveOverlaps_keeps_separated_tables defaultConfig twoTables separated).
  intros table1 table2 [<-|[<-|[]]] [<-|[<-|[]]] Hne;
    try (exfalso; apply Hne; reflexivity);
    (eexists _, _; split; [vm_compute; reflexivity|];
     split; [vm_compute; reflexivity|vm_compute; reflexivity]).
Defined.

Lemma resolveOverlaps_throws_witness :
  resolveOverlaps defaultConfig twoTables withoutA = None.
Proof.
  apply (resolveOverlaps_throws_without_position defaultConfig twoTables withoutA
           (plainTable "a") (plainTable "b"));
    [left; reflexivity|right; left; reflexivity|discriminate|reflexivity].
Defined.

Lemma resolveOverlaps_keys_witness :
  exists positions',
    resolveOverlaps defaultConfig twoTables crowded = Some positions' /\
    (forall name, is_Some (positions' !! name) <-> is_Some (crowded !! name)) /\
    (forall name, ~ In name (map Table.name twoTables) ->
       positions' !! name = crowded !! name).
Proof.
  assert (Hresult : exists positions',
             resolveOverlaps defaultConfig twoTables crowded = Some positions')
    by (eexists; vm_compute; reflexivity).
  destruct Hresult as [positions' Hresult]. exists positions'.
  split; [exact Hresult|].
  exact (resolveOverlaps_keeps_the_keys defaultConfig twoTables crowded positions' Hresult).
Defined.

Lemma resolveOverlaps_break_witness :
  exists positions',
    resolveOverlaps defaultConfig twoTables crowded = Some positions' /\
    apart defaultConfig positions' "a" "b".
Proof.
  assert (Hloop : exists positions',
             resolveLoop defaultConfig 50 twoTables crowded = Some (positions', true))
    by (eexists; vm_compute; reflexivity).
  destruct Hloop as [positions' Hloop]. exists positions'.
  destruct (resolveOverlaps_break_leaves_tables_apart defaultConfig twoTables crowded
              positions' Hloop) as [Hresult Hapart].
  split; [exact Hresult|].
  apply (Hapart (plainTable "a") (plainTable "b"));
    [left; reflexivity|right; left; reflexivity|discriminate].
Defined.

End OverlapFacts.

(** ** The connections of the relationships *)

Module ConnectionFacts.
Import LayoutEngine EdgeRouting EdgeRoutingAll ParserSpec SchemaSpec ConnectionSpec ParserFacts SchemaFacts.

Section Connections.
Context {N : Type} `{Number N}.

Lemma edgeId_idAt rel index :
  edgeId rel index = idAt (Relationship.from rel) (Relationship.to rel) index.
Proof. reflexivity. Qed.

(** An edge id tells the position of its relationship. *)
Lemma edgeId_index rel1 rel2 i j : edgeId rel1 i = edgeId rel2 j -> i = j.
Proof.
  rewrite !edgeId_idAt. intros Heq. apply (f_equal lastField) in Heq.
  rewrite !lastField_idAt in Heq. apply string_of_nat_inj, Heq.
Qed.

Lemma combine_seq_snoc {A} (l : list A) x : forall start,
  combine (seq start (length (l ++ [x]))) (l ++ [x]) =
  combine (seq start (length l)) l ++ [((start + length l)%nat, x)].
Proof.
  induction l as [|a l IH]; intros start; simpl.
  - rewrite Nat.add_0_r. reflexivity.
  - rewrite IH. replace (S start + length l)%nat with (start + S (length l))%nat by lia.
    reflexivity.
Qed.

Lemma indexed_snoc {A} (l : list A) x : indexed (l ++ [x]) = indexed l ++ [(length l, x)].
Proof. unfold indexed. exact (combine_seq_snoc l x 0). Qed.

Lemma connections_spec (nodes : gmap string (Node N)) (relationships : list Relationship.t) :
  let connections := fold_left (connect nodes) (indexed relationships) ∅ in
  (forall index rel, relationships !! index = Some rel ->
     connections !! edgeId rel index = connectionOf nodes rel) /\
  (forall key, is_Some (connections !! key) ->
     exists index rel, relationships !! index = Some rel /\ key = edgeId rel index).
Proof.
  induction relationships as [|rel0 rels IH] using rev_ind; simpl.
  - split; [intros index rel Hrel; rewrite lookup_nil in Hrel; discriminate|].
    intros key [c Hc]. rewrite lookup_empty in Hc. discriminate.
  - rewrite indexed_snoc, fold_left_app. simpl.
    destruct IH as [IHvalue IHkeys].
    set (connections := fold_left (connect nodes) (indexed rels) ∅) in *.
    assert (Hfresh : connections !! edgeId rel0 (length rels) = None).
    { destruct (connections !! edgeId rel0 (length rels)) as [c|] eqn:E; [|reflexivity].
      destruct (IHkeys _ (ex_intro _ c E)) as (index & rel & Hrel & Heq).
      apply edgeId_index in Heq. apply lookup_lt_Some in Hrel. lia. }
    split.
    + intros index rel Hrel. apply lookup_app_Some in Hrel as [Hrel|[Hlen Hrel]].
      * rewrite <- (IHvalue _ _ Hrel). unfold connectionOf.
        destruct (nodes !! Relationship.from rel0), (nodes !! Relationship.to rel0);
          try reflexivity.
        apply lookup_insert_ne. intros Heq. apply edgeId_index in Heq.
        apply lookup_lt_Some in Hrel. lia.
      * apply list_lookup_singleton_Some in Hrel as [Hindex <-].
        replace index with (length rels) by lia. unfold connectionOf.
        destruct (nodes !! Relationship.from rel0), (nodes !! Relationship.to rel0);
          try exact Hfresh.
        apply lookup_insert_eq.
    + intros key Hkey.
      assert (Hcase : key = edgeId rel0 (length rels) \/ is_Some (connections !! key)).
      { destruct (nodes !! Relationship.from rel0), (nodes !! Relationship.to rel0);
          try (right; exact Hkey).
        destruct (decide (edgeId rel0 (length rels) = key)) as [<-|Hne]; [left; reflexivity|].
        right. rewrite lookup_insert_ne in Hkey by exact Hne. exact Hkey. }
      destruct Hcase as [-> |Hold].
      * exists (length rels), rel0. split; [|reflexivity].
        rewrite lookup_app_r by lia. rewrite Nat.sub_diag. reflexivity.
      * destruct (IHkeys _ Hold) as (index & rel & Hrel & ->).
        exists index, rel. split; [|reflexivity]. apply lookup_app_l_Some, Hrel.
Qed.

(** X19: [calculateAllOptimalConnections] keys the connection of the relationship
    at position [index] by its edge id, which no other relationship shares:
    the entry is the connection of the two nodes when both are there and is
    missing otherwise; and the map has no other key. *)
Theorem calculateAllOptimalConnections_by_edge_id
    (nodes : list (Node N)) (relationships : list Relationship.t) :
  (forall index rel, relationships !! index = Some rel ->
     calculateAllOptimalConnections nodes relationships !! edgeId rel index =
       connectionOf (nodeMap nodes) rel) /\
  (forall key, is_Some (calculateAllOptimalConnections nodes relationships !! key) ->
     exists index rel, relationships !! index = Some rel /\ key = edgeId rel index).
Proof. apply connections_spec. Qed.

End Connections.
End ConnectionFacts.

(** ** The schema filters *)

Module FilterFacts.
Import SchemaFilters FilterSpec.

(** *** The categories *)

Lemma fold_pushTable tables : forall categories,
  let result := fold_left pushTable tables categories in
  core result = core categories ++ List.filter (fun t => bool_decide (categoryOf t = Core)) tables /\
  junction result =
    junction categories ++ List.filter (fun t => bool_decide (categoryOf t = Junction)) tables /\
  lookup result =
    lookup categories ++ List.filter (fun t => bool_decide (categoryOf t = Lookup)) tables.
Proof.
  induction tables as [|t tables IH]; intros categories; simpl.
  - rewrite !app_nil_r. auto.
  - destruct (IH (pushTable categories t)) as (Hc & Hj & Hl).
    rewrite Hc, Hj, Hl. unfold pushTable.
    destruct (categoryOf t); simpl; rewrite <- ?app_assoc; auto.
Qed.

Lemma three_way_partition (tables : list Table.t) :
  List.filter (fun t => bool_decide (categoryOf t = Core)) tables ++
  List.filter (fun t => bool_decide (categoryOf t = Junction)) tables ++
  List.filter (fun t => bool_decide (categoryOf t = Lookup)) tables ≡ₚ tables.
Proof.
  induction tables as [|t tables IH]; [reflexivity|].
  simpl. destruct (categoryOf t); simpl.
  - constructor. exact IH.
  - rewrite <- Permutation_middle. constructor. exact IH.
  - rewrite app_assoc, <- Permutation_middle, <- app_assoc. constructor. exact IH.
Qed.

(** X20: the three arrays of [categorizedTables] share out the tables of the
    schema: together they are a rearrangement of the tables, and each holds
    the tables of its own category. *)
Theorem categorizedTables_partition (schema : Schema.t) :
  let categories := categorizedTables schema in
  core categories ++ junction categories ++ lookup categories ≡ₚ Schema.tables schema /\
  Forall (fun t => categoryOf t = Core) (core categories) /\
  Forall (fun t => categoryOf t = Junction) (junction categories) /\
  Forall (fun t => categoryOf t = Lookup) (lookup categories).
Proof.
  unfold categorizedTables.
  destruct (fold_pushTable (Schema.tables schema) (Categories [] [] [])) as (Hc & Hj & Hl).
  simpl in *. rewrite Hc, Hj, Hl.
  split; [apply three_way_partition|].
  repeat split; apply Forall_forall; intros t Ht;
    apply list_elem_of_In, filter_In in Ht as [_ Ht];
    apply bool_decide_eq_true in Ht; exact Ht.
Qed.

(** *** The filtered tables *)

Lemma filter_sublist {A} (p : A -> bool) l : List.filter p l `sublist_of` l.
Proof.
  induction l as [|a l IH]; simpl; [constructor|].
  destruct (p a); [apply sublist_skip|apply sublist_cons]; exact IH.
Qed.

Lemma restricts_refl t : restricts t t.
Proof. unfold restricts. split; [|split; [|split; [|split]]]; reflexivity. Qed.

Lemma restricts_withColumns p original table :
  restricts original table -> restricts original (withColumns p table).
Proof.
  intros (Hn & Hp & Hf & Hi & Hc).
  unfold restricts. split; [|split; [|split; [|split]]]; simpl; auto.
  etransitivity; [apply filter_sublist|exact Hc].
Qed.

Lemma includesTable_filter (p : Table.t -> bool) tables table :
  In table tables -> includesTable (List.filter p tables) table = p table.
Proof.
  intros Hin. unfold includesTable. destruct (p table) eqn:Hp.
  - apply bool_decide_eq_true. apply list_elem_of_In, filter_In. auto.
  - apply bool_decide_eq_false. intros Hfiltered.
    apply list_elem_of_In, filter_In in Hfiltered as [_ Hfiltered]. congruence.
Qed.

(** For a table of the schema the filter by table types reads the switch
    of its category. *)
Lemma typeVisible_category schema filters table :
  In table (Schema.tables schema) ->
  typeVisible filters (categorizedTables schema) table =
  categoryVisible filters (categoryOf table).
Proof.
  intros Hin. unfold typeVisible, categorizedTables.
  destruct (fold_pushTable (Schema.tables schema) (Categories [] [] [])) as (Hc & Hj & Hl).
  simpl in Hc, Hj, Hl. rewrite Hc, Hj, Hl.
  rewrite !includesTable_filter by exact Hin.
  destruct (categoryOf table); reflexivity.
Qed.

Lemma stage_restricts applied step tables :
  (forall table, In table (step tables) ->
     exists previous, In previous tables /\ restricts previous table) ->
  forall table, In table (stage applied step tables) ->
    exists previous, In previous tables /\ restricts previous table.
Proof.
  intros Hstep table. unfold stage. destruct applied; [apply Hstep|].
  intros Hin. exists table. split; [exact Hin|apply restricts_refl].
Qed.

Lemma filteredTables_stages schema filters :
  filteredTables schema filters =
  stage (negb (showPrimaryKeys filters) || negb (showForeignKeys filters))
    (map (withColumns (keyVisible filters)))
    (stage (negb (showNumbers (dataTypes filters)) || negb (showStrings (dataTypes filters))
            || negb (showDates (dataTypes filters))
            || negb (showBooleans (dataTypes filters)))
       (fun tables =>
          List.filter (fun table => (0 <? length (Table.columns table))%nat)
            (map (withColumns (dataTypeVisible filters)) tables))
       (stage (negb (coreTables (tableTypes filters))
               || negb (junctionTables (tableTypes filters))
               || negb (lookupTables (tableTypes filters)))
          (List.filter (typeVisible filters (categorizedTables schema)))
          (Schema.tables schema))).
Proof. reflexivity. Qed.

Lemma typed_stage_visible schema filters table :
  In table
    (stage (negb (coreTables (tableTypes filters))
            || negb (junctionTables (tableTypes filters))
            || negb (lookupTables (tableTypes filters)))
       (List.filter (typeVisible filters (categorizedTables schema)))
       (Schema.tables schema)) ->
  In table (Schema.tables schema) /\
  categoryVisible filters (categoryOf table) = true.
Proof.
  unfold stage.
  destruct (coreTables (tableTypes filters)) eqn:Hc,
           (junctionTables (tableTypes filters)) eqn:Hj,
           (lookupTables (tableTypes filters)) eqn:Hl; simpl;
    try (intros Hin; split; [exact Hin|];
         destruct (categoryOf table); simpl; assumption);
    intros Hin; apply filter_In in Hin as [Hin Hvisible];
    (split; [exact Hin|]);
    rewrite typeVisible_category in Hvisible by exact Hin; exact Hvisible.
Qed.

(** X21: every table the filters let through is a table of the schema with
    some of its columns left out: same name, keys and indexes; and the
    category of that table is switched on. *)
Theorem filteredTables_restrict_schema_tables
    (schema : Schema.t) (filters : FilterState) (table : Table.t) :
  In table (filteredTables schema filters) ->
  exists original, In original (Schema.tables schema) /\ restricts original table /\
    categoryVisible filters (categoryOf original) = true.
Proof.
  rewrite filteredTables_stages. intros Hin.
  apply stage_restricts in Hin as (t2 & Hin & H32).
  2:{ intros t Ht. apply in_map_iff in Ht as (t0 & <- & Ht0). exists t0.
      split; [exact Ht0|apply restricts_withColumns, restricts_refl]. }
  apply stage_restricts in Hin as (t1 & Hin & H21).
  2:{ intros t Ht. apply filter_In in Ht as [Ht _].
      apply in_map_iff in Ht as (t0 & <- & Ht0). exists t0.
      split; [exact Ht0|apply restricts_withColumns, restricts_refl]. }
  apply typed_stage_visible in Hin as [Hin Hvisible].
  exists t1. split; [exact Hin|]. split; [|exact Hvisible].
  destruct H21 as (Hn1 & Hp1 & Hf1 & Hi1 & Hc1), H32 as (Hn2 & Hp2 & Hf2 & Hi2 & Hc2).
  unfold restricts. split; [|split; [|split; [|split]]]; try congruence.
  etransitivity; [exact Hc2|exact Hc1].
Qed.

Lemma keyVisible_all filters column :
  showPrimaryKeys filters = true -> showForeignKeys filters = true ->
  keyVisible filters column = true.
Proof.
  intros Hp Hf. unfold keyVisible. rewrite Hp, Hf. simpl. rewrite !andb_false_r. reflexivity.
Qed.

Lemma dataTypeVisible_all filters column :
  showNumbers (dataTypes filters) = true -> showStrings (dataTypes filters) = true ->
  showDates (dataTypes filters) = true -> showBooleans (dataTypes filters) = true ->
  dataTypeVisible filters column = true.
Proof.
  intros Hn Hs Hd Hb. unfold dataTypeVisible. rewrite Hn, Hs, Hd, Hb.
  repeat match goal with |- context [if ?b then _ else _] => destruct b end; reflexivity.
Qed.

(** X22: no column the filters hide is left in a table they let through: each
    remaining column passes the filter by data types and the filter by key
    types. *)
Theorem filteredTables_show_no_hidden_column
    (schema : Schema.t) (filters : FilterState) (table : Table.t) (column : Column.t) :
  In table (filteredTables schema filters) ->
  In column (Table.columns table) ->
  dataTypeVisible filters column = true /\ keyVisible filters column = true.
Proof.
  rewrite filteredTables_stages.
  set (typed := stage _ (List.filter _) _).
  set (byData := stage _ _ typed).
  assert (Hdata : forall t c, In t byData -> In c (Table.columns t) ->
            dataTypeVisible filters c = true).
  { subst byData. unfold stage.
    destruct (showNumbers (dataTypes filters)) eqn:Hn,
             (showStrings (dataTypes filters)) eqn:Hs,
             (showDates (dataTypes filters)) eqn:Hd,
             (showBooleans (dataTypes filters)) eqn:Hb; simpl;
      try (intros t c _ _; apply dataTypeVisible_all; assumption);
      intros t c Ht Hc; apply filter_In in Ht as [Ht _];
      apply in_map_iff in Ht as (t0 & <- & _); simpl in Hc;
      apply filter_In in Hc as [_ Hc]; exact Hc. }
  unfold stage at 1.
  destruct (showPrimaryKeys filters) eqn:Hp, (showForeignKeys filters) eqn:Hf; simpl;
    try (intros Ht Hc; split;
         [eapply Hdata; eauto|apply keyVisible_all; assumption]);
    intros Ht Hc; apply in_map_iff in Ht as (t0 & <- & Ht0); simpl in Hc;
    apply filter_In in Hc as [Hc Hkey]; (split; [eapply Hdata; eauto|exact Hkey]).
Qed.

Lemma stage_length applied step tables :
  (length (step tables) <= length tables)%nat ->
  (length (stage applied step tables) <= length tables)%nat.
Proof. unfold stage. destruct applied; lia. Qed.

Lemma filter_length_le {A} (p : A -> bool) l : (length (List.filter p l) <= length l)%nat.
Proof. induction l as [|a l IH]; simpl; [lia|]. destruct (p a); simpl; lia. Qed.

(** X23: the counts of [filterStats]: the filters only take away, so what is
    hidden is never negative and never more than the total. *)
Theorem filterStats_bounds (schema : Schema.t) (filters : FilterState) :
  (0 <= hidden (tableStats schema filters) <= total (tableStats schema filters))%Z /\
  (0 <= hidden (relationshipStats schema filters)
     <= total (relationshipStats schema filters))%Z.
Proof.
  assert (Htables : (length (filteredTables schema filters) <=
                     length (Schema.tables schema))%nat).
  { rewrite filteredTables_stages.
    etransitivity; [apply stage_length; rewrite length_map; reflexivity|].
    etransitivity; [apply stage_length|].
    { etransitivity; [apply filter_length_le|]. rewrite length_map. reflexivity. }
    apply stage_length, filter_length_le. }
  assert (Hrels : (length (filteredRelationships schema filters) <=
                   length (Schema.relationships schema))%nat).
  { unfold filteredRelationships. destruct (negb _); simpl; lia. }
  unfold tableStats, relationshipStats, stats. simpl. lia.
Qed.

Lemma filteredTables_restrict_witness :
  In usersWithoutKeys (filteredTables sampleSchema withoutPrimaryKeys) /\
  exists original, In original (Schema.tables sampleSchema) /\
    restricts original usersWithoutKeys /\
    categoryVisible withoutPrimaryKeys (categoryOf original) = true.
Proof.
  assert (Hin : In usersWithoutKeys (filteredTables sampleSchema withoutPrimaryKeys))
    by (vm_compute; left; reflexivity).
  split; [exact Hin|].
  exact (filteredTables_restrict_schema_tables sampleSchema withoutPrimaryKeys
           usersWithoutKeys Hin).
Defined.

Lemma filteredTables_hidden_column_witness :
  In usersWithoutKeys (filteredTables sampleSchema withoutPrimaryKeys) /\
  keyVisible withoutPrimaryKeys (Column.Build "email" "VARCHAR(100)" true false false) = true.
Proof.
  assert (Hin : In usersWithoutKeys (filteredTables sampleSchema withoutPrimaryKeys))
    by (vm_compute; left; reflexivity).
  split; [exact Hin|].
  apply (filteredTables_show_no_hidden_column sampleSchema withoutPrimaryKeys
           usersWithoutKeys (Column.Build "email" "VARCHAR(100)" true false false) Hin).
  left. reflexivity.
Defined.

End FilterFacts.
